(** * Faust worker core: attachments, topics, table manager

    A shallow embedding of three modules of the worker:

    - [faust/app/_attached.py]  (class [Attachments]),
    - [faust/topics.py]         (classes [Topic] and [TopicManager]),
    - [faust/tables/manager.py] (class [TableManager]),

    followed by the properties of the specification that concern them.
    Python dictionaries are finite maps ([gmap]), a [defaultdict] is a
    finite map whose [__getitem__] inserts the default on a miss, Python
    integers are [Z], and exceptions are an explicit error result. *)

From Stdlib Require Import ZArith List Lia Bool.
From stdpp Require Import base gmap strings list fin_maps.

Open Scope Z_scope.

(** A topic-partition, [TP(topic, partition)]. *)
Abbreviation TP := (string * Z)%type.

(** The exceptions the three modules raise. *)
Inductive exn : Type :=
| TypeError (msg : string)
| ValueError (msg : string)
| RuntimeError (msg : string)
| KeyError
| AssertionError.

(** Result of a call that may raise. *)
Inductive result (A : Type) : Type :=
| Ok (a : A)
| Raise (e : exn).
Arguments Ok {A} a.
Arguments Raise {A} e.

(* ===================================================================== *)
(** * [faust/app/_attached.py] *)
(* ===================================================================== *)

Module Attached.

(** The payload handed to [chan.as_future_message]. *)
Record PendingMessage : Type := {
  pm_channel : string;
  pm_key : option string;
  pm_value : option string;
  pm_partition : option Z;
}.

(** A [FutureMessage] is a Python object: two calls of
    [as_future_message] never return the same object, even for equal
    payloads.  [fut_id] stands for that object identity. *)
Record FutureMessage : Type := {
  fut_id : nat;
  fut_message : PendingMessage;
}.

(** [Attachments._pending]:
    [defaultdict(lambda: defaultdict(list))], from TP to offset to list. *)
Abbreviation pending_map := (gmap TP (gmap Z (list FutureMessage))).

(** [self._pending[tp]] on the outer [defaultdict]: a miss stores and
    returns an empty inner dictionary. *)
Definition getitem_tp (tp : TP) (p : pending_map)
  : gmap Z (list FutureMessage) * pending_map :=
  match p !! tp with
  | Some inner => (inner, p)
  | None => (∅, <[tp := ∅]> p)
  end.

(** [self._pending[tp][offset]] on the inner [defaultdict(list)]. *)
Definition getitem_offset (off : Z) (inner : gmap Z (list FutureMessage))
  : list FutureMessage * gmap Z (list FutureMessage) :=
  match inner !! off with
  | Some l => (l, inner)
  | None => ([], <[off := []]> inner)
  end.

(** [Attachments.put], given the future [fut] that
    [chan.as_future_message(...)] returned:
    [self._pending[message.tp][message.offset].append(fut)]. *)
Definition put_fut (tp : TP) (off : Z) (fut : FutureMessage) (p : pending_map)
  : pending_map :=
  let '(inner, p1) := getitem_tp tp p in
  let '(l, inner1) := getitem_offset off inner in
  <[tp := <[off := l ++ [fut]]> inner1]> p1.

(** [Attachments._attachments_for]:
    [return self._pending[tp].pop(commit_offset, None)]. *)
Definition _attachments_for (tp : TP) (commit_offset : Z) (p : pending_map)
  : option (list FutureMessage) * pending_map :=
  let '(inner, p1) := getitem_tp tp p in
  (inner !! commit_offset, <[tp := delete commit_offset inner]> p1).

(** Truth value of [attached] in [if attached:]. *)
Definition truthy_list {A} (o : option (list A)) : bool :=
  match o with
  | Some (_ :: _) => true
  | _ => false
  end.

(** The worker as far as attachments go: the buffer, the messages handed
    to the producer by [publish_message(fut, wait=False)] in the order of
    the calls, and the next fresh object identity. *)
Record World : Type := {
  pending : pending_map;
  sent : list FutureMessage;
  next_fut : nat;
}.

Definition init : World :=
  {| pending := ∅; sent := []; next_fut := 0%nat |}.

(** [Attachments.put]: builds the future and enqueues it. *)
Definition put (tp : TP) (off : Z) (m : PendingMessage) (w : World)
  : FutureMessage * World :=
  let fut := {| fut_id := next_fut w; fut_message := m |} in
  (fut, {| pending := put_fut tp off fut (pending w);
           sent := sent w;
           next_fut := S (next_fut w) |}).

(** [Attachments.commit] run without interruption: pop the list, then
    [publish_message(fut, wait=False)] for each future, in list order. *)
Definition commit (tp : TP) (off : Z) (w : World) : World :=
  let '(attached, p1) := _attachments_for tp off (pending w) in
  if truthy_list attached then
    {| pending := p1;
       sent := sent w ++ default [] attached;
       next_fut := next_fut w |}
  else
    {| pending := p1; sent := sent w; next_fut := next_fut w |}.

(** ** Coroutines

    [commit] is a coroutine: control can pass to another coroutine at each
    [await], that is, inside each [publish_message] call and at the final
    [asyncio.wait].  [_attachments_for] and [put] contain no [await].  A
    task is a call together with the point it has reached. *)
Inductive task : Type :=
| TPut (tp : TP) (off : Z) (m : PendingMessage)
| TCommit (tp : TP) (off : Z)
| TPublishing (todo : list FutureMessage)
| TDone.

(** One uninterrupted piece of a task. *)
Definition task_step (t : task) (w : World) : task * World :=
  match t with
  | TPut tp off m => (TDone, snd (put tp off m w))
  | TCommit tp off =>
      let '(attached, p1) := _attachments_for tp off (pending w) in
      (if truthy_list attached then TPublishing (default [] attached)
       else TDone,
       {| pending := p1; sent := sent w; next_fut := next_fut w |})
  | TPublishing [] => (TDone, w)
  | TPublishing (fut :: todo) =>
      (TPublishing todo,
       {| pending := pending w;
          sent := sent w ++ [fut];
          next_fut := next_fut w |})
  | TDone => (TDone, w)
  end.

(** The event loop: [schedule] lists which task runs next. *)
Fixpoint run (schedule : list nat) (ts : list task) (w : World)
  : list task * World :=
  match schedule with
  | [] => (ts, w)
  | i :: schedule' =>
      match ts !! i with
      | Some t =>
          let '(t', w') := task_step t w in
          run schedule' (<[i := t']> ts) w'
      | None => run schedule' ts w
      end
  end.

(** What [self._pending[tp]] holds at [off], without touching the map. *)
Definition entry (tp : TP) (off : Z) (p : pending_map)
  : option (list FutureMessage) :=
  p !! tp ≫= (λ inner, inner !! off).

(** ** Notions used to state the properties *)

(** The futures a task is still to publish. *)
Definition task_todo (t : task) : list FutureMessage :=
  match t with
  | TPublishing todo => todo
  | _ => []
  end.

Definition todo_futs (ts : list task) : list FutureMessage :=
  ts ≫= task_todo.

(** Every value of a dictionary, flattened by [g], in the order of
    [map_to_list]. *)
Definition flat `{Countable K} {V X} (g : V → list X) (m : gmap K V)
  : list X :=
  map_to_list m ≫= (λ kv, g (snd kv)).

(** Every future stored in the buffer. *)
Definition buf_futs (p : pending_map) : list FutureMessage :=
  flat (flat id) p.

(** Every future there is: stored, held by a running [commit], or handed
    to the producer. *)
Definition all_futs (ts : list task) (w : World) : list FutureMessage :=
  buf_futs (pending w) ++ todo_futs ts ++ sent w.

(** A call that has not begun to run. *)
Definition not_started (t : task) : Prop :=
  match t with
  | TPut _ _ _ | TCommit _ _ => True
  | _ => False
  end.

(** The task is a [put] attaching to offset [off] of [tp]. *)
Definition puts_at (tp : TP) (off : Z) (t : task) : Prop :=
  match t with
  | TPut tp' off' _ => tp' = tp ∧ off' = off
  | _ => False
  end.

(** Every future has an identity already given out, and none occurs
    twice. *)
Definition futs_ok (ts : list task) (w : World) : Prop :=
  NoDup (all_futs ts w)
  ∧ Forall (λ f, (fut_id f < next_fut w)%nat) (all_futs ts w).

(** The list comprehension of [commit] when a publish may raise:
    [publish fut] is the outcome of
    [await fut.message.channel.publish_message(fut, wait=False)].  The
    futures are published one after the other; the first exception ends
    the comprehension. *)
Fixpoint publish_each (publish : FutureMessage → result unit)
    (futs : list FutureMessage) (sent0 : list FutureMessage)
  : result unit * list FutureMessage :=
  match futs with
  | [] => (Ok tt, sent0)
  | fut :: rest =>
      match publish fut with
      | Ok _ => publish_each publish rest (sent0 ++ [fut])
      | Raise e => (Raise e, sent0)
      end
  end.

(** [Attachments.commit] with such a [publish]: the exception of a
    publish leaves [commit]. *)
Definition commit_io (publish : FutureMessage → result unit)
    (tp : TP) (off : Z) (w : World) : result unit * World :=
  let '(attached, p1) := _attachments_for tp off (pending w) in
  if truthy_list attached then
    let '(r, sent1) := publish_each publish (default [] attached) (sent w) in
    (r, {| pending := p1; sent := sent1; next_fut := next_fut w |})
  else
    (Ok tt, {| pending := p1; sent := sent w; next_fut := next_fut w |}).

(** One uninterrupted piece of a task when a publish may raise.  The
    exception of a publish ends the [commit]: the task is over, and the
    future that failed and those still to publish are given up; they
    are the third component. *)
Definition task_step_io (publish : FutureMessage → result unit)
    (t : task) (w : World) : task * World * list FutureMessage :=
  match t with
  | TPublishing (fut :: todo) =>
      match publish fut with
      | Ok _ =>
          (TPublishing todo,
           {| pending := pending w;
              sent := sent w ++ [fut];
              next_fut := next_fut w |},
           [])
      | Raise _ => (TDone, w, fut :: todo)
      end
  | _ => (task_step t w, [])
  end.

(** The event loop with such a [publish]; [lost] collects what failed
    commits gave up. *)
Fixpoint run_io (publish : FutureMessage → result unit) (schedule : list nat)
    (ts : list task) (w : World) (lost : list FutureMessage)
  : list task * World * list FutureMessage :=
  match schedule with
  | [] => (ts, w, lost)
  | i :: schedule' =>
      match ts !! i with
      | Some t =>
          let '(t', w', given_up) := task_step_io publish t w in
          run_io publish schedule' (<[i := t']> ts) w' (lost ++ given_up)
      | None => run_io publish schedule' ts w lost
      end
  end.

(** [put] called once for each payload of [ms], in order, for the same
    source message. *)
Definition put_all (tp : TP) (off : Z) (ms : list PendingMessage) (w : World)
  : World :=
  foldl (λ w m, snd (put tp off m w)) w ms.

End Attached.

(* ===================================================================== *)
(** * [faust/topics.py]: class [Topic] *)
(* ===================================================================== *)

Module Topics.

(** The two settings of the application a [Topic] reads. *)
Record App : Type := {
  default_partitions : Z;
  replication_factor : Z;
}.

(** A compiled regular expression, [re.compile(src)]. *)
Record Pattern : Type := { pattern_src : string }.

(** The [pattern] argument, [Union[str, Pattern]]. *)
Inductive pattern_arg : Type :=
| PatStr (s : string)
| PatCompiled (p : Pattern).

Record Topic : Type := {
  app : App;
  topics : option (list string);
  _pattern : option Pattern;
  key_type : option string;
  value_type : option string;
  is_iterator : bool;
  _partitions : Z;
  retention : option Z;
  compacting : option bool;
  deleting : option bool;
  _replicas : Z;
  config : gmap string string;
}.

(** Truth value of a [str]. *)
Definition truthy_str (s : string) : bool :=
  match s with
  | EmptyString => false
  | _ => true
  end.

(** Truth value of the [pattern] argument: [None] and [''] are false, a
    compiled pattern is an object without [__bool__] or [__len__]. *)
Definition truthy_pattern_arg (p : option pattern_arg) : bool :=
  match p with
  | None => false
  | Some (PatStr s) => truthy_str s
  | Some (PatCompiled _) => true
  end.

(** Truth value of [self.topics], an optional sequence. *)
Definition truthy_topics (t : option (list string)) : bool :=
  match t with
  | Some (_ :: _) => true
  | _ => false
  end.

(** Truth value of [self.pattern], an optional compiled pattern. *)
Definition truthy_pattern (p : option Pattern) : bool :=
  match p with
  | Some _ => true
  | None => false
  end.

(** The [pattern] setter; [self_topics] is [self.topics].  Returns the new
    [self._pattern].  [re.compile] is taken on a well-formed expression. *)
Definition set_pattern (self_topics : option (list string))
    (pattern : option pattern_arg) : result (option Pattern) :=
  if truthy_pattern_arg pattern && truthy_topics self_topics then
    Raise (TypeError "Cannot specify both topics and pattern")
  else
    match pattern with
    | Some (PatStr s) => Ok (Some {| pattern_src := s |})
    | Some (PatCompiled p) => Ok (Some p)
    | None => Ok None
    end.

(** The [partitions] setter.  Returns the new [self._partitions]. *)
Definition set_partitions (a : App) (partitions : option Z) : result Z :=
  let partitions :=
    match partitions with
    | None => default_partitions a
    | Some n => n
    end in
  if partitions =? 0 then
    Raise (ValueError "Topic cannot have 0 (zero partitions)")
  else Ok partitions.

(** The [replicas] setter.  Returns the new [self._replicas]. *)
Definition set_replicas (a : App) (replicas : option Z) : Z :=
  match replicas with
  | None => replication_factor a
  | Some n => n
  end.

(** Keyword arguments of [Topic.__init__]. *)
Record TopicArgs : Type := {
  a_topics : option (list string);
  a_pattern : option pattern_arg;
  a_key_type : option string;
  a_value_type : option string;
  a_is_iterator : bool;
  a_partitions : option Z;
  a_retention : option Z;
  a_compacting : option bool;
  a_deleting : option bool;
  a_replicas : option Z;
  a_acks : bool;
  a_config : option (gmap string string);
}.

(** The defaults of [Topic.__init__]. *)
Definition default_args : TopicArgs :=
  {| a_topics := None; a_pattern := None; a_key_type := None;
     a_value_type := None; a_is_iterator := false; a_partitions := None;
     a_retention := None; a_compacting := None; a_deleting := None;
     a_replicas := None; a_acks := true; a_config := None |}.

(** [config or {}]: [None] and the empty mapping both give [{}]. *)
Definition config_or_empty (c : option (gmap string string))
  : gmap string string :=
  default ∅ c.

(** Modelled from the spec: [Channel.__init__] ([faust/channels.py] is not
    among the sources) keeps the key model, the value model and the
    iterator flag it is given; the spec lists them as attributes of a
    Topic.

    [Topic.__init__]: the assignments in source order; the first setter
    that raises ends the construction. *)
Definition Topic_init (a : App) (args : TopicArgs) : result Topic :=
  let self_topics := a_topics args in
  match set_pattern self_topics (a_pattern args) with
  | Raise e => Raise e
  | Ok pat =>
      match set_partitions a (a_partitions args) with
      | Raise e => Raise e
      | Ok parts =>
          Ok {| app := a;
                topics := self_topics;
                _pattern := pat;
                key_type := a_key_type args;
                value_type := a_value_type args;
                is_iterator := a_is_iterator args;
                _partitions := parts;
                retention := a_retention args;
                compacting := a_compacting args;
                deleting := a_deleting args;
                _replicas := set_replicas a (a_replicas args);
                config := config_or_empty (a_config args) |}
      end
  end.

(** Keyword arguments of [Topic.derive]. *)
Record DeriveArgs : Type := {
  d_topics : option (list string);
  d_key_type : option string;
  d_value_type : option string;
  d_partitions : option Z;
  d_retention : option Z;
  d_compacting : option bool;
  d_deleting : option bool;
  d_config : option (gmap string string);
  d_prefix : string;
  d_suffix : string;
}.

(** [derive()] with every argument left at its default. *)
Definition no_overrides : DeriveArgs :=
  {| d_topics := None; d_key_type := None; d_value_type := None;
     d_partitions := None; d_retention := None; d_compacting := None;
     d_deleting := None; d_config := None;
     d_prefix := ""; d_suffix := "" |}.

(** [x if arg is None else arg]. *)
Definition override {A} (own : A) (arg : option A) : A :=
  match arg with
  | None => own
  | Some v => v
  end.

(** The same for an attribute that is itself optional. *)
Definition override_opt {A} (own : option A) (arg : option A) : option A :=
  match arg with
  | None => own
  | Some v => Some v
  end.

(** [Topic.derive].  In the source the statement that rewrites [topics]
    with the prefix and the suffix is indented under [if self.pattern:],
    after the [raise]: it is never reached, so [topics] goes to the
    constructor as it is.  [replicas], [is_iterator] and [acks] are not
    passed on: the constructor uses its defaults for them. *)
Definition derive (self : Topic) (d : DeriveArgs) : result Topic :=
  let topics1 := override_opt (topics self) (d_topics d) in
  if (truthy_str (d_suffix d) || truthy_str (d_prefix d))
       && truthy_pattern (_pattern self)
  then Raise (ValueError "Cannot add prefix/suffix to Topic with pattern")
  else
    Topic_init (app self)
      {| a_topics := topics1;
         a_pattern := PatCompiled <$> _pattern self;
         a_key_type := override_opt (key_type self) (d_key_type d);
         a_value_type := override_opt (value_type self) (d_value_type d);
         a_is_iterator := false;
         a_partitions := Some (override (_partitions self) (d_partitions d));
         a_retention := override_opt (retention self) (d_retention d);
         a_compacting := override_opt (compacting self) (d_compacting d);
         a_deleting := override_opt (deleting self) (d_deleting d);
         a_replicas := None;
         a_acks := true;
         a_config := Some (override (config self) (d_config d)) |}.

(** What the derived topic's names would be had the prefix and the suffix
    been applied: [f'{prefix}{topic}{suffix}'] for each name. *)
Definition wrap_names (prefix suffix : string) (names : list string)
  : list string :=
  (λ topic, prefix +:+ topic +:+ suffix) <$> names.

End Topics.

(* ===================================================================== *)
(** * [faust/topics.py]: the other methods of [Topic] *)
(* ===================================================================== *)

Module TopicOps.
Import Topics.

(** [Topic._clone_args]: [{**super()._clone_args(), **{...}}].  [base]
    stands for [super()._clone_args()] ([faust/channels.py] is not among
    the sources); the eight entries of [Topic] override it. *)
Definition _clone_args (base : TopicArgs) (self : Topic) : TopicArgs :=
  {| a_topics := topics self;
     a_pattern := PatCompiled <$> _pattern self;
     a_key_type := a_key_type base;
     a_value_type := a_value_type base;
     a_is_iterator := a_is_iterator base;
     a_partitions := Some (_partitions self);
     a_retention := retention self;
     a_compacting := compacting self;
     a_deleting := deleting self;
     a_replicas := Some (_replicas self);
     a_acks := a_acks base;
     a_config := Some (config self) |}.

(** Why [self.topics[0]] can fail. *)
Inductive name_error : Type :=
| TopicsIsNone   (** [TypeError]: [None] is not subscriptable *)
| TopicsIsEmpty. (** [IndexError]: list index out of range *)

(** [Topic.get_topic_name]: [self.topics[0]]. *)
Definition get_topic_name (self : Topic) : name_error + string :=
  match topics self with
  | None => inl TopicsIsNone
  | Some [] => inl TopicsIsEmpty
  | Some (n :: _) => inr n
  end.

(** What [message.channel] can be. *)
Inductive channel_ref : Type :=
| ChanStr (s : string)
| ChanTopic (t : Topic)
| ChanOther.

(** The [PendingMessage] of a future, already serialized. *)
Record PendingMessage : Type := {
  channel : channel_ref;
  key : option string;
  value : option string;
  partition : option Z;
}.

(** Calls of [publish_message] and [declare] on the application, its
    producer and its sensors, in order. *)
Inductive call : Type :=
| MaybeStartProducer
| OnSendInitiated (topic : string) (keysize valsize : nat)
| Send (topic : string) (k v : option string) (part : option Z)
| SendAndWait (topic : string) (k v : option string) (part : option Z)
| OnSendCompleted
| FinalizeMessage
| CreateTopic (topic : string) (partitions replication : Z)
    (config : gmap string string).

(** [len(x) if x else 0]. *)
Definition size_of (x : option string) : nat :=
  match x with
  | Some s => if truthy_str s then String.length s else 0%nat
  | None => 0%nat
  end.

(** The destination of [publish_message]. *)
Definition destination (self : Topic) (message : PendingMessage)
  : name_error + string :=
  match channel message with
  | ChanStr s => inr s
  | ChanTopic t => get_topic_name t
  | ChanOther => get_topic_name self
  end.

(** [Topic.publish_message], with a producer that does not fail.  The
    value returned is whether the future comes back finalized. *)
Definition publish_message (self : Topic) (message : PendingMessage)
    (wait : bool) : (name_error + bool) * list call :=
  match destination self message with
  | inl e => (inl e, [])
  | inr topic =>
      let start :=
        [MaybeStartProducer;
         OnSendInitiated topic (size_of (key message)) (size_of (value message))]
      in
      if wait then
        (inr true,
         start ++ [SendAndWait topic (key message) (value message)
                     (partition message);
                   OnSendCompleted; FinalizeMessage])
      else
        (inr false,
         start ++ [Send topic (key message) (value message)
                     (partition message)])
  end.

(** The loop of [declare]; [create_topic name] is [None] when the
    producer creates the topic, or the exception it raises. *)
Fixpoint create_each (create_topic : string → option exn) (self : Topic)
    (names : list string) : result unit * list call :=
  match names with
  | [] => (Ok tt, [])
  | n :: rest =>
      let c := CreateTopic n (_partitions self) (_replicas self) (config self) in
      match create_topic n with
      | Some e => (Raise e, [c])
      | None =>
          let '(r, cs) := create_each create_topic self rest in
          (r, c :: cs)
      end
  end.

(** [Topic.declare]: [for topic in self.topics] raises [TypeError] when
    [self.topics] is [None]. *)
Definition declare (create_topic : string → option exn) (self : Topic)
  : result unit * list call :=
  match topics self with
  | None =>
      (Raise (TypeError "'NoneType' object is not iterable"),
       [MaybeStartProducer])
  | Some names =>
      let '(r, cs) := create_each create_topic self names in
      (r, MaybeStartProducer :: cs)
  end.

(** [Topic.maybe_declare]; [_declared] is the attribute before the call,
    the boolean returned is the attribute after it. *)
Definition maybe_declare (create_topic : string → option exn) (self : Topic)
    (_declared : bool) : result unit * bool * list call :=
  if negb _declared then
    let '(r, cs) := declare create_topic self in (r, true, cs)
  else (Ok tt, _declared, []).

(** [n] calls of [maybe_declare], one after the other: the attribute at
    the end, the results in order, and all the calls made. *)
Fixpoint maybe_declare_times (create_topic : string → option exn)
    (self : Topic) (n : nat) (_declared : bool)
  : bool * list (result unit) * list call :=
  match n with
  | O => (_declared, [], [])
  | S n' =>
      let '(r, d1, cs) := maybe_declare create_topic self _declared in
      let '(d2, rs, cs') := maybe_declare_times create_topic self n' d1 in
      (d2, r :: rs, cs ++ cs')
  end.

End TopicOps.

(* ===================================================================== *)
(** * [faust/topics.py]: class [TopicManager], the message handler *)
(* ===================================================================== *)

Module TopicMan.

(** A channel is an object; it is known here by its identity. *)
Abbreviation channel := nat.

(** An inbound message, with the fields the handler reads, and its
    reference count. *)
Record Message : Type := {
  msg_topic : string;
  msg_partition : Z;
  msg_offset : Z;
  refcount : Z;
}.

(** What the handler does to its collaborators, in order. *)
Inductive event : Type :=
| EvIncrefBulk (n : nat)
| EvEnqueue (c : channel).

(** The part of the manager the handler touches: [_topicmap], a
    [defaultdict(set)], and the [_pending_tasks] queue, which holds one
    [channel.deliver(message)] per entry. *)
Record TopicManager : Type := {
  _topicmap : gmap string (gset channel);
  _pending_tasks : list (channel * TP * Z);
}.

(** [self._topicmap.__getitem__]: a miss stores and returns an empty set. *)
Definition get_channels_for_topic (topic : string) (tm : gmap string (gset channel))
  : gset channel * gmap string (gset channel) :=
  match tm !! topic with
  | Some s => (s, tm)
  | None => (∅, <[topic := ∅]> tm)
  end.

(** Modelled from the spec: [Message.incref_bulk] ([faust/types/tuples.py]
    is not among the sources) bulk-increments the message reference count
    by the channel count. *)
Definition incref_bulk (channels : list channel) (m : Message) : Message :=
  {| msg_topic := msg_topic m;
     msg_partition := msg_partition m;
     msg_offset := msg_offset m;
     refcount := refcount m + Z.of_nat (length channels) |}.

(** [self._pending_tasks.put(channel.deliver(message))]; the queue is
    unbounded, so the put never waits. *)
Definition add_pending_task (m : Message) (q : list (channel * TP * Z))
    (c : channel) : list (channel * TP * Z) :=
  q ++ [(c, (msg_topic m, msg_partition m), msg_offset m)].

(** The outcome of one [on_message] call. *)
Record Outcome : Type := {
  out_result : result unit;
  out_message : Message;
  out_manager : TopicManager;
  out_events : list event;
}.

(** The closure [on_message] built by [_compile_message_handler].

    The list comprehension only creates the [put] coroutines;
    [asyncio.wait] runs them, in an order of its own: [wait_order] maps
    the list it is given to the order in which the puts run.  On an empty
    list [asyncio.wait] raises [ValueError]. *)
Definition on_message (wait_order : list channel → list channel)
    (message : Message) (tm : TopicManager) : Outcome :=
  let '(chans, topicmap1) := get_channels_for_topic (msg_topic message) (_topicmap tm) in
  let channels := elements chans in
  let message1 := incref_bulk channels message in
  match channels with
  | [] =>
      {| out_result := Raise (ValueError "Set of coroutines/Futures is empty.");
         out_message := message1;
         out_manager := {| _topicmap := topicmap1;
                           _pending_tasks := _pending_tasks tm |};
         out_events := [EvIncrefBulk (length channels)] |}
  | _ =>
      let ran := wait_order channels in
      {| out_result := Ok tt;
         out_message := message1;
         out_manager := {| _topicmap := topicmap1;
                           _pending_tasks :=
                             foldl (add_pending_task message1) (_pending_tasks tm) ran |};
         out_events := EvIncrefBulk (length channels) :: (EvEnqueue <$> ran) |}
  end.

(** [TopicManager.on_partitions_revoked]: its body is [...]. *)
Definition on_partitions_revoked (revoked : list TP) (tm : TopicManager)
  : TopicManager := tm.

End TopicMan.

(* ===================================================================== *)
(** * [faust/topics.py]: class [TopicManager], the registry *)
(* ===================================================================== *)

Module Registry.
Import TopicMan.

(** Calls on the beacon of the service. *)
Inductive beacon_call : Type :=
| BeaconAdd (c : channel)
| BeaconDiscard (c : channel).

(** The manager as [add], [discard] and [_update_topicmap] see it.
    [_topics] is a set of topic objects: each is known by its identity
    and carries the value of its [topics] attribute. *)
Record TopicManager : Type := {
  _topics : gmap channel (option (list string));
  _topicmap : gmap string (gset channel);
  _pending_tasks : list (channel * TP * Z);
  (** [None], or the event and whether it is set *)
  _subscription_changed : option bool;
  (** [None], or the future and whether it is done *)
  _subscription_done : option bool;
  beacon : list beacon_call;
}.

(** [TopicManager.__init__]. *)
Definition init : TopicManager :=
  {| _topics := ∅; _topicmap := ∅; _pending_tasks := [];
     _subscription_changed := None; _subscription_done := None;
     beacon := [] |}.

(** [TopicManager._flag_changes]. *)
Definition _flag_changes (m : TopicManager) : TopicManager :=
  {| _topics := _topics m; _topicmap := _topicmap m;
     _pending_tasks := _pending_tasks m;
     _subscription_changed :=
       match _subscription_changed m with
       | Some _ => Some true
       | None => None
       end;
     _subscription_done :=
       match _subscription_done m with
       | Some d => Some d
       | None => Some false
       end;
     beacon := beacon m |}.

(** [TopicManager.__contains__]. *)
Definition contains (c : channel) (m : TopicManager) : bool :=
  bool_decide (is_Some (_topics m !! c)).

(** [TopicManager.__len__]. *)
Definition len (m : TopicManager) : nat := size (_topics m).

(** [TopicManager.add]; [names] is [topic.topics]. *)
Definition add (c : channel) (names : option (list string)) (m : TopicManager)
  : TopicManager :=
  if contains c m then m
  else
    _flag_changes
      {| _topics := <[c := names]> (_topics m); _topicmap := _topicmap m;
         _pending_tasks := _pending_tasks m;
         _subscription_changed := _subscription_changed m;
         _subscription_done := _subscription_done m;
         beacon := beacon m ++ [BeaconAdd c] |}.

(** [TopicManager.discard]. *)
Definition discard (c : channel) (m : TopicManager) : TopicManager :=
  _flag_changes
    {| _topics := delete c (_topics m); _topicmap := _topicmap m;
       _pending_tasks := _pending_tasks m;
       _subscription_changed := _subscription_changed m;
       _subscription_done := _subscription_done m;
       beacon := beacon m ++ [BeaconDiscard c] |}.

(** [self._topicmap[topic].add(channel)] on the [defaultdict(set)]. *)
Definition add_channel (c : channel) (tm : gmap string (gset channel))
    (topic : string) : gmap string (gset channel) :=
  <[topic := {[c]} ∪ default ∅ (tm !! topic)]> tm.

(** The loops of [_update_topicmap] over the registered topics;
    [for topic in channel.topics] raises [TypeError] when
    [channel.topics] is [None]. *)
Fixpoint fill (chans : list (channel * option (list string)))
    (tm : gmap string (gset channel))
  : result unit * gmap string (gset channel) :=
  match chans with
  | [] => (Ok tt, tm)
  | (c, None) :: _ =>
      (Raise (TypeError "'NoneType' object is not iterable"), tm)
  | (c, Some names) :: rest => fill rest (foldl (add_channel c) tm names)
  end.

(** [TopicManager._update_topicmap]: clear the map, then fill it. *)
Definition _update_topicmap (m : TopicManager) : result unit * TopicManager :=
  let '(r, tm) := fill (map_to_list (_topics m)) ∅ in
  (r, {| _topics := _topics m; _topicmap := tm;
         _pending_tasks := _pending_tasks m;
         _subscription_changed := _subscription_changed m;
         _subscription_done := _subscription_done m;
         beacon := beacon m |}).

(** The part of the manager that the message handler uses. *)
Definition handler_view (m : TopicManager) : TopicMan.TopicManager :=
  {| TopicMan._topicmap := _topicmap m;
     TopicMan._pending_tasks := _pending_tasks m |}.

(** The channels registered with [name] among their topics. *)
Definition subscribed (m : TopicManager) (name : string) (c : channel) : Prop :=
  ∃ names, _topics m !! c = Some (Some names) ∧ name ∈ names.

(** No name is kept with an empty set of channels. *)
Definition no_empty_set (tm : gmap string (gset channel)) : Prop :=
  ∀ name, tm !! name ≠ Some ∅.

End Registry.

(* ===================================================================== *)
(** * [faust/tables/manager.py]: class [TableManager] *)
(* ===================================================================== *)

Module Manager.

(** What the manager uses of a table.  Tables are dictionary keys: they
    are compared by identity, [table_id]. *)
Record Table : Type := {
  table_id : nat;
  name : option string;
  (** [table.changelog_topic.get_topic_name()] *)
  changelog_topic_name : string;
  (** [table._changelog_topic_name()] *)
  _changelog_topic_name : string;
  persisted_offset : TP → option Z;
}.

(** A [ChangelogReader] or a [StandbyReader], as constructed. *)
Record Reader : Type := {
  r_standby : bool;
  r_table : Table;
  r_channel : string;
  r_tps : list TP;
  r_tp_offsets : gmap TP Z;
}.

(** What the manager asks of its collaborators during one call: the
    assignor, the consumer, the readers ([faust/tables/changelogs.py] is
    not among the sources) and the [_stopped] event of [mode.Service]. *)
Record Env : Type := {
  assigned_actives : list TP;
  assigned_standbys : list TP;
  consumer_assignment : list TP;
  (** [reader.offsets.items()] when the manager folds them *)
  reader_offsets : Reader → list (TP * Z);
  (** [reader.recovered()] *)
  reader_recovered : Reader → bool;
  (** [self._stopped.is_set()] when [_recover] tests it *)
  stopped_is_set : bool;
}.

(** Calls on collaborators, in the order the manager makes them. *)
Inductive event : Type :=
| EvLog (msg : string)
| EvPausePartitions (tps : list TP)
| EvResumePartitions (tps : list TP)
| EvPerformSeek
| EvTableAssigned (table : nat) (assigned : list TP)
| EvTableRevoked (table : nat) (revoked : list TP)
| EvRecoverCallbacks (table : nat)
| EvTableMaybeStart (table : nat)
| EvTableStop (table : nat)
| EvReaderStart (r : Reader)
| EvWaitDoneReading (r : Reader)
| EvReaderStop (r : Reader).

Record TableManager : Type := {
  (** [self.data]: name to table, in insertion order *)
  data : list (string * Table);
  (** table identity to the channel iterating its changelog topic *)
  _channels : gmap nat string;
  _changelogs : gmap string Table;
  _table_offsets : gmap TP Z;
  (** table to standby reader, in insertion order *)
  _standbys : list (Table * Reader);
  _revivers : option (list Reader);
  (** [None], or the recovery future with its [done()] *)
  _ongoing_recovery : option bool;
  _recovery_started : bool;
  recovery_completed : bool;
}.

(** [TableManager.__init__]. *)
Definition init : TableManager :=
  {| data := []; _channels := ∅; _changelogs := ∅; _table_offsets := ∅;
     _standbys := []; _revivers := None; _ongoing_recovery := None;
     _recovery_started := false; recovery_completed := false |}.

Definition set_data v (m : TableManager) : TableManager :=
  {| data := v; _channels := _channels m; _changelogs := _changelogs m;
     _table_offsets := _table_offsets m; _standbys := _standbys m;
     _revivers := _revivers m; _ongoing_recovery := _ongoing_recovery m;
     _recovery_started := _recovery_started m;
     recovery_completed := recovery_completed m |}.

Definition set_channels v (m : TableManager) : TableManager :=
  {| data := data m; _channels := v; _changelogs := _changelogs m;
     _table_offsets := _table_offsets m; _standbys := _standbys m;
     _revivers := _revivers m; _ongoing_recovery := _ongoing_recovery m;
     _recovery_started := _recovery_started m;
     recovery_completed := recovery_completed m |}.

Definition set_changelogs v (m : TableManager) : TableManager :=
  {| data := data m; _channels := _channels m; _changelogs := v;
     _table_offsets := _table_offsets m; _standbys := _standbys m;
     _revivers := _revivers m; _ongoing_recovery := _ongoing_recovery m;
     _recovery_started := _recovery_started m;
     recovery_completed := recovery_completed m |}.

Definition set_table_offsets v (m : TableManager) : TableManager :=
  {| data := data m; _channels := _channels m; _changelogs := _changelogs m;
     _table_offsets := v; _standbys := _standbys m;
     _revivers := _revivers m; _ongoing_recovery := _ongoing_recovery m;
     _recovery_started := _recovery_started m;
     recovery_completed := recovery_completed m |}.

Definition set_standbys v (m : TableManager) : TableManager :=
  {| data := data m; _channels := _channels m; _changelogs := _changelogs m;
     _table_offsets := _table_offsets m; _standbys := v;
     _revivers := _revivers m; _ongoing_recovery := _ongoing_recovery m;
     _recovery_started := _recovery_started m;
     recovery_completed := recovery_completed m |}.

Definition set_revivers v (m : TableManager) : TableManager :=
  {| data := data m; _channels := _channels m; _changelogs := _changelogs m;
     _table_offsets := _table_offsets m; _standbys := _standbys m;
     _revivers := v; _ongoing_recovery := _ongoing_recovery m;
     _recovery_started := _recovery_started m;
     recovery_completed := recovery_completed m |}.

Definition set_ongoing_recovery v (m : TableManager) : TableManager :=
  {| data := data m; _channels := _channels m; _changelogs := _changelogs m;
     _table_offsets := _table_offsets m; _standbys := _standbys m;
     _revivers := _revivers m; _ongoing_recovery := v;
     _recovery_started := _recovery_started m;
     recovery_completed := recovery_completed m |}.

Definition set_recovery_started v (m : TableManager) : TableManager :=
  {| data := data m; _channels := _channels m; _changelogs := _changelogs m;
     _table_offsets := _table_offsets m; _standbys := _standbys m;
     _revivers := _revivers m; _ongoing_recovery := _ongoing_recovery m;
     _recovery_started := v;
     recovery_completed := recovery_completed m |}.

Definition set_recovery_completed v (m : TableManager) : TableManager :=
  {| data := data m; _channels := _channels m; _changelogs := _changelogs m;
     _table_offsets := _table_offsets m; _standbys := _standbys m;
     _revivers := _revivers m; _ongoing_recovery := _ongoing_recovery m;
     _recovery_started := _recovery_started m;
     recovery_completed := v |}.

(** ** The manager's methods as state transformers

    A method runs on the manager and on the list of calls made so far; it
    returns a value or raises, and what it changed before raising stays
    changed. *)
Record Sys : Type := {
  mgr : TableManager;
  trace : list event;
}.

Definition M (A : Type) : Type := Sys → result A * Sys.

Definition ret {A} (a : A) : M A := λ s, (Ok a, s).

Definition raise {A} (e : exn) : M A := λ s, (Raise e, s).

Definition bind {A B} (m : M A) (k : A → M B) : M B :=
  λ s, match m s with
       | (Ok a, s1) => k a s1
       | (Raise e, s1) => (Raise e, s1)
       end.

Definition get : M TableManager := λ s, (Ok (mgr s), s).

Definition modify (f : TableManager → TableManager) : M unit :=
  λ s, (Ok tt, {| mgr := f (mgr s); trace := trace s |}).

Definition emit (e : event) : M unit :=
  λ s, (Ok tt, {| mgr := mgr s; trace := trace s ++ [e] |}).

Declare Scope mgr_scope.
Delimit Scope mgr_scope with mgr.
Notation "x <- m ;; k" := (bind m (λ x, k))
  (at level 100, m at next level, right associativity) : mgr_scope.
Notation "m ;;; k" := (bind m (λ _, k))
  (at level 100, right associativity) : mgr_scope.
Open Scope mgr_scope.

(** [for x in l: body(x)]. *)
Fixpoint for_each {A} (l : list A) (body : A → M unit) : M unit :=
  match l with
  | [] => ret tt
  | x :: l' => body x ;;; for_each l' body
  end.

(** [[f(x) for x in l]]. *)
Fixpoint map_m {A B} (l : list A) (f : A → M B) : M (list B) :=
  match l with
  | [] => ret []
  | x :: l' => y <- f x ;; ys <- map_m l' f ;; ret (y :: ys)
  end.

(** [self.values()]. *)
Definition values (m : TableManager) : list Table := snd <$> data m.

(** [name in self]. *)
Definition contains (n : string) (m : TableManager) : bool :=
  existsb (λ kv, String.eqb (fst kv) n) (data m).

(** [self[name]]. *)
Definition getitem (n : string) (m : TableManager) : option Table :=
  snd <$> List.find (λ kv, String.eqb (fst kv) n) (data m).

(** [repr(name)] of a name that has no quote, no backslash and no
    character that [repr] escapes: the name between single quotes. *)
Definition repr_plain (n : string) : string := "'" +:+ n +:+ "'".

(** [TableManager.add]. *)
Definition add (table : Table) : M Table :=
  m <- get ;;
  if _recovery_started m then
    raise (RuntimeError "Too late to add tables at this point")
  else
    match name table with
    | None => raise AssertionError
    | Some n =>
        if contains n m then
          raise (ValueError
                   ("Table with name " +:+ repr_plain n +:+ " already exists"))
        else
          modify (set_data (data m ++ [(n, table)])) ;;;
          ret table
    end.

(** [self._table_offsets.get(tp, -1)]. *)
Definition offset_get (offs : gmap TP Z) (tp : TP) : Z :=
  default (-1) (offs !! tp).

(** One turn of the loop of [_sync_persisted_offsets]. *)
Definition sync_persisted_step (table : Table) (offs : gmap TP Z) (tp : TP)
  : gmap TP Z :=
  match persisted_offset table tp with
  | Some persisted =>
      let curr_offset := offset_get offs tp in
      <[tp := Z.max curr_offset persisted]> offs
  | None => offs
  end.

(** [TableManager._sync_persisted_offsets] on [self._table_offsets]. *)
Definition _sync_persisted_offsets (table : Table) (tps : list TP)
    (offs : gmap TP Z) : gmap TP Z :=
  foldl (sync_persisted_step table) offs tps.

(** One turn of the loop of [_sync_offsets]. *)
Definition sync_offsets_step (offs : gmap TP Z) (item : TP * Z) : gmap TP Z :=
  let '(tp, offset) := item in
  if 0 <=? offset then
    let table_offset := offset_get offs tp in
    <[tp := Z.max table_offset offset]> offs
  else offs.

(** [TableManager._sync_offsets] on [self._table_offsets], given
    [reader.offsets.items()]. *)
Definition _sync_offsets (items : list (TP * Z)) (offs : gmap TP Z)
  : gmap TP Z :=
  foldl sync_offsets_step offs items.

(** [TableManager._is_changelog_tp]: [tp.topic in self.changelog_topics],
    the keys of [_changelogs]. *)
Definition _is_changelog_tp (m : TableManager) (tp : TP) : bool :=
  match _changelogs m !! fst tp with
  | Some _ => true
  | None => false
  end.

(** [TableManager._update_channels]. *)
Definition _update_channels (env : Env) : M unit :=
  m <- get ;;
  for_each (values m) (λ table,
    m1 <- get ;;
    match _channels m1 !! table_id table with
    | Some _ => ret tt
    | None =>
        modify (set_channels
                  (<[table_id table := changelog_topic_name table]> (_channels m1)))
    end) ;;;
  m2 <- get ;;
  modify (set_changelogs
            (foldl (λ acc table, <[changelog_topic_name table := table]> acc)
                   (_changelogs m2) (values m2))) ;;;
  m3 <- get ;;
  emit (EvPausePartitions
          (List.filter (_is_changelog_tp m3) (consumer_assignment env))).

(** [{tp: offsets[tp] for tp in table_tps if tp in offsets}]. *)
Definition tp_offsets_of (offs : gmap TP Z) (table_tps : list TP) : gmap TP Z :=
  foldl (λ acc tp,
           match offs !! tp with
           | Some o => <[tp := o]> acc
           | None => acc
           end) ∅ table_tps.

(** [d[table] = reader] on a dictionary kept in insertion order. *)
Fixpoint dict_set (table : Table) (r : Reader) (d : list (Table * Reader))
  : list (Table * Reader) :=
  match d with
  | [] => [(table, r)]
  | (t, r') :: d' =>
      if Nat.eqb (table_id t) (table_id table) then (t, r) :: d'
      else (t, r') :: dict_set table r d'
  end.

(** [table_tps[table].add(tp)] on the [defaultdict(set)] of
    [_group_table_tps]. *)
Fixpoint group_add (table : Table) (tp : TP) (g : list (Table * list TP))
  : list (Table * list TP) :=
  match g with
  | [] => [(table, [tp])]
  | (t, l) :: g' =>
      if Nat.eqb (table_id t) (table_id table) then
        (t, if bool_decide (tp ∈ l) then l else l ++ [tp]) :: g'
      else (t, l) :: group_add table tp g'
  end.

(** [TableManager._group_table_tps]. *)
Definition _group_table_tps (m : TableManager) (tps : list TP)
  : list (Table * list TP) :=
  foldl (λ g tp,
           match _changelogs m !! fst tp with
           | Some table => group_add table tp g
           | None => g
           end) [] tps.

(** [TableManager._create_reviver]. *)
Definition _create_reviver (table : Table) (tps : list TP) : M Reader :=
  let table_tps :=
    List.filter (λ tp, String.eqb (fst tp) (_changelog_topic_name table)) tps in
  modify (λ m0, set_table_offsets
                  (_sync_persisted_offsets table table_tps (_table_offsets m0))
                  m0) ;;;
  m <- get ;;
  let tp_offsets := tp_offsets_of (_table_offsets m) table_tps in
  match _channels m !! table_id table with
  | None => raise KeyError
  | Some channel =>
      ret {| r_standby := false; r_table := table; r_channel := channel;
             r_tps := table_tps; r_tp_offsets := tp_offsets |}
  end.

(** [self._sync_offsets(reader)] as a method. *)
Definition sync_reader (env : Env) (r : Reader) : M unit :=
  modify (λ m, set_table_offsets
                 (_sync_offsets (reader_offsets env r) (_table_offsets m)) m).

(** [TableManager._recover_changelogs]. *)
Definition _recover_changelogs (env : Env) (tps : list TP) : M bool :=
  m <- get ;;
  table_revivers <- map_m (values m) (λ table, _create_reviver table tps) ;;
  modify (set_revivers (Some table_revivers)) ;;;
  for_each table_revivers (λ r, emit (EvReaderStart r)) ;;;
  for_each table_revivers (λ r, emit (EvWaitDoneReading r)) ;;;
  for_each table_revivers (sync_reader env) ;;;
  for_each table_revivers (λ r, emit (EvReaderStop r)) ;;;
  ret (forallb (reader_recovered env) table_revivers).

(** The body of the loop of [_start_standbys]. *)
Definition start_standby (table : Table) (table_tps : list TP) : M unit :=
  modify (λ m0, set_table_offsets
                  (_sync_persisted_offsets table table_tps (_table_offsets m0))
                  m0) ;;;
  m <- get ;;
  let tp_offsets := tp_offsets_of (_table_offsets m) table_tps in
  match _channels m !! table_id table with
  | None => raise KeyError
  | Some channel =>
      let standby :=
        {| r_standby := true; r_table := table; r_channel := channel;
           r_tps := table_tps; r_tp_offsets := tp_offsets |} in
      modify (λ m1, set_standbys (dict_set table standby (_standbys m1)) m1) ;;;
      emit (EvReaderStart standby)
  end.

(** [TableManager._start_standbys]. *)
Definition _start_standbys (tps : list TP) : M unit :=
  m <- get ;;
  match _standbys m with
  | _ :: _ => raise AssertionError
  | [] =>
      for_each (_group_table_tps m tps)
        (λ item, start_standby (fst item) (snd item))
  end.

(** [TableManager._stop_standbys]. *)
Definition _stop_standbys (env : Env) : M unit :=
  m <- get ;;
  for_each (snd <$> _standbys m) (λ standby,
    emit (EvReaderStop standby) ;;;
    sync_reader env standby) ;;;
  modify (set_standbys []).

(** [TableManager._on_recovery_started]. *)
Definition _on_recovery_started (env : Env) : M unit :=
  modify (set_recovery_started true) ;;;
  _update_channels env.

(** [TableManager._on_recovery_completed]. *)
Definition _on_recovery_completed : M unit :=
  m <- get ;;
  for_each (values m) (λ table, emit (EvTableMaybeStart (table_id table))) ;;;
  modify (set_recovery_completed true).

(** [set(assigned_tps).issubset(assigned)]. *)
Definition issubset (xs ys : list TP) : bool :=
  forallb (λ tp, bool_decide (tp ∈ ys)) xs.

(** The first part of [_recover], up to and including
    [did_recover = await self._recover_changelogs(assigned_tps)]. *)
Definition recover_until_check (env : Env) (assigned : list TP) : M bool :=
  let assigned_tps := assigned_actives env in
  if negb (issubset assigned_tps assigned) then raise AssertionError
  else
    emit (EvLog "New assignments found") ;;;
    _on_recovery_started env ;;;
    m <- get ;;
    for_each (values m) (λ table, emit (EvTableAssigned (table_id table) assigned)) ;;;
    _recover_changelogs env assigned_tps.

(** [TableManager._recover]: the part above, then the test of
    [did_recover and not self._stopped.is_set()].  The recover callbacks
    are awaited together; they are listed in the order of
    [self.values()]. *)
Definition _recover (env : Env) (assigned : list TP) : M unit :=
  let standby_tps := assigned_standbys env in
  did_recover <- recover_until_check env assigned ;;
  (if did_recover && negb (stopped_is_set env) then
     emit (EvLog "Restore complete!") ;;;
     m1 <- get ;;
     for_each (values m1) (λ table, emit (EvRecoverCallbacks (table_id table))) ;;;
     emit EvPerformSeek ;;;
     _start_standbys standby_tps ;;;
     emit (EvLog "New assignments handled") ;;;
     _on_recovery_completed ;;;
     m2 <- get ;;
     emit (EvResumePartitions
             (List.filter (λ tp, negb (_is_changelog_tp m2 tp)) assigned))
   else
     emit (EvLog "Recovery interrupted")) ;;;
  modify (set_revivers None).

(** [TableManager._maybe_abort_ongoing_recovery].  A handle that is not
    done makes the code stop the revivers and then wait for the recovery
    task, re-raising a [TypeError] of that wait; the wait has no
    counterpart here, since a recovery task has run to its end when it
    was created (see [run_future] below).  What is stated about this
    method for a handle that is not done is limited accordingly. *)
Definition _maybe_abort_ongoing_recovery : M unit :=
  m <- get ;;
  match _ongoing_recovery m with
  | None => ret tt
  | Some done =>
      (if done then ret tt
       else
         match _revivers m with
         | Some (r :: rs) => for_each (r :: rs) (λ r, emit (EvReaderStop r))
         | _ => ret tt
         end) ;;;
      modify (set_ongoing_recovery None)
  end.

(** [TableManager.on_partitions_revoked]. *)
Definition on_partitions_revoked (env : Env) (revoked : list TP) : M unit :=
  _maybe_abort_ongoing_recovery ;;;
  _stop_standbys env ;;;
  m <- get ;;
  for_each (values m) (λ table, emit (EvTableRevoked (table_id table) revoked)).

(** The future made by [self.add_future(coro)], run to its end: an
    exception of the coroutine stays in the future. *)
Definition run_future (coro : M unit) : M unit :=
  λ s, (Ok tt, snd (coro s)).

(** [TableManager.on_partitions_assigned].  The recovery task is run to
    its end when it is created; a recovery cut short by a revocation or a
    stop shows in [env]: readers report [recovered() = False], or
    [_stopped] is set. *)
Definition on_partitions_assigned (env : Env) (assigned : list TP) : M unit :=
  m <- get ;;
  match _ongoing_recovery m, _revivers m with
  | None, None =>
      run_future (_recover env assigned) ;;;
      modify (set_ongoing_recovery (Some true))
  | _, _ => raise AssertionError
  end.

(** [TableManager.on_start], after its sleep. *)
Definition on_start (env : Env) : M unit := _update_channels env.

(** [TableManager.on_stop]. *)
Definition on_stop (env : Env) : M unit :=
  _maybe_abort_ongoing_recovery ;;;
  _stop_standbys env ;;;
  m <- get ;;
  for_each (values m) (λ table, emit (EvTableStop (table_id table))).

Close Scope mgr_scope.

(** ** Notions used to state the properties *)

(** [a] is pointwise below [b], each read as the manager reads it, with
    [get(tp, -1)]. *)
Definition offsets_le (a b : gmap TP Z) : Prop :=
  ∀ tp, offset_get a tp ≤ offset_get b tp.

(** The two statements that assign to [self._table_offsets], each inside
    a loop without [await]: a fold of a reader's offsets and a fold of a
    table's persisted offsets. *)
Inductive write : Type :=
| WSyncOffsets (items : list (TP * Z))
| WSyncPersisted (table : Table) (tps : list TP).

Definition apply_write (offs : gmap TP Z) (w : write) : gmap TP Z :=
  match w with
  | WSyncOffsets items => _sync_offsets items offs
  | WSyncPersisted table tps => _sync_persisted_offsets table tps offs
  end.

(** [self._table_offsets[tp]] on the [Counter]: a key that is not there
    reads as 0. *)
Definition counter_getitem (offs : gmap TP Z) (tp : TP) : Z :=
  default 0 (offs !! tp).

(** A fold whose persisted offsets are all real offsets, not negative. *)
Definition persisted_nonneg (w : write) : Prop :=
  match w with
  | WSyncOffsets _ => True
  | WSyncPersisted table _ =>
      ∀ tp o, persisted_offset table tp = Some o → 0 ≤ o
  end.

(** No offset read with [get(tp, -1)] is below the sentinel. *)
Definition above_sentinel (offs : gmap TP Z) : Prop :=
  ∀ tp, -1 ≤ offset_get offs tp.

(** Whatever state a method starts in, the state it ends in (returning
    or raising) is related to it by [R]. *)
Definition preserves (R : Sys → Sys → Prop) {A} (m : M A) : Prop :=
  ∀ s, R s (snd (m s)).

(** From [s] to [s'] no table offset went down. *)
Definition offsets_grow (s s' : Sys) : Prop :=
  offsets_le (_table_offsets (mgr s)) (_table_offsets (mgr s')).

(** A manager on which nothing has been called yet. *)
Definition fresh : Sys := {| mgr := init; trace := [] |}.

(** The calls the worker makes on the manager. *)
Inductive call : Type :=
| CallAdd (table : Table)
| CallStart (env : Env)
| CallAssigned (env : Env) (assigned : list TP)
| CallRevoked (env : Env) (revoked : list TP)
| CallStop (env : Env).

Definition run_call (s : Sys) (c : call) : Sys :=
  match c with
  | CallAdd table => snd (add table s)
  | CallStart env => snd (on_start env s)
  | CallAssigned env assigned => snd (on_partitions_assigned env assigned s)
  | CallRevoked env revoked => snd (on_partitions_revoked env revoked s)
  | CallStop env => snd (on_stop env s)
  end.

(** The calls a recovery makes only when it completes: starting a
    standby reader, running recover callbacks, starting the tables,
    seeking the consumer, resuming partitions. *)
Definition completes_recovery (e : event) : bool :=
  match e with
  | EvResumePartitions _ => true
  | EvRecoverCallbacks _ => true
  | EvTableMaybeStart _ => true
  | EvPerformSeek => true
  | EvReaderStart r => r_standby r
  | _ => false
  end.

(** From [s] to [s'] nothing was done that only a completed recovery
    does: the recovery-completed latch and the standby readers are as
    they were, and none of the calls made completes a recovery. *)
Definition no_completion (s s' : Sys) : Prop :=
  recovery_completed (mgr s') = recovery_completed (mgr s)
  ∧ _standbys (mgr s') = _standbys (mgr s)
  ∧ ∃ evs, trace s' = trace s ++ evs
           ∧ Forall (λ e, completes_recovery e = false) evs.

(** From [s] to [s'] no latch was cleared. *)
Definition latches_kept (s s' : Sys) : Prop :=
  (_recovery_started (mgr s) = true → _recovery_started (mgr s') = true)
  ∧ (recovery_completed (mgr s) = true → recovery_completed (mgr s') = true).

(** Several calls, one after the other. *)
Definition run_calls (s : Sys) (cs : list call) : Sys := foldl run_call s cs.

(** Every table in the changelog index has its channel. *)
Definition indexed_ready (m : TableManager) : Prop :=
  ∀ n t, _changelogs m !! n = Some t → is_Some (_channels m !! table_id t).

(** From [s] to [s'] the property [I] of the manager was not lost. *)
Definition kept (I : TableManager → Prop) (s s' : Sys) : Prop :=
  I (mgr s) → I (mgr s').



(** Every registered table has its channel. *)
Definition channels_ready (m : TableManager) : Prop :=
  ∀ t, t ∈ values m → is_Some (_channels m !! table_id t).

(** Partition [tp] is in the group of the table with identity [id]. *)
Definition grouped (g : list (Table * list TP)) (tp : TP) (id : nat) : Prop :=
  ∃ t l, (t, l) ∈ g ∧ table_id t = id ∧ tp ∈ l.

(** One turn of the first loop of [_update_channels], on [_channels]. *)
Definition acquire (ch : gmap nat string) (t : Table) : gmap nat string :=
  match ch !! table_id t with
  | Some _ => ch
  | None => <[table_id t := changelog_topic_name t]> ch
  end.

(** One entry of the [update] of [_changelogs] in [_update_channels]. *)
Definition index (acc : gmap string Table) (t : Table) : gmap string Table :=
  <[changelog_topic_name t := t]> acc.

(** From [s] to [s'] the list of revivers was not assigned. *)
Definition same_revivers (s s' : Sys) : Prop :=
  _revivers (mgr s') = _revivers (mgr s).

End Manager.

(* ===================================================================== *)
(** * The worker *)
(* ===================================================================== *)

Module Worker.

(** Modelled from the spec: the application object ([faust/app/base.py] is
    not among the sources).  "The worker owns exactly one attachment
    buffer, one table manager, one topic manager". *)
Record Worker : Type := {
  attachments : Attached.World;
  topics : TopicMan.TopicManager;
  tables : Manager.Sys;
}.

(** Modelled from the spec: what a revocation does to the attachment
    buffer.  [Attachments] has no method for it and nothing among the
    sources calls the buffer on a revocation; the spec says "(I3) on
    revocation of [tp], all still-pending attachments for that [tp] are
    dropped without publish".  The dictionary of every revoked partition
    is removed from the buffer; nothing is handed to the producer. *)
Definition drop_revoked (revoked : list TP) (w : Attached.World)
  : Attached.World :=
  {| Attached.pending := foldr delete (Attached.pending w) revoked;
     Attached.sent := Attached.sent w;
     Attached.next_fut := Attached.next_fut w |}.

(** Modelled from the spec: the worker's revocation callback.  The
    still-pending attachments of the revoked partitions are dropped and
    the revocation is forwarded to the [on_partitions_revoked] of the
    topic manager and of the table manager. *)
Definition on_partitions_revoked (env : Manager.Env) (revoked : list TP)
    (w : Worker) : Worker :=
  {| attachments := drop_revoked revoked (attachments w);
     topics := TopicMan.on_partitions_revoked revoked (topics w);
     tables := snd (Manager.on_partitions_revoked env revoked (tables w)) |}.

End Worker.

(* ===================================================================== *)
(** * Concrete inputs *)
(* ===================================================================== *)

Module Examples.

Definition app8 : Topics.App :=
  {| Topics.default_partitions := 8; Topics.replication_factor := 1 |}.

(** An application whose default partition count is 0. *)
Definition app0 : Topics.App :=
  {| Topics.default_partitions := 0; Topics.replication_factor := 1 |}.

(** [Topic(app, topics=names, pattern=pat, partitions=parts,
    replicas=repl)]. *)
Definition topic_args (names : option (list string))
    (pat : option Topics.pattern_arg) (parts repl : option Z)
  : Topics.TopicArgs :=
  {| Topics.a_topics := names; Topics.a_pattern := pat;
     Topics.a_key_type := None; Topics.a_value_type := None;
     Topics.a_is_iterator := false; Topics.a_partitions := parts;
     Topics.a_retention := None; Topics.a_compacting := None;
     Topics.a_deleting := None; Topics.a_replicas := repl;
     Topics.a_acks := true; Topics.a_config := None |}.

(** [derive(prefix=prefix, suffix=suffix)]. *)
Definition derive_affixes (prefix suffix : string) : Topics.DeriveArgs :=
  {| Topics.d_topics := None; Topics.d_key_type := None;
     Topics.d_value_type := None; Topics.d_partitions := None;
     Topics.d_retention := None; Topics.d_compacting := None;
     Topics.d_deleting := None; Topics.d_config := None;
     Topics.d_prefix := prefix; Topics.d_suffix := suffix |}.

(** [derive(topics=names)]. *)
Definition derive_names (names : list string) : Topics.DeriveArgs :=
  {| Topics.d_topics := Some names; Topics.d_key_type := None;
     Topics.d_value_type := None; Topics.d_partitions := None;
     Topics.d_retention := None; Topics.d_compacting := None;
     Topics.d_deleting := None; Topics.d_config := None;
     Topics.d_prefix := ""; Topics.d_suffix := "" |}.

(** The topic of scenario S3: [topics=["t1"]], [partitions=8]. *)
Definition topic_t1 : Topics.Topic :=
  {| Topics.app := app8; Topics.topics := Some ["t1"%string];
     Topics._pattern := None; Topics.key_type := None;
     Topics.value_type := None; Topics.is_iterator := false;
     Topics._partitions := 8; Topics.retention := None;
     Topics.compacting := None; Topics.deleting := None;
     Topics._replicas := 1; Topics.config := ∅ |}.

(** [Topic(app, topics=["t1"], replicas=3)] on an application whose
    replication factor is 1. *)
Definition topic_r3 : Topics.Topic :=
  {| Topics.app := app8; Topics.topics := Some ["t1"%string];
     Topics._pattern := None; Topics.key_type := None;
     Topics.value_type := None; Topics.is_iterator := false;
     Topics._partitions := 8; Topics.retention := None;
     Topics.compacting := None; Topics.deleting := None;
     Topics._replicas := 3; Topics.config := ∅ |}.

(** A topic that subscribes by pattern. *)
Definition topic_pat : Topics.Topic :=
  {| Topics.app := app8; Topics.topics := None;
     Topics._pattern := Some {| Topics.pattern_src := "^x$" |};
     Topics.key_type := None;
     Topics.value_type := None; Topics.is_iterator := false;
     Topics._partitions := 8; Topics.retention := None;
     Topics.compacting := None; Topics.deleting := None;
     Topics._replicas := 1; Topics.config := ∅ |}.

(** Partition 0 of topic ["A"] (scenario S1). *)
Definition tp_A0 : TP := ("A"%string, 0).

Definition pm (v : string) : Attached.PendingMessage :=
  {| Attached.pm_channel := "out"; Attached.pm_key := None;
     Attached.pm_value := Some v; Attached.pm_partition := None |}.

(** Two outputs attached to offset 5, one to offset 7, and two commits
    of offset 5 running side by side. *)
Definition tasks_S1 : list Attached.task :=
  [Attached.TPut tp_A0 5 (pm "a"); Attached.TPut tp_A0 5 (pm "a");
   Attached.TPut tp_A0 7 (pm "b");
   Attached.TCommit tp_A0 5; Attached.TCommit tp_A0 5].

(** The puts, then the two commits taking turns. *)
Definition schedule_S1 : list nat :=
  [0; 1; 2; 3; 4; 3; 4; 3; 4; 3; 4]%nat.


(** A publish that fails on the future with identity 1. *)
Definition publish_fails_on_1 (f : Attached.FutureMessage) : result unit :=
  if Nat.eqb (Attached.fut_id f) 1 then Raise (RuntimeError "send failed")
  else Ok tt.

(** Three outputs attached to offset 5 of [tp_A0]. *)
Definition world_3 : Attached.World :=
  Attached.put_all tp_A0 5 [pm "a"; pm "b"; pm "c"] Attached.init.

(** A message sent to the topic object [topic_t1]. *)
Definition message_t1 : TopicOps.PendingMessage :=
  {| TopicOps.channel := TopicOps.ChanTopic topic_t1;
     TopicOps.key := Some "k"%string; TopicOps.value := Some "val"%string;
     TopicOps.partition := None |}.

(** A producer that creates every topic. *)
Definition create_ok (n : string) : option exn := None.

(** Two topics on ["X"], one of them also on ["Y"], registered and the
    map rebuilt. *)
Definition registry_XY : Registry.TopicManager :=
  snd (Registry._update_topicmap
         (Registry.add 2 (Some ["X"%string; "Y"%string])
            (Registry.add 1 (Some ["X"%string]) Registry.init))).

(** The same registry with a pattern topic added. *)
Definition registry_pat : Registry.TopicManager :=
  Registry.add 3 None registry_XY.

(** A table named ["orders"] with nothing persisted. *)
Definition orders : Manager.Table :=
  {| Manager.table_id := 1%nat; Manager.name := Some "orders"%string;
     Manager.changelog_topic_name := "orders-changelog";
     Manager._changelog_topic_name := "orders-changelog";
     Manager.persisted_offset := λ _, None |}.

(** A table named ["orders"] whose store has persisted offset 100 for
    partition 0 of its changelog (scenario S4). *)
Definition tp_log0 : TP := ("orders-changelog"%string, 0).

Definition orders100 : Manager.Table :=
  {| Manager.table_id := 1%nat; Manager.name := Some "orders"%string;
     Manager.changelog_topic_name := "orders-changelog";
     Manager._changelog_topic_name := "orders-changelog";
     Manager.persisted_offset :=
       λ tp, if bool_decide (tp = tp_log0) then Some 100 else None |}.

(** The offsets after folding the persisted offset 100 and then a
    reader that reached 150. *)
Definition writes_S4 : list Manager.write :=
  [Manager.WSyncPersisted orders100 [tp_log0];
   Manager.WSyncOffsets [(tp_log0, 150)]].

(** The manager after [add(orders100)] and [on_start]. *)
Definition sys_orders : Manager.Sys :=
  {| Manager.mgr :=
       {| Manager.data := [("orders"%string, orders100)];
          Manager._channels := {[ 1%nat := "orders-changelog"%string ]};
          Manager._changelogs := {[ "orders-changelog"%string := orders100 ]};
          Manager._table_offsets := ∅;
          Manager._standbys := [];
          Manager._revivers := None;
          Manager._ongoing_recovery := None;
          Manager._recovery_started := false;
          Manager.recovery_completed := false |};
     Manager.trace := [] |}.

(** Partition 0 of the changelog is active here, partition 1 is a
    standby; ["clicks"] is an ordinary input topic. *)
Definition assigned_S4 : list TP :=
  [tp_log0; ("orders-changelog"%string, 1); ("clicks"%string, 0)].

(** A recovery in which the reader reaches offset 150 and reports
    recovered (scenario S4). *)
Definition env_S4 : Manager.Env :=
  {| Manager.assigned_actives := [tp_log0];
     Manager.assigned_standbys := [("orders-changelog"%string, 1)];
     Manager.consumer_assignment := assigned_S4;
     Manager.reader_offsets := λ _, [(tp_log0, 150)];
     Manager.reader_recovered := λ _, true;
     Manager.stopped_is_set := false |}.

(** A recovery cut short: the reader was stopped at offset 120 and does
    not report recovered (scenario S5). *)
Definition env_S5 : Manager.Env :=
  {| Manager.assigned_actives := [tp_log0];
     Manager.assigned_standbys := [("orders-changelog"%string, 1)];
     Manager.consumer_assignment := assigned_S4;
     Manager.reader_offsets := λ _, [(tp_log0, 120)];
     Manager.reader_recovered := λ _, false;
     Manager.stopped_is_set := false |}.

(** The manager after the recovery of scenario S4: one standby runs. *)
Definition sys_S4 : Manager.Sys :=
  snd (Manager.on_partitions_assigned env_S4 assigned_S4 sys_orders).

(** A fresh manager, nothing called yet. *)
Definition sys0 : Manager.Sys :=
  {| Manager.mgr := Manager.init; Manager.trace := [] |}.

(** The manager after [add(orders100)] only: the table has no channel
    yet. *)
Definition sys_added : Manager.Sys := snd (Manager.add orders100 sys0).

(** An inbound message on topic ["X"]. *)
Definition msg_X : TopicMan.Message :=
  {| TopicMan.msg_topic := "X"; TopicMan.msg_partition := 0;
     TopicMan.msg_offset := 12; TopicMan.refcount := 0 |}.

(** An inbound message on topic ["Y"]. *)
Definition msg_Y : TopicMan.Message :=
  {| TopicMan.msg_topic := "Y"; TopicMan.msg_partition := 0;
     TopicMan.msg_offset := 3; TopicMan.refcount := 0 |}.

(** A topic manager with two channels subscribed to ["X"] (scenario S2). *)
Definition tm_X : TopicMan.TopicManager :=
  {| TopicMan._topicmap := {[ "X"%string := {[ 1%nat; 2%nat ]} ]};
     TopicMan._pending_tasks := [] |}.

End Examples.

(* ===================================================================== *)
(** * Properties of [Topic] *)
(* ===================================================================== *)

Section TopicFacts.
Import Topics Examples.

(** The example topics are what the constructor builds. *)
Lemma topic_t1_constructed :
  Topic_init app8 (topic_args (Some ["t1"%string]) None (Some 8) None)
  = Ok topic_t1.
Proof. reflexivity. Qed.

Lemma topic_r3_constructed :
  Topic_init app8 (topic_args (Some ["t1"%string]) None None (Some 3))
  = Ok topic_r3.
Proof. reflexivity. Qed.

Lemma topic_pat_constructed :
  Topic_init app8 (topic_args None (Some (PatStr "^x$")) None None)
  = Ok topic_pat.
Proof. reflexivity. Qed.

Lemma truthy_str_false (s : string) : truthy_str s = false ↔ s = ""%string.
Proof. destruct s; simpl; split; congruence. Qed.

(** A prefix or suffix never changes the names handed to the
    constructor: on a topic without pattern, [derive] builds the topic
    from [self.topics] (or the [topics] argument) as they are. *)
Lemma derive_ignores_affixes (t t' : Topic) (d : DeriveArgs) :
  derive t d = Ok t' →
  topics t' = override_opt (topics t) (d_topics d).
Proof.
  unfold derive, Topic_init. intros H.
  destruct (_ && truthy_pattern _); [discriminate |].
  destruct (set_pattern _ _); [| discriminate].
  destruct (set_partitions _ _); [| discriminate].
  injection H as <-. reflexivity.
Qed.

(** C3 (scenario S3), evaluated on the code: [derive(prefix="p-",
    suffix="-s")] of the topic with [topics=["t1"]], [partitions=8]
    succeeds and inherits [partitions=8], but its names are still
    [["t1"]], not [["p-t1-s"]]: the statement that applies the prefix and
    the suffix follows the [raise] inside [if self.pattern:]. *)
Theorem derive_S3_names_not_wrapped :
  ∃ t', derive topic_t1 (derive_affixes "p-" "-s") = Ok t'
        ∧ _partitions t' = 8
        ∧ topics t' = Some ["t1"%string]
        ∧ wrap_names "p-" "-s" ["t1"%string] = ["p-t1-s"%string]
        ∧ topics t' ≠ Some (wrap_names "p-" "-s" ["t1"%string]).
Proof.
  eexists. split; [reflexivity |].
  repeat split. intros H; discriminate H.
Qed.

(** With no overrides, [derive] copies every attribute but two: the
    iterator flag and the replication factor fall back to the
    constructor's defaults.  It needs a topic the constructor accepts
    again: not both names and a pattern, and a partition count other
    than 0. *)
Lemma derive_no_overrides_fields (t : Topic) :
  truthy_pattern (_pattern t) && truthy_topics (topics t) = false →
  _partitions t ≠ 0 →
  derive t no_overrides
  = Ok {| app := app t; topics := topics t; _pattern := _pattern t;
          key_type := key_type t; value_type := value_type t;
          is_iterator := false; _partitions := _partitions t;
          retention := retention t; compacting := compacting t;
          deleting := deleting t;
          _replicas := replication_factor (app t);
          config := config t |}.
Proof.
  intros Hboth Hparts. unfold derive, no_overrides, Topic_init; simpl.
  assert (Hpat : set_pattern (topics t) (PatCompiled <$> _pattern t)
                 = Ok (_pattern t)).
  { unfold set_pattern. destruct (_pattern t) as [p |]; simpl in *.
    - rewrite Hboth. reflexivity.
    - reflexivity. }
  rewrite Hpat. unfold set_partitions.
  destruct (Z.eqb_spec (_partitions t) 0) as [E | _]; [contradiction |].
  reflexivity.
Qed.

(** C9 (R1), evaluated on the code: for the topic built with
    [replicas=3] on an application whose replication factor is 1,
    [derive()] applied twice with no overrides succeeds and keeps names,
    pattern, models, partitions, retention, flags and config map, but the
    replication factor of the result is 1, not 3: [derive] does not hand
    [replicas] to the constructor (while [_clone_args] does). *)
Theorem derive_twice_loses_replicas :
  ∃ t1 t2,
    derive topic_r3 no_overrides = Ok t1
    ∧ derive t1 no_overrides = Ok t2
    ∧ topics t2 = topics topic_r3
    ∧ _pattern t2 = _pattern topic_r3
    ∧ key_type t2 = key_type topic_r3
    ∧ value_type t2 = value_type topic_r3
    ∧ _partitions t2 = _partitions topic_r3
    ∧ retention t2 = retention topic_r3
    ∧ compacting t2 = compacting topic_r3
    ∧ deleting t2 = deleting topic_r3
    ∧ config t2 = config topic_r3
    ∧ _replicas topic_r3 = 3
    ∧ _replicas t1 = 1
    ∧ _replicas t2 = 1.
Proof.
  do 2 eexists. split; [reflexivity |]. split; [reflexivity |].
  repeat split.
Qed.

(** An empty list of names next to a pattern is accepted. *)
Lemma empty_names_with_pattern_accepted :
  ∃ t, Topic_init app8 (topic_args (Some []) (Some (PatStr "x")) None None)
       = Ok t
       ∧ topics t = Some [] ∧ _pattern t = Some {| pattern_src := "x" |}.
Proof. eexists. split; [reflexivity |]. split; reflexivity. Qed.

(** So is the empty string as pattern next to names; the topic built has
    both names and a (compiled) pattern. *)
Lemma names_with_empty_pattern_accepted :
  ∃ t, Topic_init app8
         (topic_args (Some ["t1"%string]) (Some (PatStr "")) None None)
       = Ok t
       ∧ topics t = Some ["t1"%string]
       ∧ _pattern t = Some {| pattern_src := "" |}.
Proof. eexists. split; [reflexivity |]. split; reflexivity. Qed.

(** C8 as stated does not hold: a constructor call that is given both a
    list of names and a pattern need not fail.
    [Topic(app, topics=[], pattern="x")] builds a topic. *)
Lemma names_and_pattern_not_always_rejected :
  ¬ (∀ (a : App) (args : TopicArgs) (names : list string) (pat : pattern_arg),
       a_topics args = Some names →
       a_pattern args = Some pat →
       ∃ e, Topic_init a args = Raise e).
Proof.
  intros H.
  destruct (H app8 (topic_args (Some []) (Some (PatStr "x")) None None)
              [] (PatStr "x") eq_refl eq_refl) as [e He].
  discriminate He.
Qed.

(** C8, amended: constructing a Topic with a non-empty list of names and
    a pattern that is a compiled expression or a non-empty string raises
    [TypeError]; [derive] with a non-empty prefix or suffix on a Topic
    that has a pattern raises [ValueError]. *)
Theorem names_and_pattern_rejected
    (a : App) (args : TopicArgs) (t : Topic) (d : DeriveArgs) :
  truthy_topics (a_topics args) = true →
  truthy_pattern_arg (a_pattern args) = true →
  _pattern t ≠ None →
  (d_prefix d ≠ ""%string ∨ d_suffix d ≠ ""%string) →
  (∃ msg, Topic_init a args = Raise (TypeError msg))
  ∧ (∃ msg, derive t d = Raise (ValueError msg)).
Proof.
  intros Hnames Hpat Hhas Haffix. split.
  - unfold Topic_init, set_pattern. rewrite Hpat, Hnames. simpl. eauto.
  - unfold derive.
    assert (Ht : truthy_pattern (_pattern t) = true)
      by (destruct (_pattern t); [reflexivity | congruence]).
    assert (Ha : truthy_str (d_suffix d) || truthy_str (d_prefix d) = true).
    { apply orb_true_iff.
      destruct Haffix as [Hp | Hs].
      - right. destruct (truthy_str (d_prefix d)) eqn:E; [reflexivity |].
        apply truthy_str_false in E. contradiction.
      - left. destruct (truthy_str (d_suffix d)) eqn:E; [reflexivity |].
        apply truthy_str_false in E. contradiction. }
    rewrite Ha, Ht. simpl. eauto.
Qed.

Lemma names_and_pattern_rejected_witness :
  truthy_topics (a_topics (topic_args (Some ["t1"%string])
                             (Some (PatStr "^x$")) None None)) = true
  ∧ truthy_pattern_arg (a_pattern (topic_args (Some ["t1"%string])
                                     (Some (PatStr "^x$")) None None)) = true
  ∧ _pattern topic_pat ≠ None
  ∧ (d_prefix (derive_affixes "p-" "") ≠ ""%string
     ∨ d_suffix (derive_affixes "p-" "") ≠ ""%string)
  ∧ (∃ msg, Topic_init app8 (topic_args (Some ["t1"%string])
                               (Some (PatStr "^x$")) None None)
            = Raise (TypeError msg))
  ∧ (∃ msg, derive topic_pat (derive_affixes "p-" "")
            = Raise (ValueError msg)).
Proof.
  assert (H1 : truthy_topics (a_topics (topic_args (Some ["t1"%string])
                 (Some (PatStr "^x$")) None None)) = true) by reflexivity.
  assert (H2 : truthy_pattern_arg (a_pattern (topic_args (Some ["t1"%string])
                 (Some (PatStr "^x$")) None None)) = true) by reflexivity.
  assert (H3 : _pattern topic_pat ≠ None) by (simpl; congruence).
  assert (H4 : d_prefix (derive_affixes "p-" "") ≠ ""%string
               ∨ d_suffix (derive_affixes "p-" "") ≠ ""%string)
    by (left; simpl; congruence).
  split; [exact H1 |]. split; [exact H2 |]. split; [exact H3 |].
  split; [exact H4 |].
  exact (names_and_pattern_rejected app8 _ topic_pat _ H1 H2 H3 H4).
Defined.

(** C10 as stated does not hold: with an application default of 0,
    setting the partition count to [None] raises, though the value
    supplied is not 0. *)
Lemma partitions_none_can_raise :
  ¬ (∀ (a : App) (p : option Z),
       (∃ e, set_partitions a p = Raise e) ↔ p = Some 0).
Proof.
  intros H.
  destruct (H app0 None) as [Hraise _].
  assert (Hn : @None Z = Some 0) by (apply Hraise; eexists; reflexivity).
  discriminate Hn.
Qed.

(** C10, amended: [None] is first replaced by the application's default
    partition count; the setter raises if and only if the value after
    that replacement is 0, and any other value, negative ones included,
    is stored unchanged. *)
Theorem set_partitions_spec (a : App) (p : option Z) :
  ((∃ e, set_partitions a p = Raise e)
   ↔ default (default_partitions a) p = 0)
  ∧ (default (default_partitions a) p ≠ 0 →
     set_partitions a p = Ok (default (default_partitions a) p)).
Proof.
  assert (Hv : (match p with None => default_partitions a | Some n => n end)
               = default (default_partitions a) p) by (destruct p; reflexivity).
  unfold set_partitions. rewrite Hv.
  destruct (Z.eqb_spec (default (default_partitions a) p) 0) as [E | E].
  - split; [| intros; contradiction].
    split; [intros _; exact E | intros _; eauto].
  - split; [| reflexivity].
    split; [intros [e He]; discriminate He | intros; contradiction].
Qed.

Lemma set_partitions_spec_witness :
  default (default_partitions app8) (Some (-3)) ≠ 0
  ∧ set_partitions app8 (Some (-3)) = Ok (-3)
  ∧ set_partitions app8 None = Ok 8.
Proof.
  assert (H1 : default (default_partitions app8) (Some (-3)) ≠ 0)
    by (simpl; lia).
  assert (H2 : default (default_partitions app8) None ≠ 0)
    by (simpl; lia).
  split; [exact H1 |]. split.
  - exact (proj2 (set_partitions_spec app8 (Some (-3))) H1).
  - exact (proj2 (set_partitions_spec app8 None) H2).
Defined.

End TopicFacts.

(* ===================================================================== *)
(** * Properties of the message handler *)
(* ===================================================================== *)

Section TopicManFacts.
Import TopicMan Examples.

Lemma foldl_add_pending_task (m : Message) (ran : list channel)
    (q : list (channel * TP * Z)) :
  foldl (add_pending_task m) q ran
  = q ++ ((λ c, (c, (msg_topic m, msg_partition m), msg_offset m)) <$> ran).
Proof.
  revert q. induction ran as [| c ran IH]; intros q; simpl.
  - symmetry. apply app_nil_r.
  - rewrite IH. unfold add_pending_task. rewrite <- app_assoc. reflexivity.
Qed.

(** C6 (P5): with [K] the number of channels subscribed to the topic of
    message [M], [on_message] raises the reference count of [M] by
    exactly [K], in a single [incref_bulk], and that call comes before
    every enqueueing of a delivery of [M]: the calls are one
    [incref_bulk(K)] followed by one enqueue per channel. *)
Theorem on_message_increfs_first
    (wait_order : list channel → list channel)
    (message : Message) (tm : TopicManager) :
  (∀ l, wait_order l ≡ₚ l) →
  let chans := default ∅ (_topicmap tm !! msg_topic message) in
  let K := size chans in
  let o := on_message wait_order message tm in
  refcount (out_message o) = refcount message + Z.of_nat K
  ∧ ∃ ran,
      out_events o = EvIncrefBulk K :: (EvEnqueue <$> ran)
      ∧ ran ≡ₚ elements chans
      ∧ length ran = K
      ∧ _pending_tasks (out_manager o)
        = _pending_tasks tm
          ++ ((λ c, (c, (msg_topic message, msg_partition message),
                     msg_offset message)) <$> ran).
Proof.
  intros Hperm chans K o.
  assert (Hget : get_channels_for_topic (msg_topic message) (_topicmap tm)
                 = (chans, snd (get_channels_for_topic (msg_topic message)
                                  (_topicmap tm)))).
  { unfold get_channels_for_topic, chans.
    destruct (_topicmap tm !! msg_topic message); reflexivity. }
  assert (HK : K = length (elements chans)) by reflexivity.
  subst o. unfold on_message. rewrite Hget.
  destruct (elements chans) as [| c cs] eqn:E.
  - simpl. split; [rewrite HK; reflexivity |].
    exists []. rewrite HK. simpl. rewrite app_nil_r. auto.
  - cbn [out_message out_events out_manager _pending_tasks].
    split; [rewrite HK; reflexivity |].
    exists (wait_order (c :: cs)).
    rewrite HK. split; [reflexivity |]. split; [apply Hperm |].
    split; [apply Permutation_length, Hperm |].
    rewrite foldl_add_pending_task. reflexivity.
Qed.

Lemma on_message_increfs_first_witness :
  (∀ l : list channel, reverse l ≡ₚ l)
  ∧ refcount (out_message (on_message reverse msg_X tm_X)) = 2
  ∧ out_events (on_message reverse msg_X tm_X)
    = [EvIncrefBulk 2; EvEnqueue 1; EvEnqueue 2].
Proof.
  assert (Hrev : ∀ l : list channel, reverse l ≡ₚ l)
    by (intros l; apply reverse_Permutation).
  split; [exact Hrev |].
  pose proof (on_message_increfs_first reverse msg_X tm_X Hrev) as [Hrc _].
  split; [exact Hrc | vm_compute; reflexivity].
Defined.

End TopicManFacts.

(* ===================================================================== *)
(** * Properties of the table manager *)
(* ===================================================================== *)

Section ManagerFacts.
Import Manager Examples.

Lemma find_app_fresh (n : string) (t : Table) (l : list (string * Table)) :
  existsb (λ kv, String.eqb (fst kv) n) l = false →
  List.find (λ kv, String.eqb (fst kv) n) (l ++ [(n, t)]) = Some (n, t).
Proof.
  induction l as [| kv l IH]; simpl.
  - intros _. rewrite String.eqb_refl. reflexivity.
  - intros H. apply orb_false_iff in H as [H1 H2].
    rewrite H1. apply IH, H2.
Qed.

(** C7: [add(table)] raises [RuntimeError] (AddTooLate) whenever the
    recovery-started latch is set; with the latch not set it raises
    [ValueError] (DuplicateTable) whenever a table of that name is
    registered; in both cases nothing changes.  Otherwise it registers
    the table under its name and returns it. *)
Theorem add_spec (table : Table) (s : Sys) :
  (_recovery_started (mgr s) = true →
   ∃ msg, add table s = (Raise (RuntimeError msg), s))
  ∧ (∀ n, _recovery_started (mgr s) = false →
          name table = Some n →
          contains n (mgr s) = true →
          ∃ msg, add table s = (Raise (ValueError msg), s))
  ∧ (∀ n, _recovery_started (mgr s) = false →
          name table = Some n →
          contains n (mgr s) = false →
          ∃ s', add table s = (Ok table, s')
                ∧ getitem n (mgr s') = Some table
                ∧ data (mgr s') = data (mgr s) ++ [(n, table)]
                ∧ _table_offsets (mgr s') = _table_offsets (mgr s)
                ∧ _recovery_started (mgr s') = false
                ∧ trace s' = trace s).
Proof.
  unfold add, bind, get. repeat split.
  - intros ->. eauto.
  - intros n -> Hname Hdup. rewrite Hname, Hdup. eauto.
  - intros n Hlatch Hname Hfresh. rewrite Hlatch, Hname, Hfresh.
    eexists. split; [reflexivity |].
    simpl. split; [| repeat split; auto].
    unfold getitem. simpl. unfold contains in Hfresh.
    rewrite (find_app_fresh _ _ _ Hfresh). reflexivity.
Qed.

Lemma add_spec_witness :
  _recovery_started (mgr sys0) = false
  ∧ name orders = Some "orders"%string
  ∧ contains "orders" (mgr sys0) = false
  ∧ ∃ s', add orders sys0 = (Ok orders, s')
          ∧ getitem "orders" (mgr s') = Some orders
          ∧ data (mgr s') = data (mgr sys0) ++ [("orders"%string, orders)]
          ∧ _table_offsets (mgr s') = _table_offsets (mgr sys0)
          ∧ _recovery_started (mgr s') = false
          ∧ trace s' = trace sys0.
Proof.
  split; [reflexivity |]. split; [reflexivity |]. split; [reflexivity |].
  exact (proj2 (proj2 (add_spec orders sys0)) "orders"%string
           eq_refl eq_refl eq_refl).
Defined.

(** ** The folds into [_table_offsets] *)

Lemma offset_get_insert (offs : gmap TP Z) (tp' tp : TP) (v : Z) :
  offset_get (<[tp' := v]> offs) tp
  = if decide (tp' = tp) then v else offset_get offs tp.
Proof.
  unfold offset_get. rewrite lookup_insert. case_decide; reflexivity.
Qed.

Lemma offset_get_empty (tp : TP) : offset_get ∅ tp = -1.
Proof. unfold offset_get. rewrite lookup_empty. reflexivity. Qed.

Lemma sync_offsets_step_le (offs : gmap TP Z) (item : TP * Z) :
  offsets_le offs (sync_offsets_step offs item).
Proof.
  intros tp. destruct item as [tp' o]. unfold sync_offsets_step.
  destruct (0 <=? o); [| lia].
  rewrite offset_get_insert. case_decide; [subst; lia | lia].
Qed.

Lemma sync_persisted_step_le (table : Table) (offs : gmap TP Z) (tp' : TP) :
  offsets_le offs (sync_persisted_step table offs tp').
Proof.
  intros tp. unfold sync_persisted_step.
  destruct (persisted_offset table tp') as [po |]; [| lia].
  rewrite offset_get_insert. case_decide; [subst; lia | lia].
Qed.

Lemma offsets_le_refl (offs : gmap TP Z) : offsets_le offs offs.
Proof. intros tp. lia. Qed.

Lemma offsets_le_trans (a b c : gmap TP Z) :
  offsets_le a b → offsets_le b c → offsets_le a c.
Proof. intros H1 H2 tp. specialize (H1 tp). specialize (H2 tp). lia. Qed.

Lemma sync_offsets_le (items : list (TP * Z)) (offs : gmap TP Z) :
  offsets_le offs (_sync_offsets items offs).
Proof.
  unfold _sync_offsets. revert offs.
  induction items as [| item items IH]; intros offs; simpl.
  - apply offsets_le_refl.
  - eapply offsets_le_trans; [apply sync_offsets_step_le | apply IH].
Qed.

Lemma sync_persisted_le (table : Table) (tps : list TP) (offs : gmap TP Z) :
  offsets_le offs (_sync_persisted_offsets table tps offs).
Proof.
  unfold _sync_persisted_offsets. revert offs.
  induction tps as [| tp' tps IH]; intros offs; simpl.
  - apply offsets_le_refl.
  - eapply offsets_le_trans; [apply sync_persisted_step_le | apply IH].
Qed.

Lemma apply_write_le (offs : gmap TP Z) (w : write) :
  offsets_le offs (apply_write offs w).
Proof.
  destruct w; simpl; [apply sync_offsets_le | apply sync_persisted_le].
Qed.

Lemma above_sentinel_le (a b : gmap TP Z) :
  above_sentinel a → offsets_le a b → above_sentinel b.
Proof. intros Ha Hle tp. specialize (Ha tp). specialize (Hle tp). lia. Qed.

Lemma above_sentinel_writes (ws : list write) :
  above_sentinel (foldl apply_write ∅ ws).
Proof.
  assert (H : ∀ offs, above_sentinel offs →
                      above_sentinel (foldl apply_write offs ws)).
  { induction ws as [| w ws IH]; intros offs Hoffs; simpl; [exact Hoffs |].
    apply IH. eapply above_sentinel_le; [exact Hoffs | apply apply_write_le]. }
  apply H. intros tp. rewrite offset_get_empty. lia.
Qed.

(** A fold of reader offsets leaves alone the partitions the reader does
    not list. *)
Lemma sync_offsets_other (items : list (TP * Z)) (offs : gmap TP Z) (tp : TP) :
  tp ∉ items.*1 →
  offset_get (_sync_offsets items offs) tp = offset_get offs tp.
Proof.
  unfold _sync_offsets. revert offs.
  induction items as [| [tp' o] items IH]; intros offs Hnot; simpl.
  - reflexivity.
  - simpl in Hnot. apply not_elem_of_cons in Hnot as [Hne Hnot].
    rewrite IH by exact Hnot.
    destruct (0 <=? o); [| reflexivity].
    rewrite offset_get_insert. case_decide; [congruence | reflexivity].
Qed.

(** A fold of the reader's [offsets] dictionary: an offset [o >= 0]
    listed for [tp] makes the entry [max(existing, o)], a negative one is
    skipped. *)
Lemma sync_offsets_at (items : list (TP * Z)) (offs : gmap TP Z)
    (tp : TP) (o : Z) :
  NoDup items.*1 →
  (tp, o) ∈ items →
  offset_get (_sync_offsets items offs) tp
  = if 0 <=? o then Z.max (offset_get offs tp) o else offset_get offs tp.
Proof.
  revert offs.
  induction items as [| [tp' o'] items IH]; intros offs Hnd Hin.
  - apply elem_of_nil in Hin. contradiction.
  - simpl in Hnd. apply NoDup_cons in Hnd as [Hfresh Hnd].
    apply elem_of_cons in Hin as [Heq | Hin].
    + injection Heq as <- <-.
      change (_sync_offsets ((tp, o) :: items) offs)
        with (_sync_offsets items (sync_offsets_step offs (tp, o))).
      rewrite sync_offsets_other by exact Hfresh.
      unfold sync_offsets_step. destruct (0 <=? o); [| reflexivity].
      rewrite offset_get_insert. case_decide; [reflexivity | congruence].
    + assert (Hne : tp' ≠ tp).
      { intros ->. apply Hfresh. apply list_elem_of_fmap.
        exists (tp, o). split; [reflexivity | exact Hin]. }
      change (_sync_offsets ((tp', o') :: items) offs)
        with (_sync_offsets items (sync_offsets_step offs (tp', o'))).
      rewrite IH by assumption.
      assert (Hsame : offset_get (sync_offsets_step offs (tp', o')) tp
                      = offset_get offs tp).
      { unfold sync_offsets_step. destruct (0 <=? o'); [| reflexivity].
        rewrite offset_get_insert. case_decide; [congruence | reflexivity]. }
      rewrite Hsame. reflexivity.
Qed.

Lemma sync_persisted_other (table : Table) (tps : list TP)
    (offs : gmap TP Z) (tp : TP) :
  tp ∉ tps →
  offset_get (_sync_persisted_offsets table tps offs) tp = offset_get offs tp.
Proof.
  unfold _sync_persisted_offsets. revert offs.
  induction tps as [| tp' tps IH]; intros offs Hnot; simpl.
  - reflexivity.
  - apply not_elem_of_cons in Hnot as [Hne Hnot].
    rewrite IH by exact Hnot. unfold sync_persisted_step.
    destruct (persisted_offset table tp'); [| reflexivity].
    rewrite offset_get_insert. case_decide; [congruence | reflexivity].
Qed.

(** A fold of persisted offsets over a set of partitions: a persisted
    offset [o] for [tp] makes the entry [max(existing, o)]. *)
Lemma sync_persisted_at (table : Table) (tps : list TP) (offs : gmap TP Z)
    (tp : TP) (o : Z) :
  NoDup tps →
  tp ∈ tps →
  persisted_offset table tp = Some o →
  offset_get (_sync_persisted_offsets table tps offs) tp
  = Z.max (offset_get offs tp) o.
Proof.
  revert offs.
  induction tps as [| tp' tps IH]; intros offs Hnd Hin Hpo.
  - apply elem_of_nil in Hin. contradiction.
  - apply NoDup_cons in Hnd as [Hfresh Hnd].
    change (_sync_persisted_offsets table (tp' :: tps) offs)
      with (_sync_persisted_offsets table tps (sync_persisted_step table offs tp')).
    apply elem_of_cons in Hin as [-> | Hin].
    + rewrite sync_persisted_other by exact Hfresh.
      unfold sync_persisted_step. rewrite Hpo.
      rewrite offset_get_insert. case_decide; [reflexivity | congruence].
    + assert (Hne : tp' ≠ tp) by (intros ->; contradiction).
      rewrite IH by assumption.
      assert (Hsame : offset_get (sync_persisted_step table offs tp') tp
                      = offset_get offs tp).
      { unfold sync_persisted_step.
        destruct (persisted_offset table tp'); [| reflexivity].
        rewrite offset_get_insert. case_decide; [congruence | reflexivity]. }
      rewrite Hsame. reflexivity.
Qed.

(** ** Relations kept by every method *)

Section Preservation.
Variable R : Sys → Sys → Prop.
Hypothesis R_refl : ∀ s, R s s.
Hypothesis R_trans : ∀ a b c, R a b → R b c → R a c.

Lemma preserves_ret {A} (a : A) : preserves R (ret a).
Proof. intros s. apply R_refl. Qed.

Lemma preserves_raise {A} (e : exn) : preserves R (@raise A e).
Proof. intros s. apply R_refl. Qed.

Lemma preserves_get : preserves R get.
Proof. intros s. apply R_refl. Qed.

(** The continuation may rely on a property [P] of the value returned. *)
Lemma preserves_bind_post {A B} (P : A → Prop) (m : M A) (k : A → M B) :
  preserves R m →
  (∀ s a s1, m s = (Ok a, s1) → P a) →
  (∀ a, P a → preserves R (k a)) →
  preserves R (bind m k).
Proof.
  intros Hm HP Hk s. unfold bind.
  specialize (Hm s). pose proof (HP s) as HPs.
  destruct (m s) as [[a | e] s1]; simpl in *.
  - eapply R_trans; [exact Hm |]. apply Hk. eapply HPs. reflexivity.
  - exact Hm.
Qed.

Lemma preserves_bind {A B} (m : M A) (k : A → M B) :
  preserves R m → (∀ a, preserves R (k a)) → preserves R (bind m k).
Proof.
  intros Hm Hk. apply (preserves_bind_post (λ _, True)); auto.
Qed.

Lemma preserves_for_each_in {A} (l : list A) (body : A → M unit) :
  (∀ x, x ∈ l → preserves R (body x)) → preserves R (for_each l body).
Proof.
  induction l as [| x l IH]; intros Hbody; simpl.
  - apply preserves_ret.
  - apply preserves_bind.
    + apply Hbody. apply list_elem_of_here.
    + intros _. apply IH. intros y Hy. apply Hbody.
      apply list_elem_of_further, Hy.
Qed.

Lemma preserves_for_each {A} (l : list A) (body : A → M unit) :
  (∀ x, preserves R (body x)) → preserves R (for_each l body).
Proof. intros H. apply preserves_for_each_in. auto. Qed.

Lemma preserves_map_m {A B} (l : list A) (f : A → M B) :
  (∀ x, preserves R (f x)) → preserves R (map_m l f).
Proof.
  intros Hf. induction l as [| x l IH]; simpl.
  - apply preserves_ret.
  - apply preserves_bind; [apply Hf |]. intros y.
    apply preserves_bind; [apply IH |]. intros ys. apply preserves_ret.
Qed.

Lemma preserves_run_future (coro : M unit) :
  preserves R coro → preserves R (run_future coro).
Proof. intros H s. apply H. Qed.

End Preservation.

(** Takes a method apart into its primitive steps. *)
Ltac pres_steps :=
  repeat first
    [ assumption
    | solve [auto 2]
    | apply preserves_ret
    | apply preserves_raise
    | apply preserves_get
    | apply preserves_bind
    | apply preserves_for_each
    | apply preserves_map_m
    | match goal with
      | |- preserves _ (match ?x with _ => _ end) => destruct x
      end
    | progress cbv zeta
    | lazymatch goal with |- ∀ _ : _, _ => intro end ].

(** ** No method lowers a table offset *)

Lemma offsets_grow_refl (s : Sys) : offsets_grow s s.
Proof. apply offsets_le_refl. Qed.

Lemma offsets_grow_trans (a b c : Sys) :
  offsets_grow a b → offsets_grow b c → offsets_grow a c.
Proof. apply offsets_le_trans. Qed.

Ltac grow_leaf :=
  try solve [auto 2];
  try (intros ?; unfold offsets_grow, modify, emit; simpl;
       first [apply offsets_le_refl | apply sync_offsets_le
             | apply sync_persisted_le]).

Ltac grow method :=
  pose proof offsets_grow_refl; pose proof offsets_grow_trans;
  unfold method; pres_steps; grow_leaf.

Lemma add_grow table : preserves offsets_grow (add table).
Proof. grow add. Qed.

Lemma update_channels_grow env : preserves offsets_grow (_update_channels env).
Proof. grow _update_channels. Qed.

Lemma create_reviver_grow table tps :
  preserves offsets_grow (_create_reviver table tps).
Proof. grow _create_reviver. Qed.

Lemma sync_reader_grow env r : preserves offsets_grow (sync_reader env r).
Proof. grow sync_reader. Qed.

Lemma recover_changelogs_grow env tps :
  preserves offsets_grow (_recover_changelogs env tps).
Proof.
  pose proof create_reviver_grow. pose proof sync_reader_grow.
  grow _recover_changelogs.
Qed.

Lemma start_standby_grow table tps :
  preserves offsets_grow (start_standby table tps).
Proof. grow start_standby. Qed.

Lemma start_standbys_grow tps : preserves offsets_grow (_start_standbys tps).
Proof. pose proof start_standby_grow. grow _start_standbys. Qed.

Lemma stop_standbys_grow env : preserves offsets_grow (_stop_standbys env).
Proof. pose proof sync_reader_grow. grow _stop_standbys. Qed.

Lemma on_recovery_started_grow env :
  preserves offsets_grow (_on_recovery_started env).
Proof. pose proof update_channels_grow. grow _on_recovery_started. Qed.

Lemma on_recovery_completed_grow :
  preserves offsets_grow _on_recovery_completed.
Proof. grow _on_recovery_completed. Qed.

Lemma recover_until_check_grow env assigned :
  preserves offsets_grow (recover_until_check env assigned).
Proof.
  pose proof on_recovery_started_grow. pose proof recover_changelogs_grow.
  grow recover_until_check.
Qed.

Lemma recover_grow env assigned : preserves offsets_grow (_recover env assigned).
Proof.
  pose proof recover_until_check_grow. pose proof start_standbys_grow.
  pose proof on_recovery_completed_grow.
  grow _recover.
Qed.

Lemma maybe_abort_grow : preserves offsets_grow _maybe_abort_ongoing_recovery.
Proof. grow _maybe_abort_ongoing_recovery. Qed.

Lemma on_partitions_revoked_grow env revoked :
  preserves offsets_grow (on_partitions_revoked env revoked).
Proof.
  pose proof maybe_abort_grow. pose proof stop_standbys_grow.
  grow on_partitions_revoked.
Qed.

Lemma on_partitions_assigned_grow env assigned :
  preserves offsets_grow (on_partitions_assigned env assigned).
Proof.
  assert (preserves offsets_grow (run_future (_recover env assigned)))
    by (apply preserves_run_future, recover_grow).
  grow on_partitions_assigned.
Qed.

Lemma on_stop_grow env : preserves offsets_grow (on_stop env).
Proof.
  pose proof maybe_abort_grow. pose proof stop_standbys_grow.
  grow on_stop.
Qed.

(** Whatever the worker calls on the manager, in whatever state, no
    table offset goes down. *)
Lemma run_call_offsets_grow (s : Sys) (c : call) :
  offsets_grow s (run_call s c).
Proof.
  destruct c; simpl.
  - apply add_grow.
  - apply update_channels_grow.
  - apply on_partitions_assigned_grow.
  - apply on_partitions_revoked_grow.
  - apply on_stop_grow.
Qed.

(** Read with [__getitem__] instead of [get(tp, -1)], an offset does not
    go down either, as long as the persisted offsets folded are not
    negative. *)
Lemma counter_getitem_monotone (offs : gmap TP Z) (w : write) (tp : TP) :
  persisted_nonneg w →
  counter_getitem offs tp ≤ counter_getitem (apply_write offs w) tp.
Proof.
  assert (Hins : ∀ (o : gmap TP Z) tp' v,
            counter_getitem o tp ≤ counter_getitem (<[tp' := v]> o) tp
            ∨ (tp' = tp ∧ counter_getitem (<[tp' := v]> o) tp = v)).
  { intros o tp' v. unfold counter_getitem. rewrite lookup_insert.
    case_decide; [right; auto | left; lia]. }
  destruct w as [items | table tps]; simpl; intros Hnonneg.
  - unfold _sync_offsets. revert offs.
    induction items as [| [tp' o] items IH]; intros offs; simpl; [lia |].
    etransitivity; [| apply IH].
    destruct (Z.leb_spec 0 o) as [Ho | Ho]; [| lia].
    destruct (Hins offs tp' (Z.max (offset_get offs tp') o))
      as [Hle | [-> ->]]; [exact Hle |].
    unfold counter_getitem, offset_get. destruct (offs !! tp); simpl; lia.
  - unfold _sync_persisted_offsets. revert offs.
    induction tps as [| tp' tps IH]; intros offs; simpl; [lia |].
    etransitivity; [| apply IH]. unfold sync_persisted_step.
    destruct (persisted_offset table tp') as [po |] eqn:E; [| lia].
    specialize (Hnonneg tp' po E).
    destruct (Hins offs tp' (Z.max (offset_get offs tp') po))
      as [Hle | [-> ->]]; [exact Hle |].
    unfold counter_getitem, offset_get. destruct (offs !! tp); simpl; lia.
Qed.

(** C4 (I7, P6): over any sequence of folds into [_table_offsets],
    starting from the empty counter, and over any sequence of calls on a
    fresh manager, the offset of [tp] never decreases.  A fold of a
    reader's offsets makes it [max(existing, observed)] and skips a
    negative observation, the sentinel -1 in particular; a fold of a
    persisted offset makes it [max(existing, observed)], which for -1 is
    the existing value. *)
Theorem table_offsets_monotone (ws : list write) (w : write) (tp : TP) :
  let offs := foldl apply_write ∅ ws in
  offset_get offs tp ≤ offset_get (apply_write offs w) tp
  ∧ (∀ (calls : list call) (c : call),
       let s := foldl run_call fresh calls in
       offset_get (_table_offsets (mgr s)) tp
       ≤ offset_get (_table_offsets (mgr (run_call s c))) tp)
  ∧ (∀ items o,
       NoDup items.*1 → (tp, o) ∈ items →
       offset_get (_sync_offsets items offs) tp
       = if 0 <=? o then Z.max (offset_get offs tp) o
         else offset_get offs tp)
  ∧ (∀ items,
       NoDup items.*1 → (tp, -1) ∈ items →
       offset_get (_sync_offsets items offs) tp = offset_get offs tp)
  ∧ (∀ table tps o,
       NoDup tps → tp ∈ tps → persisted_offset table tp = Some o →
       offset_get (_sync_persisted_offsets table tps offs) tp
       = Z.max (offset_get offs tp) o)
  ∧ (∀ table tps,
       NoDup tps → tp ∈ tps → persisted_offset table tp = Some (-1) →
       offset_get (_sync_persisted_offsets table tps offs) tp
       = offset_get offs tp).
Proof.
  intros offs.
  pose proof (above_sentinel_writes ws tp) as Hfloor. fold offs in Hfloor.
  split; [apply apply_write_le |].
  split; [intros calls c s; apply run_call_offsets_grow |].
  split; [intros items o; apply sync_offsets_at |].
  split.
  { intros items Hnd Hin. rewrite (sync_offsets_at _ _ _ _ Hnd Hin).
    reflexivity. }
  split; [intros table tps o; apply sync_persisted_at |].
  intros table tps Hnd Hin Hpo.
  rewrite (sync_persisted_at _ _ _ _ _ Hnd Hin Hpo). lia.
Qed.

Lemma table_offsets_monotone_witness :
  NoDup [(tp_log0, -1)].*1
  ∧ (tp_log0, -1) ∈ [(tp_log0, -1)]
  ∧ offset_get (foldl apply_write ∅ writes_S4) tp_log0 = 150
  ∧ offset_get (_sync_offsets [(tp_log0, -1)] (foldl apply_write ∅ writes_S4))
      tp_log0
    = offset_get (foldl apply_write ∅ writes_S4) tp_log0.
Proof.
  assert (Hnd : NoDup [(tp_log0, -1)].*1)
    by (simpl; apply NoDup_singleton).
  assert (Hin : (tp_log0, -1) ∈ [(tp_log0, -1)]) by (apply list_elem_of_here).
  split; [exact Hnd |]. split; [exact Hin |].
  split; [vm_compute; reflexivity |].
  exact (proj1 (proj2 (proj2 (proj2 (table_offsets_monotone writes_S4
                                       (WSyncOffsets []) tp_log0))))
           [(tp_log0, -1)] Hnd Hin).
Defined.


(** ** An interrupted recovery *)

Lemma bind_ok_inv {A B} (m : M A) (k : A → M B) (s s1 : Sys) (b : B) :
  bind m k s = (Ok b, s1) →
  ∃ a s0, m s = (Ok a, s0) ∧ k a s0 = (Ok b, s1).
Proof.
  unfold bind. destruct (m s) as [[a | e] s0]; intros H.
  - eauto.
  - discriminate H.
Qed.

Lemma map_m_post {A B} (P : B → Prop) (l : list A) (f : A → M B) :
  (∀ x s b s1, f x s = (Ok b, s1) → P b) →
  ∀ s bs s1, map_m l f s = (Ok bs, s1) → Forall P bs.
Proof.
  intros Hf. induction l as [| x l IH]; intros s bs s1 H; simpl in H.
  - injection H as <- _. constructor.
  - apply bind_ok_inv in H as (b & s0 & Hb & H).
    apply bind_ok_inv in H as (bs' & s0' & Hbs & H).
    injection H as <- _. constructor; eauto.
Qed.

Lemma create_reviver_not_standby table tps s r s1 :
  _create_reviver table tps s = (Ok r, s1) → r_standby r = false.
Proof.
  unfold _create_reviver, bind, modify, get. simpl.
  destruct (_ !! table_id table); intros H; [| discriminate H].
  injection H as <- _. reflexivity.
Qed.

Lemma no_completion_refl (s : Sys) : no_completion s s.
Proof.
  repeat split. exists []. split; [symmetry; apply app_nil_r | constructor].
Qed.

Lemma no_completion_trans (a b c : Sys) :
  no_completion a b → no_completion b c → no_completion a c.
Proof.
  intros (H1 & H2 & evs & H3 & H4) (K1 & K2 & evs' & K3 & K4).
  split; [congruence |]. split; [congruence |].
  exists (evs ++ evs'). split.
  - rewrite K3, H3. symmetry. apply app_assoc.
  - apply Forall_app. split; assumption.
Qed.

Lemma emit_no_completion (e : event) :
  completes_recovery e = false → preserves no_completion (emit e).
Proof.
  intros He s. repeat split. exists [e]. split; [reflexivity |].
  constructor; [exact He | constructor].
Qed.

Lemma modify_no_completion (f : TableManager → TableManager) :
  (∀ m, recovery_completed (f m) = recovery_completed m) →
  (∀ m, _standbys (f m) = _standbys m) →
  preserves no_completion (modify f).
Proof.
  intros H1 H2 s. split; [apply H1 |]. split; [apply H2 |].
  exists []. split; [symmetry; apply app_nil_r | constructor].
Qed.

Ltac quiet_leaf :=
  try solve [auto 2];
  try solve [apply emit_no_completion; first [reflexivity | assumption]];
  try solve [apply modify_no_completion; intros ?; reflexivity].

Ltac quiet method :=
  pose proof no_completion_refl; pose proof no_completion_trans;
  unfold method; pres_steps; quiet_leaf.

Lemma update_channels_quiet env : preserves no_completion (_update_channels env).
Proof. quiet _update_channels. Qed.

Lemma on_recovery_started_quiet env :
  preserves no_completion (_on_recovery_started env).
Proof. pose proof update_channels_quiet. quiet _on_recovery_started. Qed.

Lemma create_reviver_quiet table tps :
  preserves no_completion (_create_reviver table tps).
Proof. quiet _create_reviver. Qed.

Lemma sync_reader_quiet env r : preserves no_completion (sync_reader env r).
Proof. quiet sync_reader. Qed.

Lemma recover_changelogs_quiet env tps :
  preserves no_completion (_recover_changelogs env tps).
Proof.
  pose proof no_completion_refl as Hrefl.
  pose proof no_completion_trans as Htrans.
  pose proof sync_reader_quiet.
  unfold _recover_changelogs.
  apply preserves_bind; [assumption | apply preserves_get; assumption |].
  intros m.
  apply (preserves_bind_post _ Htrans (Forall (λ r, r_standby r = false))).
  - apply preserves_map_m; [assumption | assumption |].
    intros table. apply create_reviver_quiet.
  - intros s rs s1. apply map_m_post. intros table.
    apply create_reviver_not_standby.
  - intros rs Hrs.
    assert (Hin : ∀ r, r ∈ rs → r_standby r = false)
      by (apply Forall_forall; exact Hrs).
    apply preserves_bind; [assumption | quiet_leaf |]. intros _.
    apply preserves_bind; [assumption | |].
    { apply preserves_for_each_in; [assumption | assumption |].
      intros r Hr. apply emit_no_completion. simpl. apply Hin, Hr. }
    intros _. pres_steps; quiet_leaf.
Qed.

Lemma recover_until_check_quiet env assigned :
  preserves no_completion (recover_until_check env assigned).
Proof.
  pose proof on_recovery_started_quiet. pose proof recover_changelogs_quiet.
  quiet recover_until_check.
Qed.

(** The four loops over the revivers never raise and leave [_revivers]
    alone. *)
Lemma same_revivers_refl (s : Sys) : same_revivers s s.
Proof. reflexivity. Qed.

Lemma same_revivers_trans (a b c : Sys) :
  same_revivers a b → same_revivers b c → same_revivers a c.
Proof. unfold same_revivers. congruence. Qed.

Lemma reviver_loops_same_revivers env (rs : list Reader) :
  preserves same_revivers
    (bind (for_each rs (λ r, emit (EvReaderStart r))) (λ _,
     bind (for_each rs (λ r, emit (EvWaitDoneReading r))) (λ _,
     bind (for_each rs (sync_reader env)) (λ _,
     bind (for_each rs (λ r, emit (EvReaderStop r))) (λ _,
     ret (forallb (reader_recovered env) rs)))))).
Proof.
  pose proof same_revivers_refl. pose proof same_revivers_trans.
  pres_steps; intros s; reflexivity.
Qed.

(** What [_recover_changelogs] returns is whether every reader of
    [_revivers] reports recovered. *)
Lemma recover_changelogs_result env tps s did s1 :
  _recover_changelogs env tps s = (Ok did, s1) →
  ∃ rs, _revivers (mgr s1) = Some rs
        ∧ did = forallb (reader_recovered env) rs.
Proof.
  unfold _recover_changelogs. intros H.
  apply bind_ok_inv in H as (m & s0 & _ & H).
  apply bind_ok_inv in H as (rs & s2 & _ & H).
  apply bind_ok_inv in H as ([] & s3 & Hset & H).
  injection Hset as <-.
  exists rs.
  pose proof (reviver_loops_same_revivers env rs
                {| mgr := set_revivers (Some rs) (mgr s2); trace := trace s2 |})
    as Hsame.
  unfold same_revivers in Hsame. rewrite H in Hsame. simpl in Hsame.
  split; [exact Hsame |].
  repeat (apply bind_ok_inv in H as ([] & ? & _ & H)).
  injection H as <- _. reflexivity.
Qed.

Lemma recover_until_check_result env assigned s did s1 :
  recover_until_check env assigned s = (Ok did, s1) →
  ∃ rs, _revivers (mgr s1) = Some rs
        ∧ did = forallb (reader_recovered env) rs.
Proof.
  unfold recover_until_check.
  destruct (negb _); intros H; [discriminate H |].
  apply bind_ok_inv in H as ([] & ? & _ & H).
  apply bind_ok_inv in H as ([] & ? & _ & H).
  apply bind_ok_inv in H as (? & ? & _ & H).
  apply bind_ok_inv in H as ([] & ? & _ & H).
  eapply recover_changelogs_result, H.
Qed.

(** C5 (P8): take a recovery that reaches the test of [did_recover] with
    some reviver that does not report recovered, or with the manager
    stopped.  Then [_recover] returns with the recovery-completed latch
    and the standby readers as they were before the cycle, and none of
    the calls it made starts a standby reader, runs recover callbacks,
    starts a table, seeks the consumer or resumes partitions. *)
Theorem recover_interrupted (env : Env) (assigned : list TP)
    (s s1 : Sys) (did : bool) :
  recover_until_check env assigned s = (Ok did, s1) →
  ((∃ r, r ∈ default [] (_revivers (mgr s1))
         ∧ reader_recovered env r = false)
   ∨ stopped_is_set env = true) →
  ∃ s', _recover env assigned s = (Ok tt, s')
        ∧ recovery_completed (mgr s') = recovery_completed (mgr s)
        ∧ _standbys (mgr s') = _standbys (mgr s)
        ∧ ∃ evs, trace s' = trace s ++ evs
                 ∧ Forall (λ e, completes_recovery e = false) evs.
Proof.
  intros Hcheck Hcause.
  assert (Hbranch : did && negb (stopped_is_set env) = false).
  { destruct Hcause as [(r & Hr & Hnot) | Hstop].
    - destruct (recover_until_check_result _ _ _ _ _ Hcheck)
        as (rs & Hrs & ->).
      rewrite Hrs in Hr. simpl in Hr.
      apply andb_false_iff. left.
      destruct (forallb (reader_recovered env) rs) eqn:E; [| reflexivity].
      rewrite forallb_forall in E.
      specialize (E r (proj1 (list_elem_of_In _ _) Hr)). congruence.
    - rewrite Hstop. apply andb_false_r. }
  pose proof (recover_until_check_quiet env assigned s) as Hquiet.
  rewrite Hcheck in Hquiet. simpl in Hquiet.
  destruct Hquiet as (Hlatch & Hstandbys & evs & Htrace & Hevs).
  unfold _recover, bind. rewrite Hcheck, Hbranch. simpl.
  eexists. split; [reflexivity |]. simpl.
  split; [exact Hlatch |]. split; [exact Hstandbys |].
  exists (evs ++ [EvLog "Recovery interrupted"]). split.
  - rewrite Htrace. symmetry. apply app_assoc.
  - apply Forall_app. split; [exact Hevs |].
    constructor; [reflexivity | constructor].
Qed.

Lemma recover_interrupted_witness :
  (∃ did s1,
     recover_until_check env_S5 assigned_S4 sys_orders = (Ok did, s1)
     ∧ ∃ r, r ∈ default [] (_revivers (mgr s1))
            ∧ reader_recovered env_S5 r = false)
  ∧ ∃ s', _recover env_S5 assigned_S4 sys_orders = (Ok tt, s')
          ∧ recovery_completed (mgr s') = recovery_completed (mgr sys_orders)
          ∧ _standbys (mgr s') = _standbys (mgr sys_orders)
          ∧ ∃ evs, trace s' = trace sys_orders ++ evs
                   ∧ Forall (λ e, completes_recovery e = false) evs.
Proof.
  assert (Hcheck : recover_until_check env_S5 assigned_S4 sys_orders
                   = (Ok false,
                      snd (recover_until_check env_S5 assigned_S4 sys_orders)))
    by (vm_compute; reflexivity).
  assert (Hcause : ∃ r,
             r ∈ default [] (_revivers (mgr (snd (recover_until_check
                                env_S5 assigned_S4 sys_orders))))
             ∧ reader_recovered env_S5 r = false).
  { destruct (default [] (_revivers (mgr (snd (recover_until_check
                env_S5 assigned_S4 sys_orders))))) as [| r0 rs] eqn:E.
    - vm_compute in E. discriminate E.
    - exists r0. split; [apply list_elem_of_here | reflexivity]. }
  split.
  - exists false, (snd (recover_until_check env_S5 assigned_S4 sys_orders)).
    split; [exact Hcheck | exact Hcause].
  - exact (recover_interrupted env_S5 assigned_S4 sys_orders _ false
             Hcheck (or_introl Hcause)).
Defined.

(** Scenario S4, for contrast: when the reader reports recovered and the
    manager is not stopped, the same cycle sets the latch, starts the
    standby, folds offset 150, and ends by resuming the one assigned
    partition that is not a changelog. *)
Example recover_S4_completes :
  ∃ s', _recover env_S4 assigned_S4 sys_orders = (Ok tt, s')
        ∧ recovery_completed (mgr s') = true
        ∧ length (_standbys (mgr s')) = 1%nat
        ∧ offset_get (_table_offsets (mgr s')) tp_log0 = 150
        ∧ List.last (trace s') EvPerformSeek
          = EvResumePartitions [("clicks"%string, 0)]
        ∧ length (List.filter completes_recovery (trace s')) = 5%nat.
Proof.
  eexists. split; [vm_compute; reflexivity |].
  repeat split; vm_compute; reflexivity.
Qed.

End ManagerFacts.

(* ===================================================================== *)
(** * Properties of the attachment buffer *)
(* ===================================================================== *)

Section AttachedFacts.
Import Attached Examples.

(** ** Flattening a dictionary *)

Lemma flat_empty `{Countable K} {V X} (g : V → list X) :
  flat g (∅ : gmap K V) = [].
Proof. unfold flat. rewrite map_to_list_empty. reflexivity. Qed.

Lemma flat_insert `{Countable K} {V X} (g : V → list X) (m : gmap K V) k v :
  flat g (<[k := v]> m) ≡ₚ g v ++ flat g (delete k m).
Proof.
  unfold flat. rewrite <- insert_delete_eq.
  rewrite map_to_list_insert by apply lookup_delete_eq.
  reflexivity.
Qed.

Lemma flat_lookup `{Countable K} {V X} (g : V → list X) (m : gmap K V) k :
  flat g m ≡ₚ from_option g [] (m !! k) ++ flat g (delete k m).
Proof.
  destruct (m !! k) as [v |] eqn:E; simpl.
  - rewrite <- (insert_id m k v E) at 1. apply flat_insert.
  - rewrite delete_id by exact E. reflexivity.
Qed.

(** ** What the two dictionary accesses return *)

Lemma getitem_tp_fst (tp : TP) (p : pending_map) :
  fst (getitem_tp tp p) = default ∅ (p !! tp).
Proof. unfold getitem_tp. destruct (p !! tp); reflexivity. Qed.

Lemma getitem_tp_delete (tp : TP) (p : pending_map) :
  delete tp (snd (getitem_tp tp p)) = delete tp p.
Proof.
  unfold getitem_tp. destruct (p !! tp); simpl; [reflexivity |].
  apply delete_insert_eq.
Qed.

Lemma getitem_offset_fst (off : Z) (inner : gmap Z (list FutureMessage)) :
  fst (getitem_offset off inner) = default [] (inner !! off).
Proof. unfold getitem_offset. destruct (inner !! off); reflexivity. Qed.

Lemma getitem_offset_delete (off : Z) (inner : gmap Z (list FutureMessage)) :
  delete off (snd (getitem_offset off inner)) = delete off inner.
Proof.
  unfold getitem_offset. destruct (inner !! off); simpl; [reflexivity |].
  apply delete_insert_eq.
Qed.

Lemma buf_futs_split (tp : TP) (off : Z) (p : pending_map) :
  buf_futs p
  ≡ₚ default [] (default ∅ (p !! tp) !! off)
     ++ flat id (delete off (default ∅ (p !! tp)))
     ++ buf_futs (delete tp p).
Proof.
  unfold buf_futs. rewrite (flat_lookup (flat id) p tp).
  rewrite app_assoc. apply Permutation_app_tail.
  destruct (p !! tp) as [inner |]; simpl.
  - rewrite (flat_lookup id inner off).
    destruct (inner !! off); reflexivity.
  - rewrite lookup_empty. simpl. rewrite delete_empty, flat_empty.
    reflexivity.
Qed.

(** [put] adds the future to the buffer, and nothing else. *)
Lemma put_fut_futs (tp : TP) (off : Z) (fut : FutureMessage) (p : pending_map) :
  buf_futs (put_fut tp off fut p) ≡ₚ fut :: buf_futs p.
Proof.
  unfold put_fut.
  pose proof (getitem_tp_fst tp p) as H1.
  pose proof (getitem_tp_delete tp p) as H2.
  destruct (getitem_tp tp p) as [inner p1]. simpl in H1, H2. subst inner.
  pose proof (getitem_offset_fst off (default ∅ (p !! tp))) as H3.
  pose proof (getitem_offset_delete off (default ∅ (p !! tp))) as H4.
  destruct (getitem_offset off (default ∅ (p !! tp))) as [l inner1].
  simpl in H3, H4. subst l.
  rewrite (buf_futs_split tp off p).
  unfold buf_futs at 1. rewrite flat_insert, flat_insert.
  rewrite H2, H4. fold (buf_futs (delete tp p)). unfold id at 1.
  rewrite <- !app_assoc. simpl.
  symmetry. apply Permutation_middle.
Qed.

(** [_attachments_for] takes the popped list out of the buffer, and
    nothing else. *)
Lemma attachments_for_futs (tp : TP) (off : Z) (p : pending_map) :
  buf_futs p
  ≡ₚ default [] (fst (_attachments_for tp off p))
     ++ buf_futs (snd (_attachments_for tp off p)).
Proof.
  unfold _attachments_for.
  pose proof (getitem_tp_fst tp p) as H1.
  pose proof (getitem_tp_delete tp p) as H2.
  destruct (getitem_tp tp p) as [inner p1]. simpl in *. subst inner.
  rewrite (buf_futs_split tp off p).
  unfold buf_futs at 2. rewrite flat_insert, H2.
  fold (buf_futs (delete tp p)). reflexivity.
Qed.

Lemma attachments_for_entry (tp : TP) (off : Z) (p : pending_map) :
  entry tp off (snd (_attachments_for tp off p)) = None.
Proof.
  unfold _attachments_for, entry.
  destruct (getitem_tp tp p) as [inner p1]. simpl.
  rewrite lookup_insert_eq. simpl. apply lookup_delete_eq.
Qed.

Lemma falsy_list_default {A} (o : option (list A)) :
  truthy_list o = false → default [] o = [].
Proof. destruct o as [[| x l] |]; simpl; congruence. Qed.

(** ** Every future is in one place *)

Lemma todo_futs_app (a b : list task) :
  todo_futs (a ++ b) = todo_futs a ++ todo_futs b.
Proof. unfold todo_futs. apply bind_app. Qed.

(** Replacing task [i] replaces its futures and no others. *)
Lemma todo_futs_insert (ts : list task) (i : nat) (t t' : task) :
  ts !! i = Some t →
  ∃ rest, todo_futs ts ≡ₚ task_todo t ++ rest
          ∧ todo_futs (<[i := t']> ts) ≡ₚ task_todo t' ++ rest.
Proof.
  intros Hi.
  exists (todo_futs (take i ts) ++ todo_futs (drop (S i) ts)).
  assert (Hlen : (i < length ts)%nat) by (eapply lookup_lt_Some, Hi).
  split.
  - rewrite <- (take_drop_middle ts i t Hi) at 1.
    rewrite todo_futs_app. unfold todo_futs at 2. rewrite bind_cons.
    fold (todo_futs (drop (S i) ts)).
    rewrite !app_assoc. apply Permutation_app_tail, Permutation_app_comm.
  - rewrite (insert_take_drop ts i t' Hlen).
    rewrite todo_futs_app. unfold todo_futs at 2. rewrite bind_cons.
    fold (todo_futs (drop (S i) ts)).
    rewrite !app_assoc. apply Permutation_app_tail, Permutation_app_comm.
Qed.

Lemma futs_ok_perm (ts ts' : list task) (w w' : World) :
  all_futs ts' w' ≡ₚ all_futs ts w →
  next_fut w' = next_fut w →
  futs_ok ts w → futs_ok ts' w'.
Proof.
  intros Hperm Hnext [Hnd Hids]. unfold futs_ok.
  rewrite Hperm, Hnext. split; assumption.
Qed.

Lemma futs_ok_fresh (ts ts' : list task) (w w' : World) (fut : FutureMessage) :
  all_futs ts' w' ≡ₚ fut :: all_futs ts w →
  fut_id fut = next_fut w →
  next_fut w' = S (next_fut w) →
  futs_ok ts w → futs_ok ts' w'.
Proof.
  intros Hperm Hid Hnext [Hnd Hids]. unfold futs_ok.
  rewrite Hperm, Hnext. split.
  - apply NoDup_cons. split; [| exact Hnd].
    intros Hin. rewrite Forall_forall in Hids.
    specialize (Hids fut Hin). lia.
  - constructor; [lia |].
    eapply Forall_impl; [exact Hids |]. simpl. intros f Hf. lia.
Qed.

(** One uninterrupted piece of any task keeps every future in one
    place. *)
Lemma task_step_futs_ok (ts : list task) (w : World) (i : nat) (t : task) :
  ts !! i = Some t →
  futs_ok ts w →
  futs_ok (<[i := fst (task_step t w)]> ts) (snd (task_step t w)).
Proof.
  intros Hi Hok.
  destruct (todo_futs_insert ts i t (fst (task_step t w)) Hi)
    as (rest & Hold & Hnew).
  destruct t as [tp off m | tp off | [| fut todo] |]; simpl in *.
  - (* put *)
    eapply (futs_ok_fresh ts _ w _ {| fut_id := next_fut w; fut_message := m |});
      [| reflexivity | reflexivity | exact Hok].
    unfold all_futs. simpl. rewrite put_fut_futs, Hnew, Hold. reflexivity.
  - (* commit, first piece *)
    pose proof (attachments_for_futs tp off (pending w)) as Hbuf.
    destruct (_attachments_for tp off (pending w)) as [attached p1].
    simpl in *.
    eapply (futs_ok_perm ts _ w _); [| reflexivity | exact Hok].
    unfold all_futs. simpl. rewrite Hbuf, Hnew, Hold. simpl.
    destruct (truthy_list attached) eqn:E; simpl.
    + rewrite <- !app_assoc.
      rewrite (app_assoc (buf_futs p1)), (app_assoc (default [] attached)).
      apply Permutation_app_tail, Permutation_app_comm.
    + rewrite (falsy_list_default _ E). reflexivity.
  - (* commit, nothing left to publish *)
    eapply (futs_ok_perm ts _ w _); [| reflexivity | exact Hok].
    unfold all_futs. rewrite Hnew, Hold. reflexivity.
  - (* commit, one publish *)
    eapply (futs_ok_perm ts _ w _); [| reflexivity | exact Hok].
    unfold all_futs. simpl. rewrite Hnew, Hold. simpl.
    apply Permutation_app_head.
    rewrite app_assoc.
    exact (Permutation_app_comm ((todo ++ rest) ++ sent w) [fut]).
  - (* finished *)
    eapply (futs_ok_perm ts _ w _); [| reflexivity | exact Hok].
    unfold all_futs. rewrite Hnew, Hold. reflexivity.
Qed.

Lemma run_futs_ok (schedule : list nat) (ts : list task) (w : World) :
  futs_ok ts w →
  futs_ok (fst (run schedule ts w)) (snd (run schedule ts w)).
Proof.
  revert ts w. induction schedule as [| i schedule IH]; intros ts w Hok.
  - exact Hok.
  - simpl. destruct (ts !! i) as [t |] eqn:Hi; [| apply IH, Hok].
    pose proof (task_step_futs_ok ts w i t Hi Hok) as Hstep.
    destruct (task_step t w) as [t' w']. apply IH, Hstep.
Qed.

Lemma not_started_todo (ts : list task) :
  Forall not_started ts → todo_futs ts = [].
Proof.
  induction 1 as [| t ts Ht _ IH]; [reflexivity |].
  unfold todo_futs. rewrite bind_cons. fold (todo_futs ts). rewrite IH.
  destruct t; simpl in *; try contradiction; reflexivity.
Qed.

Lemma futs_ok_init (ts : list task) :
  Forall not_started ts → futs_ok ts init.
Proof.
  intros Hts. unfold futs_ok, all_futs. simpl.
  rewrite (not_started_todo ts Hts).
  unfold buf_futs. rewrite flat_empty. simpl.
  split; constructor.
Qed.

(** ** [commit] as a function and as a task *)

Lemma attachments_for_fst (tp : TP) (off : Z) (p : pending_map) :
  fst (_attachments_for tp off p) = entry tp off p.
Proof.
  unfold _attachments_for, entry, getitem_tp.
  destruct (p !! tp) as [inner |]; simpl; [reflexivity |].
  apply lookup_empty.
Qed.

Lemma commit_sent (tp : TP) (off : Z) (w : World) :
  sent (commit tp off w) = sent w ++ default [] (entry tp off (pending w)).
Proof.
  unfold commit. rewrite <- attachments_for_fst.
  destruct (_attachments_for tp off (pending w)) as [attached p1]. simpl.
  destruct (truthy_list attached) eqn:E; simpl; [reflexivity |].
  rewrite (falsy_list_default _ E). symmetry. apply app_nil_r.
Qed.

Lemma commit_entry (tp : TP) (off : Z) (w : World) :
  entry tp off (pending (commit tp off w)) = None.
Proof.
  unfold commit.
  pose proof (attachments_for_entry tp off (pending w)) as H.
  destruct (_attachments_for tp off (pending w)) as [attached p1].
  destruct (truthy_list attached); exact H.
Qed.

Lemma publishing_runs (todo : list FutureMessage) (w : World) :
  run (replicate (S (length todo)) 0%nat) [TPublishing todo] w
  = ([TDone], {| pending := pending w; sent := sent w ++ todo;
                 next_fut := next_fut w |}).
Proof.
  revert w. induction todo as [| fut todo IH]; intros w.
  - simpl. rewrite app_nil_r. destruct w; reflexivity.
  - change (run (replicate (S (length (fut :: todo))) 0%nat)
              [TPublishing (fut :: todo)] w)
      with (run (replicate (S (length todo)) 0%nat) [TPublishing todo]
              {| pending := pending w; sent := sent w ++ [fut];
                 next_fut := next_fut w |}).
    rewrite IH. simpl. rewrite <- app_assoc. reflexivity.
Qed.

(** Left alone, the task of [commit(tp, off)] does what the function
    does. *)
Lemma commit_runs (tp : TP) (off : Z) (w : World) :
  ∃ n, run (replicate n 0%nat) [TCommit tp off] w
       = ([TDone], commit tp off w).
Proof.
  unfold commit.
  destruct (_attachments_for tp off (pending w)) as [attached p1] eqn:E.
  destruct (truthy_list attached) eqn:Et.
  - exists (S (S (length (default [] attached)))).
    change (replicate (S (S (length (default [] attached)))) 0%nat)
      with (0%nat :: replicate (S (length (default [] attached))) 0%nat).
    cbn [run lookup list_lookup task_step]. rewrite E, Et.
    cbn [insert list_insert]. rewrite publishing_runs. reflexivity.
  - exists 1%nat. cbn [replicate run lookup list_lookup task_step].
    rewrite E, Et. reflexivity.
Qed.

(** ** The key stays absent *)

Lemma put_fut_entry_other (tp tp' : TP) (off off' : Z) (fut : FutureMessage)
    (p : pending_map) :
  ¬ (tp' = tp ∧ off' = off) →
  entry tp off (put_fut tp' off' fut p) = entry tp off p.
Proof.
  intros Hne. unfold put_fut, entry, getitem_tp, getitem_offset.
  destruct (decide (tp' = tp)) as [-> | Htp].
  - assert (Hoff : off' ≠ off) by (intros ->; apply Hne; auto).
    destruct (p !! tp) as [inner |]; simpl.
    + destruct (inner !! off') eqn:E; simpl;
        rewrite lookup_insert_eq; simpl;
        rewrite !lookup_insert_ne by exact Hoff; reflexivity.
    + rewrite lookup_empty. rewrite lookup_insert_eq. simpl.
      rewrite !lookup_insert_ne by exact Hoff. apply lookup_empty.
  - destruct (p !! tp') as [inner |]; simpl.
    + destruct (inner !! off'); simpl;
        rewrite lookup_insert_ne by exact Htp; reflexivity.
    + rewrite lookup_empty. rewrite !lookup_insert_ne by exact Htp.
      reflexivity.
Qed.

Lemma attachments_for_entry_absent (tp tp' : TP) (off off' : Z)
    (p : pending_map) :
  entry tp off p = None →
  entry tp off (snd (_attachments_for tp' off' p)) = None.
Proof.
  unfold _attachments_for, entry, getitem_tp. intros Habsent.
  destruct (decide (tp' = tp)) as [-> | Htp].
  - destruct (p !! tp) as [inner |]; simpl in *;
      rewrite lookup_insert_eq; simpl.
    + destruct (decide (off' = off)) as [-> | Hoff].
      * apply lookup_delete_eq.
      * rewrite lookup_delete_ne by exact Hoff. exact Habsent.
    + rewrite delete_empty. apply lookup_empty.
  - destruct (p !! tp') as [inner |]; simpl;
      rewrite !lookup_insert_ne by exact Htp; exact Habsent.
Qed.

(** A piece of a task that is not a [put] at [(tp, off)] leaves the key
    absent, and the task does not turn into such a [put]. *)
Lemma task_step_entry_absent (tp : TP) (off : Z) (t : task) (w : World) :
  ¬ puts_at tp off t →
  entry tp off (pending w) = None →
  entry tp off (pending (snd (task_step t w))) = None
  ∧ ¬ puts_at tp off (fst (task_step t w)).
Proof.
  intros Hput Habsent.
  destruct t as [tp' off' m | tp' off' | [| fut todo] |]; simpl in *; auto.
  - split; [| auto]. rewrite put_fut_entry_other by exact Hput. exact Habsent.
  - pose proof (attachments_for_entry_absent tp tp' off off' (pending w)
                  Habsent) as H.
    destruct (_attachments_for tp' off' (pending w)) as [attached p1].
    simpl in *. split; [exact H |].
    destruct (truthy_list attached); simpl; auto.
Qed.

Lemma run_entry_absent (tp : TP) (off : Z) (schedule : list nat)
    (ts : list task) (w : World) :
  Forall (λ t, ¬ puts_at tp off t) ts →
  entry tp off (pending w) = None →
  entry tp off (pending (snd (run schedule ts w))) = None.
Proof.
  revert ts w. induction schedule as [| i schedule IH]; intros ts w Hts Hw.
  - exact Hw.
  - simpl. destruct (ts !! i) as [t |] eqn:Hi; [| apply IH; assumption].
    assert (Ht : ¬ puts_at tp off t)
      by (rewrite Forall_lookup in Hts; exact (Hts i t Hi)).
    destruct (task_step_entry_absent tp off t w Ht Hw) as [Hw' Ht'].
    destruct (task_step t w) as [t' w']. simpl in *.
    apply IH; [| exact Hw'].
    apply Forall_insert; assumption.
Qed.

(** C1 (P3, I2): [commit(tp, off)] leaves no entry at
    [buffer[tp][off]] and publishes the list that was there.  Its first
    uninterrupted piece removes the key and publishes nothing; from then
    on the key stays absent whatever runs, short of a new [put] at
    [(tp, off)], and a [commit(tp, off)] that finds it absent publishes
    nothing; in particular a second commit publishes nothing.  Whatever
    puts and commits run, and however the event loop interleaves them,
    no future is handed to the producer twice. *)
Theorem commit_removes_then_publishes_once (tp : TP) (off : Z) :
  (∀ w, entry tp off (pending (commit tp off w)) = None
        ∧ sent (commit tp off w)
          = sent w ++ default [] (entry tp off (pending w)))
  ∧ (∀ w, entry tp off (pending (snd (task_step (TCommit tp off) w))) = None
          ∧ sent (snd (task_step (TCommit tp off) w)) = sent w)
  ∧ (∀ ts schedule w,
       Forall (λ t, ¬ puts_at tp off t) ts →
       entry tp off (pending w) = None →
       entry tp off (pending (snd (run schedule ts w))) = None)
  ∧ (∀ w, entry tp off (pending w) = None →
          sent (commit tp off w) = sent w
          ∧ fst (task_step (TCommit tp off) w) = TDone)
  ∧ (∀ w, sent (commit tp off (commit tp off w)) = sent (commit tp off w))
  ∧ (∀ ts schedule,
       Forall not_started ts →
       NoDup (sent (snd (run schedule ts init)))).
Proof.
  split; [intros w; split; [apply commit_entry | apply commit_sent] |].
  split.
  { intros w. simpl.
    pose proof (attachments_for_entry tp off (pending w)) as H.
    destruct (_attachments_for tp off (pending w)) as [attached p1].
    split; [exact H | reflexivity]. }
  split; [intros ts schedule w; apply run_entry_absent |].
  split.
  { intros w Habsent. split.
    - rewrite commit_sent, Habsent. apply app_nil_r.
    - simpl. pose proof (attachments_for_fst tp off (pending w)) as H.
      destruct (_attachments_for tp off (pending w)) as [attached p1].
      simpl in H. rewrite H, Habsent. reflexivity. }
  split.
  { intros w. rewrite (commit_sent tp off (commit tp off w)), commit_entry.
    apply app_nil_r. }
  intros ts schedule Hts.
  pose proof (run_futs_ok schedule ts init (futs_ok_init ts Hts)) as [Hnd _].
  unfold all_futs in Hnd.
  apply NoDup_app in Hnd as (_ & _ & Hnd).
  apply NoDup_app in Hnd as (_ & _ & Hnd).
  exact Hnd.
Qed.

Lemma commit_removes_then_publishes_once_witness :
  Forall not_started tasks_S1
  ∧ NoDup (sent (snd (run schedule_S1 tasks_S1 init)))
  ∧ fut_id <$> sent (snd (run schedule_S1 tasks_S1 init)) = [0; 1]%nat
  ∧ entry tp_A0 5 (pending (snd (run schedule_S1 tasks_S1 init))) = None.
Proof.
  assert (Hts : Forall not_started tasks_S1)
    by (repeat constructor).
  split; [exact Hts |].
  split.
  - exact (proj2 (proj2 (proj2 (proj2 (proj2
             (commit_removes_then_publishes_once tp_A0 5)))))
             tasks_S1 schedule_S1 Hts).
  - split; vm_compute; reflexivity.
Defined.

End AttachedFacts.

(* ===================================================================== *)
(** * More on the attachment buffer *)
(* ===================================================================== *)

Section AttachedMore.
Import Attached Examples.

Lemma put_entry (tp : TP) (off : Z) (m : PendingMessage) (w : World) :
  entry tp off (pending (snd (put tp off m w)))
  = Some (default [] (entry tp off (pending w))
          ++ [{| fut_id := next_fut w; fut_message := m |}]).
Proof.
  unfold put, put_fut, entry, getitem_tp, getitem_offset. simpl.
  destruct (pending w !! tp) as [inner |]; simpl.
  - destruct (inner !! off) as [l |]; simpl;
      rewrite lookup_insert_eq; simpl; rewrite lookup_insert_eq; reflexivity.
  - rewrite lookup_empty. rewrite lookup_insert_eq. simpl.
    rewrite lookup_insert_eq. reflexivity.
Qed.

Lemma put_all_next (tp : TP) (off : Z) (ms : list PendingMessage) (w : World) :
  next_fut (put_all tp off ms w) = (next_fut w + length ms)%nat
  ∧ sent (put_all tp off ms w) = sent w.
Proof.
  unfold put_all. revert w. induction ms as [| m ms IH]; intros w.
  - simpl. split; [lia | reflexivity].
  - cbn [foldl]. destruct (IH (snd (put tp off m w))) as [H1 H2].
    rewrite H1, H2. simpl. split; [lia | reflexivity].
Qed.

Lemma put_all_entry (tp : TP) (off : Z) (ms : list PendingMessage) (w : World) :
  default [] (entry tp off (pending (put_all tp off ms w)))
  = default [] (entry tp off (pending w))
    ++ imap (λ i m, {| fut_id := next_fut w + i; fut_message := m |}) ms.
Proof.
  unfold put_all. revert w. induction ms as [| m ms IH]; intros w.
  - simpl. symmetry. apply app_nil_r.
  - cbn [foldl]. rewrite IH, put_entry. cbn [from_option id].
    rewrite <- app_assoc. f_equal. rewrite imap_cons. cbn [app].
    f_equal.
    + f_equal. lia.
    + apply imap_ext. intros i x _. cbn. f_equal. lia.
Qed.

(** X1: outputs attached to one source message are published by its
    commit in the order they were attached: after the entry that was
    already there come the futures of the puts, numbered from the next
    free identity, each with its own payload. *)
Theorem put_all_commit_fifo (tp : TP) (off : Z) (ms : list PendingMessage)
    (w : World) :
  sent (commit tp off (put_all tp off ms w))
  = sent w ++ default [] (entry tp off (pending w))
    ++ imap (λ i m, {| fut_id := next_fut w + i; fut_message := m |}) ms
  ∧ entry tp off (pending (commit tp off (put_all tp off ms w))) = None.
Proof.
  split; [| apply commit_entry].
  rewrite commit_sent. destruct (put_all_next tp off ms w) as [_ ->].
  f_equal. apply put_all_entry.
Qed.

Lemma attachments_for_entry_other (tp tp' : TP) (off off' : Z)
    (p : pending_map) :
  ¬ (tp' = tp ∧ off' = off) →
  entry tp off (snd (_attachments_for tp' off' p)) = entry tp off p.
Proof.
  intros Hne. unfold _attachments_for, entry, getitem_tp.
  destruct (decide (tp' = tp)) as [-> | Htp].
  - assert (Hoff : off' ≠ off) by (intros ->; apply Hne; auto).
    destruct (p !! tp) as [inner |]; simpl;
      rewrite lookup_insert_eq; simpl.
    + apply lookup_delete_ne, Hoff.
    + rewrite delete_empty. apply lookup_empty.
  - destruct (p !! tp') as [inner |]; simpl;
      rewrite !lookup_insert_ne by exact Htp; reflexivity.
Qed.

(** X2: attaching to, or committing, offset [off'] of [tp'] leaves what
    is attached to every other offset and partition as it was; a put
    publishes nothing, and a commit publishes nothing but the entry of
    its own key. *)
Theorem put_commit_frame (tp tp' : TP) (off off' : Z) (m : PendingMessage)
    (w : World) :
  ¬ (tp' = tp ∧ off' = off) →
  entry tp off (pending (snd (put tp' off' m w))) = entry tp off (pending w)
  ∧ sent (snd (put tp' off' m w)) = sent w
  ∧ entry tp off (pending (commit tp' off' w)) = entry tp off (pending w)
  ∧ (∀ f, f ∈ sent (commit tp' off' w) →
          f ∈ sent w ∨ f ∈ default [] (entry tp' off' (pending w))).
Proof.
  intros Hne.
  split; [apply put_fut_entry_other, Hne |].
  split; [reflexivity |].
  split.
  - unfold commit.
    pose proof (attachments_for_entry_other tp tp' off off' (pending w) Hne)
      as H.
    destruct (_attachments_for tp' off' (pending w)) as [attached p1].
    destruct (truthy_list attached); exact H.
  - intros f. rewrite commit_sent. apply elem_of_app.
Qed.

Lemma put_commit_frame_witness :
  ¬ (tp_A0 = tp_A0 ∧ 5 = 7)
  ∧ entry tp_A0 7 (pending (commit tp_A0 5 (snd (put tp_A0 7 (pm "b") init))))
    = Some [{| fut_id := 0; fut_message := pm "b" |}].
Proof.
  assert (Hne : ¬ (tp_A0 = tp_A0 ∧ 5 = 7)) by (intros [_ H]; discriminate H).
  split; [exact Hne |].
  rewrite (proj1 (proj2 (proj2 (put_commit_frame tp_A0 tp_A0 7 5 (pm "b")
                                  (snd (put tp_A0 7 (pm "b") init)) Hne)))).
  vm_compute. reflexivity.
Defined.

(** One uninterrupted piece of a task either moves futures around, or
    (a [put]) adds one new future with the next identity. *)
Lemma task_step_all_futs (ts : list task) (w : World) (i : nat) (t : task) :
  ts !! i = Some t →
  (all_futs (<[i := fst (task_step t w)]> ts) (snd (task_step t w))
   ≡ₚ all_futs ts w
   ∧ next_fut (snd (task_step t w)) = next_fut w)
  ∨ (∃ m, all_futs (<[i := fst (task_step t w)]> ts) (snd (task_step t w))
          ≡ₚ {| fut_id := next_fut w; fut_message := m |} :: all_futs ts w
          ∧ next_fut (snd (task_step t w)) = S (next_fut w)).
Proof.
  intros Hi.
  destruct (todo_futs_insert ts i t (fst (task_step t w)) Hi)
    as (rest & Hold & Hnew).
  destruct t as [tp off m | tp off | [| fut todo] |]; simpl in *.
  - right. exists m. split; [| reflexivity].
    unfold all_futs. simpl. rewrite put_fut_futs, Hnew, Hold. reflexivity.
  - left.
    pose proof (attachments_for_futs tp off (pending w)) as Hbuf.
    destruct (_attachments_for tp off (pending w)) as [attached p1].
    simpl in *. split; [| reflexivity].
    unfold all_futs. simpl. rewrite Hbuf, Hnew, Hold. simpl.
    destruct (truthy_list attached) eqn:E; simpl.
    + rewrite <- !app_assoc.
      rewrite (app_assoc (buf_futs p1)), (app_assoc (default [] attached)).
      apply Permutation_app_tail, Permutation_app_comm.
    + rewrite (falsy_list_default _ E). reflexivity.
  - left. split; [| reflexivity].
    unfold all_futs. rewrite Hnew, Hold. reflexivity.
  - left. split; [| reflexivity].
    unfold all_futs. simpl. rewrite Hnew, Hold. simpl.
    apply Permutation_app_head. rewrite app_assoc.
    exact (Permutation_app_comm ((todo ++ rest) ++ sent w) [fut]).
  - left. split; [| reflexivity].
    unfold all_futs. rewrite Hnew, Hold. reflexivity.
Qed.

Lemma task_step_io_all_futs (publish : FutureMessage → result unit)
    (ts : list task) (w : World) (i : nat) (t : task) :
  ts !! i = Some t →
  let '(t', w', given_up) := task_step_io publish t w in
  (all_futs (<[i := t']> ts) w' ++ given_up ≡ₚ all_futs ts w
   ∧ next_fut w' = next_fut w
   ∧ (given_up ≠ [] → ∃ f e, f ∈ given_up ∧ publish f = Raise e))
  ∨ (∃ m, all_futs (<[i := t']> ts) w'
          ≡ₚ {| fut_id := next_fut w; fut_message := m |} :: all_futs ts w
          ∧ next_fut w' = S (next_fut w)
          ∧ given_up = []).
Proof.
  intros Hi.
  assert (Hpure : ∀ t0 : task,
            t0 = t →
            task_step_io publish t w = (task_step t w, []) →
            let '(t', w', given_up) := task_step_io publish t w in
            (all_futs (<[i := t']> ts) w' ++ given_up ≡ₚ all_futs ts w
             ∧ next_fut w' = next_fut w
             ∧ (given_up ≠ [] → ∃ f e, f ∈ given_up ∧ publish f = Raise e))
            ∨ (∃ m, all_futs (<[i := t']> ts) w'
                    ≡ₚ {| fut_id := next_fut w; fut_message := m |}
                       :: all_futs ts w
                    ∧ next_fut w' = S (next_fut w)
                    ∧ given_up = [])).
  { intros _ _ Heq. rewrite Heq.
    pose proof (task_step_all_futs ts w i t Hi) as Hstep.
    destruct (task_step t w) as [t' w']. simpl in Hstep.
    destruct Hstep as [[Hperm Hnext] | (m & Hperm & Hnext)].
    - left. rewrite app_nil_r. split; [exact Hperm |].
      split; [exact Hnext |]. intros H. contradiction.
    - right. exists m. auto. }
  destruct t as [tp off m | tp off | [| fut todo] |];
    try (apply (Hpure _ eq_refl); reflexivity).
  destruct (publish fut) as [[] | e] eqn:Hp.
  - apply (Hpure _ eq_refl). unfold task_step_io. rewrite Hp. reflexivity.
  - unfold task_step_io. rewrite Hp.
    left. destruct (todo_futs_insert ts i _ TDone Hi) as (rest & Hold & Hnew).
    split; [| split; [reflexivity |]].
    + unfold all_futs. rewrite Hnew, Hold. simpl.
      rewrite <- !app_assoc. apply Permutation_app_head.
      rewrite (app_assoc rest), (Permutation_app_comm (rest ++ sent w)).
      reflexivity.
    + intros _. exists fut, e. split; [apply list_elem_of_here | exact Hp].
Qed.

Lemma run_io_accounted (publish : FutureMessage → result unit)
    (schedule : list nat) (ts : list task) (w : World)
    (lost : list FutureMessage) :
  fut_id <$> (all_futs ts w ++ lost) ≡ₚ seq 0 (next_fut w) →
  (lost ≠ [] → ∃ f e, f ∈ lost ∧ publish f = Raise e) →
  let '(ts', w', lost') := run_io publish schedule ts w lost in
  fut_id <$> (all_futs ts' w' ++ lost') ≡ₚ seq 0 (next_fut w')
  ∧ (lost' ≠ [] → ∃ f e, f ∈ lost' ∧ publish f = Raise e).
Proof.
  revert ts w lost.
  induction schedule as [| i schedule IH]; intros ts w lost Hw Hl.
  - simpl. auto.
  - simpl. destruct (ts !! i) as [t |] eqn:Hi; [| apply IH; assumption].
    pose proof (task_step_io_all_futs publish ts w i t Hi) as Hstep.
    destruct (task_step_io publish t w) as [[t' w'] given_up].
    apply IH.
    + destruct Hstep as [(Hperm & Hnext & _) | (m & Hperm & Hnext & ->)].
      * rewrite Hnext, <- Hw.
        rewrite (Permutation_app_comm lost), app_assoc, Hperm. reflexivity.
      * rewrite app_nil_r, Hnext, seq_S, Hperm. simpl. rewrite <- Hw.
        apply Permutation_cons_append.
    + intros Hne.
      destruct Hstep as [(_ & _ & Hg) | (m & _ & _ & ->)].
      * destruct lost as [| f0 lost0].
        -- simpl in *. destruct (Hg Hne) as (f & e & Hf & Hp). eauto.
        -- destruct (Hl ltac:(discriminate)) as (f & e & Hf & Hp).
           exists f, e. split; [| exact Hp]. apply elem_of_app. auto.
      * rewrite app_nil_r in *. exact (Hl Hne).
Qed.

Lemma run_io_never_fails (publish : FutureMessage → result unit)
    (schedule : list nat) (ts : list task) (w : World)
    (lost : list FutureMessage) :
  (∀ f, publish f = Ok tt) →
  run_io publish schedule ts w lost = (run schedule ts w, lost).
Proof.
  intros Hok. revert ts w lost.
  induction schedule as [| i schedule IH]; intros ts w lost.
  - reflexivity.
  - simpl. destruct (ts !! i) as [t |] eqn:Hi; [| apply IH].
    assert (Hstep : task_step_io publish t w = (task_step t w, [])).
    { destruct t as [tp off m | tp off | [| fut todo] |]; try reflexivity.
      unfold task_step_io. rewrite Hok. reflexivity. }
    rewrite Hstep. destruct (task_step t w) as [t' w'].
    rewrite app_nil_r. apply IH.
Qed.

(** X3: where every attached message is.  However puts and commits are
    interleaved and whichever publishes raise, each identity given out so
    far belongs to exactly one future, and that future is in exactly one
    place: in the buffer, held by a commit that is publishing, handed to
    the producer, or given up by a commit that a failed publish ended.
    None is made twice; one is given up only if some publish raised for
    a future given up; and when no publish raises the run is the one of
    the loop without failures and nothing is given up. *)
Theorem futures_accounted (publish : FutureMessage → result unit)
    (schedule : list nat) (ts : list task) :
  Forall not_started ts →
  let '(ts', w', lost) := run_io publish schedule ts init [] in
  fut_id <$> (all_futs ts' w' ++ lost) ≡ₚ seq 0 (next_fut w')
  ∧ (lost ≠ [] → ∃ f e, f ∈ lost ∧ publish f = Raise e)
  ∧ ((∀ f, publish f = Ok tt) →
     lost = [] ∧ (ts', w') = run schedule ts init).
Proof.
  intros Hts.
  pose proof (run_io_accounted publish schedule ts init []) as Hacc.
  pose proof (run_io_never_fails publish schedule ts init []) as Hnf.
  destruct (run_io publish schedule ts init []) as [[ts' w'] lost].
  destruct Hacc as [H1 H2].
  - unfold all_futs. simpl. rewrite (not_started_todo ts Hts).
    unfold buf_futs. rewrite flat_empty. reflexivity.
  - intros H. contradiction.
  - split; [exact H1 |]. split; [exact H2 |].
    intros Hok. specialize (Hnf Hok). injection Hnf as <- <-.
    split; [reflexivity |]. destruct (run schedule ts init). reflexivity.
Qed.

Lemma futures_accounted_witness :
  Forall not_started [TPut tp_A0 5 (pm "a"); TPut tp_A0 5 (pm "b");
                      TCommit tp_A0 5]
  ∧ ∃ ts' w' lost,
      run_io publish_fails_on_1 [0; 1; 2; 2; 2]%nat
        [TPut tp_A0 5 (pm "a"); TPut tp_A0 5 (pm "b"); TCommit tp_A0 5]
        init []
      = (ts', w', lost)
      ∧ fut_id <$> (all_futs ts' w' ++ lost) ≡ₚ [0; 1]%nat
      ∧ fut_id <$> sent w' = [0%nat]
      ∧ fut_id <$> lost = [1%nat].
Proof.
  assert (Hts : Forall not_started [TPut tp_A0 5 (pm "a");
                                    TPut tp_A0 5 (pm "b"); TCommit tp_A0 5])
    by (repeat constructor).
  split; [exact Hts |].
  pose proof (futures_accounted publish_fails_on_1 [0; 1; 2; 2; 2]%nat _ Hts)
    as H.
  destruct (run_io publish_fails_on_1 [0; 1; 2; 2; 2]%nat
              [TPut tp_A0 5 (pm "a"); TPut tp_A0 5 (pm "b"); TCommit tp_A0 5]
              init []) as [[ts' w'] lost] eqn:E.
  exists ts', w', lost. split; [reflexivity |].
  destruct H as (Hacc & _ & _).
  vm_compute in E. injection E as <- <- <-.
  split; [exact Hacc |]. split; reflexivity.
Defined.

(** ** The partitions the buffer knows *)

Lemma put_fut_keeps_tp (tp tp' : TP) (off' : Z) (fut : FutureMessage)
    (p : pending_map) :
  is_Some (p !! tp) → is_Some (put_fut tp' off' fut p !! tp).
Proof.
  intros Hin. unfold put_fut, getitem_tp, getitem_offset.
  destruct (decide (tp' = tp)) as [-> | Hne].
  - destruct (p !! tp); simpl;
      destruct (_ !! off'); rewrite lookup_insert_eq; eauto.
  - destruct (p !! tp'); simpl; destruct (_ !! off');
      rewrite !lookup_insert_ne by exact Hne; exact Hin.
Qed.

Lemma attachments_for_keeps_tp (tp tp' : TP) (off' : Z) (p : pending_map) :
  is_Some (p !! tp) → is_Some (snd (_attachments_for tp' off' p) !! tp).
Proof.
  intros Hin. unfold _attachments_for, getitem_tp.
  destruct (decide (tp' = tp)) as [-> | Hne].
  - destruct (p !! tp); simpl; rewrite lookup_insert_eq; eauto.
  - destruct (p !! tp'); simpl;
      rewrite !lookup_insert_ne by exact Hne; exact Hin.
Qed.

Lemma run_keeps_tp (tp : TP) (schedule : list nat) (ts : list task)
    (w : World) :
  is_Some (pending w !! tp) →
  is_Some (pending (snd (run schedule ts w)) !! tp).
Proof.
  revert ts w. induction schedule as [| i schedule IH]; intros ts w Hw.
  - exact Hw.
  - simpl. destruct (ts !! i) as [t |]; [| apply IH, Hw].
    assert (Hstep : is_Some (pending (snd (task_step t w)) !! tp)).
    { destruct t as [tp' off' m | tp' off' | [| fut todo] |]; simpl; auto.
      - apply put_fut_keeps_tp, Hw.
      - pose proof (attachments_for_keeps_tp tp tp' off' (pending w) Hw) as H.
        destruct (_attachments_for tp' off' (pending w)). exact H. }
    destruct (task_step t w) as [t' w']. apply IH, Hstep.
Qed.

(** X4: the buffer never forgets a partition.  A commit for a partition
    it has not seen publishes nothing but leaves an empty dictionary
    under that partition, a commit that empties a partition leaves its
    dictionary in place, and no run of puts and commits removes a
    partition key. *)
Theorem partition_keys_only_grow (tp : TP) (off : Z) (w : World) :
  (pending w !! tp = None →
   pending (commit tp off w) !! tp = Some ∅ ∧ sent (commit tp off w) = sent w)
  ∧ is_Some (pending (commit tp off w) !! tp)
  ∧ (∀ schedule ts,
       is_Some (pending w !! tp) →
       is_Some (pending (snd (run schedule ts w)) !! tp)).
Proof.
  split; [| split].
  - intros Hnone. split.
    + unfold commit, _attachments_for, getitem_tp. rewrite Hnone. simpl.
      rewrite lookup_empty. simpl. rewrite lookup_insert_eq, delete_empty.
      reflexivity.
    + rewrite commit_sent. unfold entry. rewrite Hnone. apply app_nil_r.
  - unfold commit, _attachments_for, getitem_tp.
    destruct (pending w !! tp) as [inner |]; simpl;
      destruct (truthy_list _); simpl; rewrite lookup_insert_eq; eauto.
  - intros schedule ts. apply run_keeps_tp.
Qed.

Lemma partition_keys_only_grow_witness :
  pending init !! tp_A0 = None
  ∧ pending (commit tp_A0 5 init) !! tp_A0 = Some ∅
  ∧ is_Some (pending (snd (run schedule_S1 tasks_S1 (commit tp_A0 5 init)))
               !! tp_A0).
Proof.
  assert (Hnone : pending init !! tp_A0 = None) by reflexivity.
  pose proof (partition_keys_only_grow tp_A0 5 init) as (H1 & H2 & _).
  pose proof (partition_keys_only_grow tp_A0 5 (commit tp_A0 5 init))
    as (_ & _ & H3).
  split; [exact Hnone |]. split; [exact (proj1 (H1 Hnone)) |].
  apply H3. exact H2.
Defined.

(** ** A publish that raises *)

Lemma publish_each_ok (publish : FutureMessage → result unit)
    (futs sent0 : list FutureMessage) :
  (∀ g, g ∈ futs → publish g = Ok tt) →
  publish_each publish futs sent0 = (Ok tt, sent0 ++ futs).
Proof.
  revert sent0. induction futs as [| f futs IH]; intros sent0 Hok; simpl.
  - rewrite app_nil_r. reflexivity.
  - rewrite (Hok f) by apply list_elem_of_here.
    rewrite IH by (intros g Hg; apply Hok, list_elem_of_further, Hg).
    rewrite <- app_assoc. reflexivity.
Qed.

Lemma publish_each_raise (publish : FutureMessage → result unit)
    (l1 l2 sent0 : list FutureMessage) (f : FutureMessage) (e : exn) :
  (∀ g, g ∈ l1 → publish g = Ok tt) →
  publish f = Raise e →
  publish_each publish (l1 ++ f :: l2) sent0 = (Raise e, sent0 ++ l1).
Proof.
  revert sent0. induction l1 as [| g l1 IH]; intros sent0 Hok Hf; simpl.
  - rewrite Hf, app_nil_r. reflexivity.
  - rewrite (Hok g) by apply list_elem_of_here.
    rewrite IH; [| intros h Hh; apply Hok, list_elem_of_further, Hh | exact Hf].
    rewrite <- app_assoc. reflexivity.
Qed.

(** When no publish raises, [commit_io] is [commit]. *)
Lemma commit_io_ok (publish : FutureMessage → result unit) (tp : TP) (off : Z)
    (w : World) :
  (∀ g, publish g = Ok tt) →
  commit_io publish tp off w = (Ok tt, commit tp off w).
Proof.
  intros Hok. unfold commit_io, commit.
  destruct (_attachments_for tp off (pending w)) as [attached p1].
  destruct (truthy_list attached); [| reflexivity].
  rewrite publish_each_ok by (intros g _; apply Hok). reflexivity.
Qed.

(** X5: [commit] is not all-or-nothing.  When the publish of one
    attached future raises, the exception leaves [commit] with the
    futures before it published and the whole entry already popped: the
    failed future and those after it are no longer in the buffer and
    were not published, and a second [commit] of the same offset
    publishes nothing. *)
Theorem commit_io_failure_drops_rest
    (publish : FutureMessage → result unit) (tp : TP) (off : Z) (w : World)
    (l1 l2 : list FutureMessage) (f : FutureMessage) (e : exn) :
  entry tp off (pending w) = Some (l1 ++ f :: l2) →
  (∀ g, g ∈ l1 → publish g = Ok tt) →
  publish f = Raise e →
  fst (commit_io publish tp off w) = Raise e
  ∧ sent (snd (commit_io publish tp off w)) = sent w ++ l1
  ∧ entry tp off (pending (snd (commit_io publish tp off w))) = None
  ∧ buf_futs (pending w)
    ≡ₚ (l1 ++ f :: l2) ++ buf_futs (pending (snd (commit_io publish tp off w)))
  ∧ sent (snd (commit_io publish tp off (snd (commit_io publish tp off w))))
    = sent w ++ l1.
Proof.
  intros Hentry Hok Hf.
  assert (Hio : commit_io publish tp off w
                = (Raise e,
                   {| pending := snd (_attachments_for tp off (pending w));
                      sent := sent w ++ l1; next_fut := next_fut w |})).
  { unfold commit_io.
    pose proof (attachments_for_fst tp off (pending w)) as Hfst.
    destruct (_attachments_for tp off (pending w)) as [attached p1].
    simpl in *. rewrite Hfst, Hentry.
    assert (Ht : truthy_list (Some (l1 ++ f :: l2)) = true)
      by (destruct l1; reflexivity).
    rewrite Ht. simpl. rewrite (publish_each_raise _ _ _ _ _ _ Hok Hf).
    reflexivity. }
  rewrite Hio. simpl.
  split; [reflexivity |]. split; [reflexivity |].
  split; [apply attachments_for_entry |].
  split.
  - rewrite (attachments_for_futs tp off (pending w)) at 1.
    rewrite attachments_for_fst, Hentry. reflexivity.
  - unfold commit_io. simpl.
    pose proof (attachments_for_fst tp off
                  (snd (_attachments_for tp off (pending w)))) as Hfst.
    rewrite attachments_for_entry in Hfst.
    destruct (_attachments_for tp off
                (snd (_attachments_for tp off (pending w)))) as [a2 p2].
    simpl in Hfst. subst a2. reflexivity.
Qed.

Lemma commit_io_failure_drops_rest_witness :
  entry tp_A0 5 (pending world_3)
  = Some ([{| fut_id := 0; fut_message := pm "a" |}]
          ++ {| fut_id := 1; fut_message := pm "b" |}
             :: [{| fut_id := 2; fut_message := pm "c" |}])
  ∧ fst (commit_io publish_fails_on_1 tp_A0 5 world_3)
    = Raise (RuntimeError "send failed")
  ∧ sent (snd (commit_io publish_fails_on_1 tp_A0 5 world_3))
    = [{| fut_id := 0; fut_message := pm "a" |}]
  ∧ entry tp_A0 5 (pending (snd (commit_io publish_fails_on_1 tp_A0 5 world_3)))
    = None.
Proof.
  assert (Hentry : entry tp_A0 5 (pending world_3)
            = Some ([{| fut_id := 0; fut_message := pm "a" |}]
                    ++ {| fut_id := 1; fut_message := pm "b" |}
                       :: [{| fut_id := 2; fut_message := pm "c" |}]))
    by (vm_compute; reflexivity).
  assert (Hok : ∀ g, g ∈ [{| fut_id := 0; fut_message := pm "a" |}] →
                     publish_fails_on_1 g = Ok tt).
  { intros g Hg. apply list_elem_of_singleton in Hg. subst g. reflexivity. }
  assert (Hf : publish_fails_on_1 {| fut_id := 1; fut_message := pm "b" |}
               = Raise (RuntimeError "send failed")) by reflexivity.
  destruct (commit_io_failure_drops_rest publish_fails_on_1 tp_A0 5 world_3
              _ _ _ _ Hentry Hok Hf) as (H1 & H2 & H3 & _).
  split; [exact Hentry |]. split; [exact H1 |].
  split; [exact H2 | exact H3].
Defined.

End AttachedMore.

(* ===================================================================== *)
(** * Revocation and the attachment buffer *)
(* ===================================================================== *)

Section WorkerFacts.
Import Attached Examples.







End WorkerFacts.

(* ===================================================================== *)
(** * More on [Topic] *)
(* ===================================================================== *)

Section TopicMore.
Import Topics TopicOps Examples.

Lemma set_pattern_compiled (names : option (list string)) (pat : option Pattern) :
  set_pattern names (PatCompiled <$> pat)
  = if truthy_pattern pat && truthy_topics names
    then Raise (TypeError "Cannot specify both topics and pattern")
    else Ok pat.
Proof. destruct pat as [p |]; simpl; [| reflexivity].
  unfold set_pattern. simpl. destruct (truthy_topics names); reflexivity.
Qed.

(** X6: when [derive] succeeds and what it returns.  It succeeds exactly
    when no prefix or suffix is put on a topic with pattern, the topic
    does not end up with both a pattern and names, and the partition
    count is not 0.  The topic returned has the overrides given and
    otherwise the attributes of the original, except that it is never an
    iterator and its replication factor is the application's.  On a
    topic with pattern, [derive] with a non-empty list of names always
    raises. *)
Theorem derive_succeeds_iff (t : Topic) (d : DeriveArgs) :
  ((∃ t', derive t d = Ok t')
   ↔ ((truthy_str (d_suffix d) || truthy_str (d_prefix d))
        && truthy_pattern (_pattern t) = false
      ∧ truthy_pattern (_pattern t)
          && truthy_topics (override_opt (topics t) (d_topics d)) = false
      ∧ override (_partitions t) (d_partitions d) ≠ 0))
  ∧ (∀ t', derive t d = Ok t' →
       t' = {| app := app t;
               topics := override_opt (topics t) (d_topics d);
               _pattern := _pattern t;
               key_type := override_opt (key_type t) (d_key_type d);
               value_type := override_opt (value_type t) (d_value_type d);
               is_iterator := false;
               _partitions := override (_partitions t) (d_partitions d);
               retention := override_opt (retention t) (d_retention d);
               compacting := override_opt (compacting t) (d_compacting d);
               deleting := override_opt (deleting t) (d_deleting d);
               _replicas := replication_factor (app t);
               config := override (config t) (d_config d) |})
  ∧ (∀ names, _pattern t ≠ None → d_topics d = Some names → names ≠ [] →
       ∃ e, derive t d = Raise e).
Proof.
  assert (Heq : derive t d
    = if (truthy_str (d_suffix d) || truthy_str (d_prefix d))
           && truthy_pattern (_pattern t)
      then Raise (ValueError "Cannot add prefix/suffix to Topic with pattern")
      else if truthy_pattern (_pattern t)
                && truthy_topics (override_opt (topics t) (d_topics d))
      then Raise (TypeError "Cannot specify both topics and pattern")
      else if override (_partitions t) (d_partitions d) =? 0
      then Raise (ValueError "Topic cannot have 0 (zero partitions)")
      else Ok {| app := app t;
               topics := override_opt (topics t) (d_topics d);
               _pattern := _pattern t;
               key_type := override_opt (key_type t) (d_key_type d);
               value_type := override_opt (value_type t) (d_value_type d);
               is_iterator := false;
               _partitions := override (_partitions t) (d_partitions d);
               retention := override_opt (retention t) (d_retention d);
               compacting := override_opt (compacting t) (d_compacting d);
               deleting := override_opt (deleting t) (d_deleting d);
               _replicas := replication_factor (app t);
               config := override (config t) (d_config d) |}).
  { unfold derive. destruct (_ && truthy_pattern _); [reflexivity |].
    unfold Topic_init. cbn [a_topics a_pattern a_partitions].
    rewrite set_pattern_compiled.
    destruct (truthy_pattern _ && truthy_topics _); [reflexivity |].
    unfold set_partitions.
    destruct (override (_partitions t) (d_partitions d) =? 0); reflexivity. }
  rewrite Heq. clear Heq.
  split; [| split].
  - destruct ((truthy_str _ || truthy_str _) && truthy_pattern _);
      [split; [intros [t' H]; discriminate H | intros (H & _); discriminate H] |].
    destruct (truthy_pattern _ && truthy_topics _);
      [split; [intros [t' H]; discriminate H
              | intros (_ & H & _); discriminate H] |].
    destruct (Z.eqb_spec (override (_partitions t) (d_partitions d)) 0)
      as [E | E].
    + split; [intros [t' H]; discriminate H | intros (_ & _ & H); contradiction].
    + split; [auto | eauto].
  - intros t'.
    destruct (_ && truthy_pattern _); [discriminate |].
    destruct (truthy_pattern _ && truthy_topics _); [discriminate |].
    destruct (_ =? 0); [discriminate |]. congruence.
  - intros names Hpat Hnames Hne.
    destruct (_ && truthy_pattern _); [eauto |].
    assert (Hboth : truthy_pattern (_pattern t)
                    && truthy_topics (override_opt (topics t) (d_topics d))
                    = true).
    { rewrite Hnames. simpl. destruct (_pattern t); [| congruence].
      destruct names; [congruence | reflexivity]. }
    rewrite Hboth. eauto.
Qed.

Lemma derive_succeeds_iff_witness :
  _pattern topic_pat ≠ None
  ∧ Topics.d_topics (derive_names ["t1"%string]) = Some ["t1"%string]
  ∧ ["t1"%string] ≠ []
  ∧ ∃ e, derive topic_pat (derive_names ["t1"%string]) = Raise e.
Proof.
  assert (H1 : _pattern topic_pat ≠ None) by (simpl; congruence).
  assert (H2 : Topics.d_topics (derive_names ["t1"%string])
               = Some ["t1"%string]) by reflexivity.
  assert (H3 : ["t1"%string] ≠ []) by congruence.
  split; [exact H1 |]. split; [exact H2 |]. split; [exact H3 |].
  exact (proj2 (proj2 (derive_succeeds_iff topic_pat
                         (derive_names ["t1"%string])))
           ["t1"%string] H1 H2 H3).
Defined.

(** X7: building a topic from [_clone_args] brings back names, pattern,
    partitions, retention, both flags, the replication factor and the
    config map of the original, whatever the application's defaults; it
    needs the original to have a partition count other than 0 and not
    both names and a pattern.  (Unlike [derive], a clone keeps an
    explicit replication factor.) *)
Theorem clone_args_rebuild (a : App) (base : TopicArgs) (t : Topic) :
  truthy_pattern (_pattern t) && truthy_topics (topics t) = false →
  _partitions t ≠ 0 →
  Topic_init a (_clone_args base t)
  = Ok {| app := a; topics := topics t; _pattern := _pattern t;
          key_type := a_key_type base; value_type := a_value_type base;
          is_iterator := a_is_iterator base;
          _partitions := _partitions t; retention := retention t;
          compacting := compacting t; deleting := deleting t;
          _replicas := _replicas t; config := config t |}.
Proof.
  intros Hboth Hparts. unfold Topic_init, _clone_args.
  cbn [a_topics a_pattern a_partitions a_key_type a_value_type a_is_iterator
       a_retention a_compacting a_deleting a_replicas a_config].
  rewrite set_pattern_compiled, Hboth. unfold set_partitions.
  destruct (Z.eqb_spec (_partitions t) 0) as [E | _]; [contradiction |].
  reflexivity.
Qed.

Lemma clone_args_rebuild_witness :
  truthy_pattern (_pattern topic_r3) && truthy_topics (topics topic_r3) = false
  ∧ _partitions topic_r3 ≠ 0
  ∧ ∃ t', Topic_init app0 (_clone_args default_args topic_r3) = Ok t'
          ∧ _replicas t' = 3 ∧ _partitions t' = 8
          ∧ topics t' = Some ["t1"%string].
Proof.
  assert (H1 : truthy_pattern (_pattern topic_r3)
               && truthy_topics (topics topic_r3) = false) by reflexivity.
  assert (H2 : _partitions topic_r3 ≠ 0) by (simpl; lia).
  split; [exact H1 |]. split; [exact H2 |].
  eexists. split; [exact (clone_args_rebuild app0 default_args topic_r3 H1 H2) |].
  repeat split.
Defined.

(** ** Declaring a topic *)

Lemma maybe_declare_times_declared (create_topic : string → option exn)
    (t : Topic) (n : nat) :
  maybe_declare_times create_topic t n true
  = (true, replicate n (Ok tt), []).
Proof.
  induction n as [| n IH]; [reflexivity |].
  simpl. rewrite IH. reflexivity.
Qed.

Lemma create_each_ok (create_topic : string → option exn) (t : Topic)
    (names : list string) :
  (∀ n, n ∈ names → create_topic n = None) →
  create_each create_topic t names
  = (Ok tt,
     (λ n, CreateTopic n (_partitions t) (_replicas t) (config t)) <$> names).
Proof.
  induction names as [| n names IH]; intros Hok; [reflexivity |].
  simpl. rewrite (Hok n) by apply list_elem_of_here.
  rewrite IH by (intros x Hx; apply Hok, list_elem_of_further, Hx).
  reflexivity.
Qed.

(** The [create_topic] calls of [declare] go through the names in order
    and stop at the first that raises. *)
Lemma create_each_prefix (create_topic : string → option exn) (t : Topic)
    (names : list string) :
  ∃ k, snd (create_each create_topic t names)
       = (λ n, CreateTopic n (_partitions t) (_replicas t) (config t))
           <$> take k names.
Proof.
  induction names as [| n names [k IH]].
  - exists 0%nat. reflexivity.
  - simpl. destruct (create_topic n).
    + exists 1%nat. simpl. destruct names; reflexivity.
    + exists (S k). destruct (create_each create_topic t names) as [r cs].
      simpl in *. rewrite IH. reflexivity.
Qed.

(** X8: [maybe_declare] declares at most once.  However often it is
    called, the calls made on the producer are those of the first call:
    one [create_topic] per name, in order, with the topic's partitions,
    replication factor and config, up to the first one that raises.  The
    latch is set before declaring, so every later call returns without
    doing anything, whether the first one raised or not. *)
Theorem maybe_declare_once (create_topic : string → option exn) (t : Topic)
    (n : nat) :
  maybe_declare_times create_topic t (S n) false
  = (true,
     fst (declare create_topic t) :: replicate n (Ok tt),
     snd (declare create_topic t))
  ∧ (∀ names, topics t = Some names →
       ∃ k, snd (declare create_topic t)
            = MaybeStartProducer
              :: ((λ x, CreateTopic x (_partitions t) (_replicas t) (config t))
                    <$> take k names))
  ∧ (∀ names, topics t = Some names →
       (∀ x, x ∈ names → create_topic x = None) →
       declare create_topic t
       = (Ok tt,
          MaybeStartProducer
          :: ((λ x, CreateTopic x (_partitions t) (_replicas t) (config t))
                <$> names)))
  ∧ (topics t = None →
       ∃ msg, declare create_topic t
              = (Raise (TypeError msg), [MaybeStartProducer])).
Proof.
  split; [| split; [| split]].
  - cbn [maybe_declare_times]. unfold maybe_declare. simpl.
    destruct (declare create_topic t) as [r cs].
    rewrite maybe_declare_times_declared. simpl.
    rewrite app_nil_r. reflexivity.
  - intros names Hnames. unfold declare. rewrite Hnames.
    destruct (create_each_prefix create_topic t names) as [k Hk].
    exists k. destruct (create_each create_topic t names) as [r cs].
    simpl in *. rewrite Hk. reflexivity.
  - intros names Hnames Hok. unfold declare. rewrite Hnames.
    rewrite (create_each_ok _ _ _ Hok). reflexivity.
  - intros Hnone. unfold declare. rewrite Hnone. eauto.
Qed.

Lemma maybe_declare_once_witness :
  topics topic_t1 = Some ["t1"%string]
  ∧ (∀ x, x ∈ ["t1"%string] → create_ok x = None)
  ∧ maybe_declare_times create_ok topic_t1 3 false
    = (true, [Ok tt; Ok tt; Ok tt],
       [MaybeStartProducer; CreateTopic "t1" 8 1 ∅])
  ∧ (∃ msg, maybe_declare_times create_ok topic_pat 2 false
            = (true, [Raise (TypeError msg); Ok tt], [MaybeStartProducer])).
Proof.
  assert (H1 : topics topic_t1 = Some ["t1"%string]) by reflexivity.
  assert (H2 : ∀ x, x ∈ ["t1"%string] → create_ok x = None)
    by (intros; reflexivity).
  split; [exact H1 |]. split; [exact H2 |].
  pose proof (maybe_declare_once create_ok topic_t1 2) as (Hn & _ & Hd & _).
  pose proof (maybe_declare_once create_ok topic_pat 1) as (Hp & _ & _ & He).
  split.
  - rewrite Hn, (Hd _ H1 H2). reflexivity.
  - destruct (He eq_refl) as [msg Hmsg]. exists msg.
    rewrite Hp, Hmsg. reflexivity.
Defined.

(** ** Publishing *)

(** X9: where [publish_message] sends and what it calls.  A message
    whose destination cannot be resolved (its channel, or failing that
    the publishing topic, has no names) raises before the producer is
    started or any sensor is told.  When the message names its channel,
    the topic that publishes plays no part.  Without [wait] there is one
    [send], the future comes back unresolved, and neither
    [on_send_completed] nor [_finalize_message] is called; with [wait]
    there is one [send_and_wait] followed by both. *)
Theorem publish_message_calls (self : Topic) (message : PendingMessage)
    (wait : bool) :
  (∀ e, destination self message = inl e →
        publish_message self message wait = (inl e, []))
  ∧ (channel message ≠ ChanOther →
     ∀ self', publish_message self' message wait
              = publish_message self message wait)
  ∧ (∀ topic, destination self message = inr topic →
       publish_message self message wait
       = (inr wait,
          [MaybeStartProducer;
           OnSendInitiated topic (size_of (key message))
             (size_of (value message))]
          ++ (if wait
              then [SendAndWait topic (key message) (value message)
                      (partition message);
                    OnSendCompleted; FinalizeMessage]
              else [Send topic (key message) (value message)
                      (partition message)])))
  ∧ (wait = false →
     (OnSendCompleted ∉ snd (publish_message self message wait))
     ∧ (FinalizeMessage ∉ snd (publish_message self message wait))).
Proof.
  split; [| split; [| split]].
  - intros e He. unfold publish_message. rewrite He. reflexivity.
  - intros Hch self'. unfold publish_message, destination.
    destruct (channel message); [reflexivity | reflexivity | contradiction].
  - intros topic Ht. unfold publish_message. rewrite Ht.
    destruct wait; reflexivity.
  - intros ->. unfold publish_message.
    destruct (destination self message) as [e | topic]; simpl.
    + split; apply not_elem_of_nil.
    + split; intros H; repeat (apply elem_of_cons in H as [H | H];
        [discriminate H |]); apply elem_of_nil in H; exact H.
Qed.

Lemma publish_message_calls_witness :
  channel message_t1 ≠ ChanOther
  ∧ destination topic_pat message_t1 = inr "t1"%string
  ∧ publish_message topic_pat message_t1 false
    = (inr false,
       [MaybeStartProducer; OnSendInitiated "t1" 1 3;
        Send "t1" (Some "k"%string) (Some "val"%string) None])
  ∧ publish_message topic_pat message_t1 false
    = publish_message topic_t1 message_t1 false.
Proof.
  assert (H1 : channel message_t1 ≠ ChanOther) by (simpl; congruence).
  assert (H2 : destination topic_pat message_t1 = inr "t1"%string)
    by reflexivity.
  pose proof (publish_message_calls topic_t1 message_t1 false)
    as (_ & Hself & _ & _).
  pose proof (publish_message_calls topic_pat message_t1 false)
    as (_ & _ & Hcalls & _).
  split; [exact H1 |]. split; [exact H2 |].
  split; [exact (Hcalls _ H2) | exact (Hself H1 topic_pat)].
Defined.

End TopicMore.

(* ===================================================================== *)
(** * Properties of the registry of the topic manager *)
(* ===================================================================== *)

Section RegistryFacts.
Import TopicMan Registry Examples.

Lemma add_channel_elem (c c' : channel) (tm : gmap string (gset channel))
    (topic name : string) :
  c' ∈ default ∅ (add_channel c tm topic !! name)
  ↔ c' ∈ default ∅ (tm !! name) ∨ (c' = c ∧ name = topic).
Proof.
  unfold add_channel. rewrite lookup_insert. case_decide as E.
  - subst name. simpl. rewrite elem_of_union, elem_of_singleton. tauto.
  - split; [auto | intros [H | [_ H]]; [exact H | congruence]].
Qed.

Lemma foldl_add_channel_elem (c c' : channel) (names : list string)
    (tm : gmap string (gset channel)) (name : string) :
  c' ∈ default ∅ (foldl (add_channel c) tm names !! name)
  ↔ c' ∈ default ∅ (tm !! name) ∨ (c' = c ∧ name ∈ names).
Proof.
  revert tm. induction names as [| n names IH]; intros tm; simpl.
  - split; [auto | intros [H | [_ H]]; [exact H |]].
    apply elem_of_nil in H. contradiction.
  - rewrite IH, add_channel_elem. rewrite elem_of_cons. tauto.
Qed.

Lemma foldl_add_channel_no_empty (c : channel) (names : list string)
    (tm : gmap string (gset channel)) :
  no_empty_set tm → no_empty_set (foldl (add_channel c) tm names).
Proof.
  revert tm. induction names as [| n names IH]; intros tm Htm; [exact Htm |].
  simpl. apply IH. intros name. unfold add_channel.
  rewrite lookup_insert. case_decide; [| apply Htm].
  intros Heq. injection Heq as Heq.
  assert (Hc : c ∈ ({[c]} ∪ default ∅ (tm !! n) : gset channel))
    by set_solver.
  rewrite Heq in Hc. set_solver.
Qed.

Lemma fill_ok (l : list (channel * option (list string)))
    (tm : gmap string (gset channel)) :
  (∀ c, (c, None) ∉ l) →
  ∃ tm', fill l tm = (Ok tt, tm')
         ∧ (no_empty_set tm → no_empty_set tm')
         ∧ ∀ name c',
             c' ∈ default ∅ (tm' !! name)
             ↔ c' ∈ default ∅ (tm !! name)
               ∨ ∃ names, (c', Some names) ∈ l ∧ name ∈ names.
Proof.
  revert tm. induction l as [| [c [names |]] l IH]; intros tm Hall.
  - exists tm. split; [reflexivity |]. split; [auto |].
    intros name c'. split; [auto | intros [H | (names & H & _)]; [exact H |]].
    apply elem_of_nil in H. contradiction.
  - destruct (IH (foldl (add_channel c) tm names)) as (tm' & Hfill & Hne & Hel).
    { intros c0 H0. apply (Hall c0). apply list_elem_of_further, H0. }
    exists tm'. split; [exact Hfill |]. split.
    { intros Htm. apply Hne, foldl_add_channel_no_empty, Htm. }
    intros name c'. rewrite Hel, foldl_add_channel_elem. split.
    + intros [[H | [-> H]] | (ns & H & Hn)].
      * left. exact H.
      * right. exists names. split; [apply list_elem_of_here | exact H].
      * right. exists ns. split; [apply list_elem_of_further, H | exact Hn].
    + intros [H | (ns & H & Hn)]; [left; left; exact H |].
      apply elem_of_cons in H as [Heq | H].
      * injection Heq as -> ->. left. right. auto.
      * right. exists ns. auto.
  - exfalso. apply (Hall c), list_elem_of_here.
Qed.

Lemma fill_raise (l : list (channel * option (list string)))
    (tm : gmap string (gset channel)) (c : channel) :
  (c, None) ∈ l →
  ∃ msg tm', fill l tm = (Raise (TypeError msg), tm').
Proof.
  revert tm. induction l as [| [c0 [names |]] l IH]; intros tm Hin.
  - apply elem_of_nil in Hin. contradiction.
  - apply elem_of_cons in Hin as [Hin | Hin]; [discriminate Hin |].
    simpl. apply IH, Hin.
  - simpl. eauto.
Qed.

(** What [_update_topicmap] leaves when it returns. *)
Lemma update_topicmap_exact_lemma (m : TopicManager) :
  (∀ c, _topics m !! c ≠ Some None) →
  ∃ m', _update_topicmap m = (Ok tt, m')
        ∧ _pending_tasks m' = _pending_tasks m
        ∧ ∀ name c, c ∈ default ∅ (_topicmap m' !! name) ↔ subscribed m name c.
Proof.
  intros Hall. unfold _update_topicmap.
  destruct (fill_ok (map_to_list (_topics m)) ∅) as (tm' & Hfill & _ & Hel).
  { intros c Hc. apply elem_of_map_to_list in Hc. exact (Hall c Hc). }
  rewrite Hfill. eexists. split; [reflexivity |]. simpl.
  split; [reflexivity |].
  intros name c. rewrite Hel. rewrite lookup_empty. simpl. split.
  - intros [H | (names & H & Hn)]; [apply not_elem_of_empty in H; contradiction |].
    exists names. split; [apply elem_of_map_to_list, H | exact Hn].
  - intros (names & H & Hn). right. exists names.
    split; [apply elem_of_map_to_list, H | exact Hn].
Qed.

(** X10: [_update_topicmap] rebuilds the map from the registered topics
    alone.  When every registered topic has a list of names, it returns,
    and afterwards a channel is under a name exactly when it is
    registered and lists that name; whatever the map held before is
    gone, and no name is kept without a channel, so the names handed to
    the consumer are exactly those that some registered topic lists. *)
Theorem update_topicmap_exact (m : TopicManager) :
  (∀ c, _topics m !! c ≠ Some None) →
  ∃ m', _update_topicmap m = (Ok tt, m')
        ∧ _topics m' = _topics m
        ∧ (∀ name c, c ∈ default ∅ (_topicmap m' !! name) ↔ subscribed m name c)
        ∧ (∀ name, is_Some (_topicmap m' !! name) ↔ ∃ c, subscribed m name c).
Proof.
  intros Hall. unfold _update_topicmap.
  destruct (fill_ok (map_to_list (_topics m)) ∅) as (tm' & Hfill & Hne & Hel).
  { intros c Hc. apply elem_of_map_to_list in Hc. exact (Hall c Hc). }
  rewrite Hfill. eexists. split; [reflexivity |]. simpl.
  split; [reflexivity |].
  assert (Hsub : ∀ name c, c ∈ default ∅ (tm' !! name) ↔ subscribed m name c).
  { intros name c. rewrite Hel. rewrite lookup_empty. simpl. split.
    - intros [H | (names & H & Hn)]; [set_solver |].
      exists names. split; [apply elem_of_map_to_list, H | exact Hn].
    - intros (names & H & Hn). right. exists names.
      split; [apply elem_of_map_to_list, H | exact Hn]. }
  split; [exact Hsub |].
  intros name. split.
  - intros [s Hs].
    assert (Hs' : s ≠ ∅).
    { intros ->. refine (Hne _ name Hs).
      intros n. rewrite lookup_empty. discriminate. }
    apply set_choose_L in Hs' as [c Hc]. exists c. apply Hsub.
    rewrite Hs. exact Hc.
  - intros [c Hc]. apply Hsub in Hc.
    destruct (tm' !! name) as [s |]; [eauto |].
    simpl in Hc. set_solver.
Qed.

Lemma update_topicmap_exact_witness :
  (∀ c, _topics registry_XY !! c ≠ Some None)
  ∧ ∃ m', _update_topicmap registry_XY = (Ok tt, m')
          ∧ _topicmap m' !! "X"%string = Some ({[ 1%nat; 2%nat ]} : gset nat)
          ∧ (∀ c, c ∈ default ∅ (_topicmap m' !! "Y"%string)
                  ↔ subscribed registry_XY "Y" c).
Proof.
  assert (Hall : ∀ c, _topics registry_XY !! c ≠ Some None).
  { intros c. change (_topics registry_XY)
      with (<[2%nat := Some ["X"%string; "Y"%string]]>
              (<[1%nat := Some ["X"%string]]> (∅ : gmap nat _))).
    rewrite !lookup_insert. repeat case_decide;
      rewrite ?lookup_empty; discriminate. }
  split; [exact Hall |].
  destruct (update_topicmap_exact registry_XY Hall) as (m' & Hm' & _ & Hsub & _).
  exists m'. split; [exact Hm' |]. split; [| intros c; apply Hsub].
  assert (Hv : snd (_update_topicmap registry_XY) = m') by (rewrite Hm'; reflexivity).
  rewrite <- Hv. vm_compute. reflexivity.
Defined.

(** X11: one registered topic without a list of names (a topic given by
    pattern) makes [_update_topicmap] raise [TypeError], whatever else
    is registered; the set of registered topics is not touched. *)
Theorem update_topicmap_pattern_raises (m : TopicManager) (c : channel) :
  _topics m !! c = Some None →
  ∃ msg m', _update_topicmap m = (Raise (TypeError msg), m')
            ∧ _topics m' = _topics m.
Proof.
  intros Hc. unfold _update_topicmap.
  destruct (fill_raise (map_to_list (_topics m)) ∅ c) as (msg & tm' & Hfill).
  { apply elem_of_map_to_list, Hc. }
  rewrite Hfill. eauto.
Qed.

Lemma update_topicmap_pattern_raises_witness :
  _topics registry_pat !! 3%nat = Some None
  ∧ ∃ msg m', _update_topicmap registry_pat = (Raise (TypeError msg), m')
              ∧ _topics m' = _topics registry_pat.
Proof.
  assert (H : _topics registry_pat !! 3%nat = Some None)
    by (vm_compute; reflexivity).
  split; [exact H |].
  exact (update_topicmap_pattern_raises registry_pat 3 H).
Defined.

Lemma contains_false (c : channel) (m : TopicManager) :
  contains c m = false ↔ _topics m !! c = None.
Proof.
  unfold contains. rewrite bool_decide_eq_false.
  rewrite <- eq_None_not_Some. reflexivity.
Qed.

(** X12: registering and unregistering.  [add] of a topic that is
    registered changes nothing and flags nothing; [add] of a new one
    registers it, and a [discard] right after brings the set of
    registered topics back to what it was.  [discard] flags a
    subscription change even for a topic that was never registered. *)
Theorem add_discard_registry (c : channel) (names : option (list string))
    (m : TopicManager) :
  (contains c m = true → add c names m = m)
  ∧ (contains c m = false →
     _topics (add c names m) !! c = Some names
     ∧ len (add c names m) = S (len m)
     ∧ _topics (discard c (add c names m)) = _topics m
     ∧ beacon (discard c (add c names m))
       = beacon m ++ [BeaconAdd c; BeaconDiscard c])
  ∧ add c names (add c names m) = add c names m
  ∧ (contains c m = false →
     _topics (discard c m) = _topics m
     ∧ _subscription_changed (discard c m)
       = (λ _, true) <$> _subscription_changed m
     ∧ is_Some (_subscription_done (discard c m))
     ∧ beacon (discard c m) = beacon m ++ [BeaconDiscard c]).
Proof.
  split; [| split; [| split]].
  - intros H. unfold add. rewrite H. reflexivity.
  - intros H. unfold add. rewrite H. apply contains_false in H. simpl.
    split; [apply lookup_insert_eq |].
    split; [unfold len; simpl; apply map_size_insert_None, H |].
    split; [rewrite delete_insert_eq; apply delete_id, H |].
    rewrite <- app_assoc. reflexivity.
  - destruct (contains c m) eqn:H.
    + unfold add at 2. rewrite H. unfold add. rewrite H. reflexivity.
    + assert (H2 : contains c (add c names m) = true).
      { unfold add. rewrite H. unfold contains. simpl.
        apply bool_decide_eq_true. rewrite lookup_insert_eq. eauto. }
      unfold add at 1. rewrite H2. reflexivity.
  - intros H. apply contains_false in H. unfold discard. simpl.
    split; [apply delete_id, H |].
    split; [destruct (_subscription_changed m); reflexivity |].
    split; [destruct (_subscription_done m); eauto | reflexivity].
Qed.

Lemma add_discard_registry_witness :
  contains 3%nat registry_XY = false
  ∧ _topics (discard 3%nat (add 3%nat (Some ["Z"%string]) registry_XY))
    = _topics registry_XY
  ∧ contains 1%nat registry_XY = true
  ∧ add 1%nat (Some ["X"%string]) registry_XY = registry_XY.
Proof.
  assert (H3 : contains 3%nat registry_XY = false) by (vm_compute; reflexivity).
  assert (H1 : contains 1%nat registry_XY = true) by (vm_compute; reflexivity).
  split; [exact H3 |].
  pose proof (add_discard_registry 3%nat (Some ["Z"%string]) registry_XY)
    as (_ & Hnew & _).
  pose proof (add_discard_registry 1%nat (Some ["X"%string]) registry_XY)
    as (Hold & _).
  split; [exact (proj1 (proj2 (proj2 (Hnew H3)))) |].
  split; [exact H1 | exact (Hold H1)].
Defined.

Lemma fill_ok_inv (l : list (channel * option (list string)))
    (tm tm' : gmap string (gset channel)) :
  fill l tm = (Ok tt, tm') → ∀ c, (c, None) ∉ l.
Proof.
  revert tm. induction l as [| [c0 [names |]] l IH]; intros tm Hfill c Hin.
  - apply elem_of_nil in Hin. exact Hin.
  - apply elem_of_cons in Hin as [Hin | Hin]; [discriminate Hin |].
    simpl in Hfill. exact (IH _ Hfill c Hin).
  - discriminate Hfill.
Qed.

(** X13: fan-out after a rebuild of the map.  A message is enqueued
    once for each registered topic that lists the topic of the message,
    and for no other channel; its reference count goes up by their
    number, in one step that comes first. *)
Theorem fanout_after_update (m m' : TopicManager)
    (wait_order : list channel → list channel) (message : Message) :
  (∀ l, wait_order l ≡ₚ l) →
  _update_topicmap m = (Ok tt, m') →
  ∃ ran,
    out_events (on_message wait_order message (handler_view m'))
    = EvIncrefBulk (length ran) :: (EvEnqueue <$> ran)
    ∧ NoDup ran
    ∧ (∀ c, c ∈ ran ↔ subscribed m (msg_topic message) c)
    ∧ refcount (out_message (on_message wait_order message (handler_view m')))
      = refcount message + Z.of_nat (length ran)
    ∧ TopicMan._pending_tasks
        (out_manager (on_message wait_order message (handler_view m')))
      = _pending_tasks m
        ++ ((λ c, (c, (msg_topic message, msg_partition message),
                   msg_offset message)) <$> ran).
Proof.
  intros Hperm Hup.
  assert (Hall : ∀ c, _topics m !! c ≠ Some None).
  { intros c Hc. unfold _update_topicmap in Hup.
    destruct (fill (map_to_list (_topics m)) ∅) as [r tm] eqn:Hfill.
    injection Hup as -> _.
    apply (fill_ok_inv _ _ _ Hfill c). apply elem_of_map_to_list, Hc. }
  destruct (update_topicmap_exact_lemma m Hall) as (m0 & Hm0 & Hq & Hsub).
  rewrite Hup in Hm0. injection Hm0 as <-.
  set (chans := default ∅ (_topicmap m' !! msg_topic message)).
  assert (Hget : get_channels_for_topic (msg_topic message)
                   (TopicMan._topicmap (handler_view m'))
                 = (chans, snd (get_channels_for_topic (msg_topic message)
                                  (TopicMan._topicmap (handler_view m'))))).
  { unfold get_channels_for_topic, chans, handler_view. simpl.
    destruct (_topicmap m' !! msg_topic message); reflexivity. }
  unfold on_message. rewrite Hget.
  destruct (elements chans) as [| c cs] eqn:E.
  - exists []. simpl. split; [reflexivity |]. split; [constructor |].
    split.
    + intros c. rewrite <- Hsub. fold chans. rewrite <- elem_of_elements, E.
      reflexivity.
    + split; [lia |]. rewrite app_nil_r. exact Hq.
  - exists (wait_order (c :: cs)).
    cbn [out_events out_message out_manager TopicMan._pending_tasks].
    split; [rewrite (Permutation_length (Hperm (c :: cs))); reflexivity |].
    split; [rewrite Hperm, <- E; apply NoDup_elements |].
    split.
    + intros c0. rewrite Hperm, <- E, elem_of_elements. apply Hsub.
    + split.
      * rewrite (Permutation_length (Hperm (c :: cs))). reflexivity.
      * rewrite foldl_add_pending_task. simpl. rewrite Hq. reflexivity.
Qed.

Lemma fanout_after_update_witness :
  (∀ l : list channel, reverse l ≡ₚ l)
  ∧ _update_topicmap registry_XY = (Ok tt, snd (_update_topicmap registry_XY))
  ∧ ∃ ran,
      out_events (on_message reverse msg_X
                    (handler_view (snd (_update_topicmap registry_XY))))
      = EvIncrefBulk (length ran) :: (EvEnqueue <$> ran)
      ∧ (∀ c, c ∈ ran ↔ subscribed registry_XY "X" c).
Proof.
  assert (Hrev : ∀ l : list channel, reverse l ≡ₚ l)
    by (intros l; apply reverse_Permutation).
  assert (Hup : _update_topicmap registry_XY
                = (Ok tt, snd (_update_topicmap registry_XY)))
    by (vm_compute; reflexivity).
  split; [exact Hrev |]. split; [exact Hup |].
  destruct (fanout_after_update registry_XY _ reverse msg_X Hrev Hup)
    as (ran & Hev & _ & Hsub & _).
  exists ran. split; [exact Hev | exact Hsub].
Defined.

(** X14: a message on a topic nobody is subscribed to.  [on_message]
    raises [ValueError] exactly when no channel is under the topic of
    the message; it then enqueues nothing and leaves the reference
    count as it was, but the lookup has stored an empty set under that
    topic in [_topicmap]. *)
Theorem on_message_without_subscriber
    (wait_order : list channel → list channel) (message : Message)
    (tm : TopicMan.TopicManager) :
  ((∃ msg, out_result (on_message wait_order message tm)
           = Raise (ValueError msg))
   ↔ default ∅ (TopicMan._topicmap tm !! msg_topic message) = ∅)
  ∧ (default ∅ (TopicMan._topicmap tm !! msg_topic message) = ∅ →
     refcount (out_message (on_message wait_order message tm))
     = refcount message
     ∧ TopicMan._pending_tasks (out_manager (on_message wait_order message tm))
       = TopicMan._pending_tasks tm
     ∧ out_events (on_message wait_order message tm) = [EvIncrefBulk 0]
     ∧ TopicMan._topicmap (out_manager (on_message wait_order message tm))
       = <[msg_topic message := ∅]> (TopicMan._topicmap tm)).
Proof.
  set (chans := default ∅ (TopicMan._topicmap tm !! msg_topic message)).
  assert (Hget : get_channels_for_topic (msg_topic message)
                   (TopicMan._topicmap tm)
                 = (chans, snd (get_channels_for_topic (msg_topic message)
                                  (TopicMan._topicmap tm)))).
  { unfold get_channels_for_topic, chans.
    destruct (TopicMan._topicmap tm !! msg_topic message); reflexivity. }
  unfold on_message. rewrite Hget. split.
  - destruct (elements chans) as [| c cs] eqn:E; simpl.
    + apply elements_empty_inv in E. apply leibniz_equiv in E.
      split; [intros _; exact E | eauto].
    + split; [intros [msg H]; discriminate H |].
      intros Hempty. rewrite Hempty, elements_empty in E. discriminate E.
  - intros Hempty. rewrite Hempty, elements_empty. simpl.
    split; [lia |]. split; [reflexivity |]. split; [reflexivity |].
    unfold get_channels_for_topic. unfold chans in Hempty.
    destruct (TopicMan._topicmap tm !! msg_topic message) as [s |] eqn:El;
      simpl in *; [| reflexivity].
    subst s. symmetry. apply insert_id, El.
Qed.

Lemma on_message_without_subscriber_witness :
  default ∅ (TopicMan._topicmap tm_X !! msg_topic msg_Y) = ∅
  ∧ (∃ msg, out_result (on_message reverse msg_Y tm_X) = Raise (ValueError msg))
  ∧ TopicMan._topicmap (out_manager (on_message reverse msg_Y tm_X))
    = <[ "Y"%string := ∅ ]> (TopicMan._topicmap tm_X).
Proof.
  assert (H : default ∅ (TopicMan._topicmap tm_X !! msg_topic msg_Y) = ∅)
    by reflexivity.
  pose proof (on_message_without_subscriber reverse msg_Y tm_X) as [Hiff Hrest].
  split; [exact H |]. split; [exact (proj2 Hiff H) |].
  exact (proj2 (proj2 (proj2 (Hrest H)))).
Defined.

End RegistryFacts.

(* ===================================================================== *)
(** * More on the table manager *)
(* ===================================================================== *)

Section ManagerMore.
Import Manager Examples.

(** Takes a method apart into its primitive steps. *)
Ltac method_steps :=
  repeat first
    [ assumption
    | solve [auto 2]
    | apply preserves_ret
    | apply preserves_raise
    | apply preserves_get
    | apply preserves_bind
    | apply preserves_for_each
    | apply preserves_map_m
    | match goal with
      | |- preserves _ (match ?x with _ => _ end) => destruct x
      end
    | progress cbv zeta
    | lazymatch goal with |- ∀ _ : _, _ => intro end ].

(** ** The latches *)

Lemma latches_kept_refl (s : Sys) : latches_kept s s.
Proof. split; auto. Qed.

Lemma latches_kept_trans (a b c : Sys) :
  latches_kept a b → latches_kept b c → latches_kept a c.
Proof. intros [H1 H2] [K1 K2]. split; auto. Qed.

Ltac latch_leaf :=
  try solve [auto 2];
  try solve [intros ?; unfold latches_kept, modify, emit; simpl; auto].

Ltac latch method :=
  pose proof latches_kept_refl; pose proof latches_kept_trans;
  unfold method; method_steps; latch_leaf.

Lemma add_latch table : preserves latches_kept (add table).
Proof. latch add. Qed.

Lemma update_channels_latch env : preserves latches_kept (_update_channels env).
Proof. latch _update_channels. Qed.

Lemma create_reviver_latch table tps :
  preserves latches_kept (_create_reviver table tps).
Proof. latch _create_reviver. Qed.

Lemma sync_reader_latch env r : preserves latches_kept (sync_reader env r).
Proof. latch sync_reader. Qed.

Lemma recover_changelogs_latch env tps :
  preserves latches_kept (_recover_changelogs env tps).
Proof.
  pose proof create_reviver_latch. pose proof sync_reader_latch.
  latch _recover_changelogs.
Qed.

Lemma start_standby_latch table tps :
  preserves latches_kept (start_standby table tps).
Proof. latch start_standby. Qed.

Lemma start_standbys_latch tps : preserves latches_kept (_start_standbys tps).
Proof. pose proof start_standby_latch. latch _start_standbys. Qed.

Lemma stop_standbys_latch env : preserves latches_kept (_stop_standbys env).
Proof. pose proof sync_reader_latch. latch _stop_standbys. Qed.

Lemma on_recovery_started_latch env :
  preserves latches_kept (_on_recovery_started env).
Proof. pose proof update_channels_latch. latch _on_recovery_started. Qed.

Lemma on_recovery_completed_latch :
  preserves latches_kept _on_recovery_completed.
Proof. latch _on_recovery_completed. Qed.

Lemma recover_until_check_latch env assigned :
  preserves latches_kept (recover_until_check env assigned).
Proof.
  pose proof on_recovery_started_latch. pose proof recover_changelogs_latch.
  latch recover_until_check.
Qed.

Lemma recover_latch env assigned : preserves latches_kept (_recover env assigned).
Proof.
  pose proof recover_until_check_latch. pose proof start_standbys_latch.
  pose proof on_recovery_completed_latch.
  latch _recover.
Qed.

Lemma maybe_abort_latch : preserves latches_kept _maybe_abort_ongoing_recovery.
Proof. latch _maybe_abort_ongoing_recovery. Qed.

Lemma on_partitions_revoked_latch env revoked :
  preserves latches_kept (on_partitions_revoked env revoked).
Proof.
  pose proof maybe_abort_latch. pose proof stop_standbys_latch.
  latch on_partitions_revoked.
Qed.

Lemma on_partitions_assigned_latch env assigned :
  preserves latches_kept (on_partitions_assigned env assigned).
Proof.
  assert (preserves latches_kept (run_future (_recover env assigned)))
    by (apply preserves_run_future, recover_latch).
  latch on_partitions_assigned.
Qed.

Lemma on_stop_latch env : preserves latches_kept (on_stop env).
Proof.
  pose proof maybe_abort_latch. pose proof stop_standbys_latch.
  latch on_stop.
Qed.

Lemma run_call_latch (s : Sys) (c : call) : latches_kept s (run_call s c).
Proof.
  destruct c; simpl.
  - apply add_latch.
  - apply update_channels_latch.
  - apply on_partitions_assigned_latch.
  - apply on_partitions_revoked_latch.
  - apply on_stop_latch.
Qed.

Lemma run_calls_latch (s : Sys) (cs : list call) :
  latches_kept s (run_calls s cs).
Proof.
  unfold run_calls. revert s. induction cs as [| c cs IH]; intros s; simpl.
  - apply latches_kept_refl.
  - eapply latches_kept_trans; [apply run_call_latch | apply IH].
Qed.

(** The recovery-started latch is set as soon as the subset assertion of
    [_recover] has passed. *)
Lemma recover_sets_started env assigned s :
  issubset (assigned_actives env) assigned = true →
  _recovery_started (mgr (snd (_recover env assigned s))) = true.
Proof.
  intros Hsub.
  set (s1 := {| mgr := set_recovery_started true (mgr s);
                trace := trace s ++ [EvLog "New assignments found"] |}).
  set (rest := bind (_update_channels env) (λ _,
               bind get (λ m,
               bind (for_each (values m)
                       (λ table, emit (EvTableAssigned (table_id table) assigned)))
                 (λ _, _recover_changelogs env (assigned_actives env))))).
  set (tail := λ did_recover : bool,
       bind (if did_recover && negb (stopped_is_set env) then
         bind (emit (EvLog "Restore complete!")) (λ _,
         bind get (λ m1,
         bind (for_each (values m1)
                 (λ table, emit (EvRecoverCallbacks (table_id table)))) (λ _,
         bind (emit EvPerformSeek) (λ _,
         bind (_start_standbys (assigned_standbys env)) (λ _,
         bind (emit (EvLog "New assignments handled")) (λ _,
         bind _on_recovery_completed (λ _,
         bind get (λ m2,
           emit (EvResumePartitions
                   (List.filter (λ tp, negb (_is_changelog_tp m2 tp))
                      assigned))))))))))
       else emit (EvLog "Recovery interrupted"))
       (λ _, modify (set_revivers None))).
  assert (Hshape : _recover env assigned s = bind rest tail s1).
  { unfold _recover, recover_until_check. rewrite Hsub. simpl negb. cbv iota.
    unfold bind at 1 2 3. unfold emit at 1. unfold _on_recovery_started.
    unfold bind at 2. unfold modify at 1. fold s1.
    unfold rest, tail, bind. reflexivity. }
  rewrite Hshape.
  assert (Hkept : latches_kept s1 (snd (bind rest tail s1))).
  { pose proof latches_kept_refl. pose proof latches_kept_trans.
    pose proof update_channels_latch. pose proof recover_changelogs_latch.
    pose proof start_standbys_latch. pose proof on_recovery_completed_latch.
    assert (Hp : preserves latches_kept (bind rest tail)).
    { unfold rest, tail. method_steps; latch_leaf. }
    apply Hp. }
  apply Hkept. reflexivity.
Qed.

(** X15: the two latches are never cleared.  Whatever is called on the
    manager, a latch that is set stays set, and a run of [_recover]
    clears none either.  A run of [_recover] that passes its subset
    assertion sets the recovery-started latch, so in the state it ends
    in, and after any further calls, [add] raises [RuntimeError] and
    changes nothing. *)
Theorem latches_never_cleared (s : Sys) (cs : list call) :
  (_recovery_started (mgr s) = true →
   _recovery_started (mgr (run_calls s cs)) = true)
  ∧ (recovery_completed (mgr s) = true →
     recovery_completed (mgr (run_calls s cs)) = true)
  ∧ (∀ env assigned, latches_kept s (snd (_recover env assigned s)))
  ∧ (∀ env assigned table,
       issubset (assigned_actives env) assigned = true →
       _recovery_started (mgr (snd (_recover env assigned s))) = true
       ∧ ∃ msg,
           add table (run_calls (snd (_recover env assigned s)) cs)
           = (Raise (RuntimeError msg),
              run_calls (snd (_recover env assigned s)) cs)).
Proof.
  destruct (run_calls_latch s cs) as [H1 H2].
  split; [exact H1 |]. split; [exact H2 |].
  split; [intros env assigned; apply recover_latch |].
  intros env assigned table Hsub.
  pose proof (recover_sets_started env assigned s Hsub) as Hs1.
  split; [exact Hs1 |].
  destruct (run_calls_latch (snd (_recover env assigned s)) cs) as [K1 _].
  unfold add, bind, get. rewrite (K1 Hs1). eauto.
Qed.

Lemma latches_never_cleared_witness :
  issubset (assigned_actives env_S5) assigned_S4 = true
  ∧ _recovery_started (mgr sys_orders) = false
  ∧ ∃ msg,
      fst (add orders
             (run_calls (snd (_recover env_S5 assigned_S4 sys_orders))
                [CallRevoked env_S5 assigned_S4]))
      = Raise (RuntimeError msg).
Proof.
  assert (H3 : issubset (assigned_actives env_S5) assigned_S4 = true)
    by (vm_compute; reflexivity).
  split; [exact H3 |]. split; [reflexivity |].
  destruct (proj2 (proj2 (proj2 (latches_never_cleared sys_orders
                                   [CallRevoked env_S5 assigned_S4])))
              env_S5 assigned_S4 orders H3) as [_ [msg Hmsg]].
  exists msg. rewrite Hmsg. reflexivity.
Defined.

(** X16: there is never a second recovery beside a first.  Whatever the
    manager's state, [on_partitions_assigned] called twice in a row
    raises [AssertionError] the second time and changes nothing. *)
Theorem second_assignment_asserts (env env' : Env) (assigned assigned' : list TP)
    (s : Sys) :
  on_partitions_assigned env' assigned'
    (snd (on_partitions_assigned env assigned s))
  = (Raise AssertionError, snd (on_partitions_assigned env assigned s)).
Proof.
  set (s1 := snd (on_partitions_assigned env assigned s)).
  assert (H : _ongoing_recovery (mgr s1) ≠ None ∨ _revivers (mgr s1) ≠ None).
  { subst s1. unfold on_partitions_assigned, bind, get, run_future, modify.
    destruct (_ongoing_recovery (mgr s)) eqn:Ho; simpl.
    - left. rewrite Ho. discriminate.
    - destruct (_revivers (mgr s)) eqn:Hr; simpl.
      + right. rewrite Hr. discriminate.
      + left. discriminate. }
  clearbody s1. unfold on_partitions_assigned, bind, get.
  destruct (_ongoing_recovery (mgr s1)); [reflexivity |].
  destruct (_revivers (mgr s1)); [reflexivity |].
  destruct H; contradiction.
Qed.

(** ** Revocation and stop *)

Lemma for_each_emit {A} (f : A → event) (l : list A) (s : Sys) :
  for_each l (λ x, emit (f x)) s
  = (Ok tt, {| mgr := mgr s; trace := trace s ++ (f <$> l) |}).
Proof.
  revert s. induction l as [| x l IH]; intros s; simpl.
  - rewrite app_nil_r. destruct s; reflexivity.
  - unfold bind, emit at 1. rewrite IH. simpl.
    rewrite <- app_assoc. reflexivity.
Qed.

(** The offsets after folding the offsets of each reader of [rs] in
    turn. *)
Lemma stop_loop (env : Env) (rs : list Reader) (s : Sys) :
  for_each rs (λ standby,
    bind (emit (EvReaderStop standby)) (λ _, sync_reader env standby)) s
  = (Ok tt,
     {| mgr := set_table_offsets
                 (foldl (λ offs r, _sync_offsets (reader_offsets env r) offs)
                    (_table_offsets (mgr s)) rs)
                 (mgr s);
        trace := trace s ++ (EvReaderStop <$> rs) |}).
Proof.
  revert s. induction rs as [| r rs IH]; intros s; simpl.
  - rewrite app_nil_r. destruct s as [m tr]. destruct m. reflexivity.
  - unfold bind at 1. unfold bind at 1. unfold emit, sync_reader, modify.
    cbn [fst snd mgr trace]. rewrite IH. cbn [mgr trace].
    rewrite <- app_assoc. reflexivity.
Qed.

Lemma sync_offsets_ge (items : list (TP * Z)) (offs : gmap TP Z)
    (tp : TP) (o : Z) :
  (tp, o) ∈ items → 0 ≤ o → o ≤ offset_get (_sync_offsets items offs) tp.
Proof.
  unfold _sync_offsets. revert offs.
  induction items as [| [tp' o'] items IH]; intros offs Hin Ho.
  - apply elem_of_nil in Hin. contradiction.
  - apply elem_of_cons in Hin as [Heq | Hin]; [| apply IH; assumption].
    injection Heq as <- <-. simpl.
    etransitivity; [| apply (sync_offsets_le items)].
    destruct (Z.leb_spec 0 o); [| lia].
    rewrite offset_get_insert. case_decide; [lia | congruence].
Qed.

Lemma readers_folded_ge (env : Env) (rs : list Reader) (offs : gmap TP Z)
    (r : Reader) (tp : TP) (o : Z) :
  r ∈ rs → (tp, o) ∈ reader_offsets env r → 0 ≤ o →
  o ≤ offset_get
        (foldl (λ offs r, _sync_offsets (reader_offsets env r) offs) offs rs) tp.
Proof.
  revert offs. induction rs as [| r' rs IH]; intros offs Hr Hin Ho.
  - apply elem_of_nil in Hr. contradiction.
  - simpl. apply elem_of_cons in Hr as [-> | Hr]; [| apply IH; assumption].
    etransitivity; [apply (sync_offsets_ge _ offs _ _ Hin Ho) |].
    generalize (_sync_offsets (reader_offsets env r') offs). clear.
    induction rs as [| r rs IH]; intros offs; simpl; [lia |].
    etransitivity; [apply (sync_offsets_le (reader_offsets env r)) | apply IH].
Qed.

Lemma maybe_abort_idle (s : Sys) :
  _ongoing_recovery (mgr s) ≠ Some false →
  _maybe_abort_ongoing_recovery s
  = (Ok tt, {| mgr := set_ongoing_recovery None (mgr s); trace := trace s |}).
Proof.
  intros Hidle. unfold _maybe_abort_ongoing_recovery, bind, get.
  destruct (_ongoing_recovery (mgr s)) as [[|] |] eqn:Ho.
  - reflexivity.
  - congruence.
  - destruct s as [m tr]. destruct m. simpl in *. subst. reflexivity.
Qed.

Lemma wind_down_idle (env : Env) (f : Table → event) (s : Sys) :
  _ongoing_recovery (mgr s) ≠ Some false →
  bind _maybe_abort_ongoing_recovery (λ _,
  bind (_stop_standbys env) (λ _,
  bind get (λ m, for_each (values m) (λ table, emit (f table))))) s
  = (Ok tt,
     {| mgr := set_standbys []
                 (set_table_offsets
                    (foldl (λ offs r, _sync_offsets (reader_offsets env r) offs)
                       (_table_offsets (mgr s)) (snd <$> _standbys (mgr s)))
                    (set_ongoing_recovery None (mgr s)));
        trace := trace s ++ (EvReaderStop <$> (snd <$> _standbys (mgr s)))
                 ++ (f <$> values (mgr s)) |}).
Proof.
  intros Hidle. unfold bind at 1. rewrite (maybe_abort_idle s Hidle).
  unfold bind at 1. unfold _stop_standbys. unfold bind at 1. unfold get at 1.
  cbn [mgr]. unfold bind at 1. rewrite stop_loop. unfold modify at 1.
  cbn [mgr trace]. unfold bind, get. cbn [mgr]. rewrite for_each_emit.
  cbn [mgr trace]. rewrite <- !app_assoc. reflexivity.
Qed.

(** X17: what [on_partitions_revoked] and [on_stop] leave behind when
    no recovery is in flight (there is no recovery handle, or the
    recovery is done).  If the call returns, the manager holds no
    recovery handle and no standby readers, the tables registered stay
    registered, and no progress of a standby is lost: every offset of at
    least 0 that a stopped standby reports is at most the table offset
    of its partition afterwards.  The calls made are the stop of every
    standby reader, in order, and then every registered table being
    told, in order. *)
Theorem revoke_and_stop_wind_down (env : Env) (revoked : list TP) (s : Sys) :
  _ongoing_recovery (mgr s) ≠ Some false →
  (∀ s',
     on_partitions_revoked env revoked s = (Ok tt, s') →
     _ongoing_recovery (mgr s') = None
     ∧ _standbys (mgr s') = []
     ∧ data (mgr s') = data (mgr s)
     ∧ (∀ t r tp o,
          (t, r) ∈ _standbys (mgr s) → (tp, o) ∈ reader_offsets env r →
          0 ≤ o → o ≤ offset_get (_table_offsets (mgr s')) tp)
     ∧ trace s'
       = trace s ++ (EvReaderStop <$> (snd <$> _standbys (mgr s)))
         ++ ((λ t, EvTableRevoked (table_id t) revoked) <$> values (mgr s)))
  ∧ (∀ s',
       on_stop env s = (Ok tt, s') →
       _ongoing_recovery (mgr s') = None
       ∧ _standbys (mgr s') = []
       ∧ data (mgr s') = data (mgr s)
       ∧ (∀ t r tp o,
            (t, r) ∈ _standbys (mgr s) → (tp, o) ∈ reader_offsets env r →
            0 ≤ o → o ≤ offset_get (_table_offsets (mgr s')) tp)
       ∧ trace s'
         = trace s ++ (EvReaderStop <$> (snd <$> _standbys (mgr s)))
           ++ ((λ t, EvTableStop (table_id t)) <$> values (mgr s))).
Proof.
  intros Hidle.
  assert (Hgen : ∀ (f : Table → event) s',
    bind _maybe_abort_ongoing_recovery (λ _,
    bind (_stop_standbys env) (λ _,
    bind get (λ m, for_each (values m) (λ table, emit (f table))))) s
    = (Ok tt, s') →
    _ongoing_recovery (mgr s') = None
    ∧ _standbys (mgr s') = []
    ∧ data (mgr s') = data (mgr s)
    ∧ (∀ t r tp o,
         (t, r) ∈ _standbys (mgr s) → (tp, o) ∈ reader_offsets env r →
         0 ≤ o → o ≤ offset_get (_table_offsets (mgr s')) tp)
    ∧ trace s' = trace s ++ (EvReaderStop <$> (snd <$> _standbys (mgr s)))
                 ++ (f <$> values (mgr s))).
  { intros f s' Hrun. rewrite (wind_down_idle env f s Hidle) in Hrun.
    injection Hrun as <-. cbn [mgr trace].
    do 3 (split; [reflexivity |]). split; [| reflexivity].
    intros t r tp o Hin Ho Hnn.
    apply (readers_folded_ge env _ _ r); [| assumption | assumption].
    apply list_elem_of_fmap. exists (t, r). split; [reflexivity | exact Hin]. }
  split; intros s' Hrun; apply Hgen; exact Hrun.
Qed.

Lemma revoke_and_stop_wind_down_witness :
  _ongoing_recovery (mgr sys_S4) ≠ Some false
  ∧ ∃ t r s',
      (t, r) ∈ _standbys (mgr sys_S4)
      ∧ (tp_log0, 150) ∈ reader_offsets env_S4 r
      ∧ 0 ≤ 150
      ∧ on_partitions_revoked env_S4 assigned_S4 sys_S4 = (Ok tt, s')
      ∧ _standbys (mgr s') = []
      ∧ _ongoing_recovery (mgr s') = None
      ∧ 150 ≤ offset_get (_table_offsets (mgr s')) tp_log0.
Proof.
  assert (Hidle : _ongoing_recovery (mgr sys_S4) ≠ Some false)
    by (vm_compute; discriminate).
  split; [exact Hidle |].
  destruct (_standbys (mgr sys_S4)) as [| [t r] rest] eqn:E;
    [vm_compute in E; discriminate E |].
  destruct (on_partitions_revoked env_S4 assigned_S4 sys_S4) as [[[] | e] s']
    eqn:Hrun; [| vm_compute in Hrun; discriminate Hrun].
  exists t, r, s'.
  assert (Hin : (t, r) ∈ (t, r) :: rest) by apply list_elem_of_here.
  assert (Ho : (tp_log0, 150) ∈ reader_offsets env_S4 r)
    by apply list_elem_of_here.
  assert (Hnn : 0 ≤ 150) by lia.
  split; [exact Hin |]. split; [exact Ho |]. split; [exact Hnn |].
  split; [reflexivity |].
  destruct (proj1 (revoke_and_stop_wind_down env_S4 assigned_S4 sys_S4 Hidle)
              s' Hrun) as (H1 & H2 & _ & Hge & _).
  split; [exact H2 |]. split; [exact H1 |].
  apply (Hge t r); [rewrite E; exact Hin | exact Ho | exact Hnn].
Defined.

(** ** The offsets a reader starts from *)

Lemma tp_offsets_of_lookup (offs : gmap TP Z) (table_tps : list TP) (tp : TP) :
  tp_offsets_of offs table_tps !! tp
  = if decide (tp ∈ table_tps) then offs !! tp else None.
Proof.
  unfold tp_offsets_of.
  assert (H : ∀ acc : gmap TP Z,
            foldl (λ (acc : gmap TP Z) (tp : TP),
                     match offs !! tp with
                     | Some o => <[tp := o]> acc
                     | None => acc
                     end) acc table_tps !! tp
            = if decide (tp ∈ table_tps)
              then from_option Some (acc !! tp) (offs !! tp)
              else acc !! tp).
  { induction table_tps as [| tp' tps IH]; intros acc; cbn [foldl].
    - rewrite decide_False by apply not_elem_of_nil. reflexivity.
    - rewrite IH.
      assert (Hstep : (match offs !! tp' with
                       | Some o => <[tp' := o]> acc
                       | None => acc
                       end) !! tp
                      = if decide (tp = tp')
                        then from_option Some (acc !! tp) (offs !! tp)
                        else acc !! tp).
      { destruct (decide (tp = tp')) as [E | E].
        - subst tp'. destruct (offs !! tp); [apply lookup_insert_eq |].
          reflexivity.
        - destruct (offs !! tp'); [| reflexivity].
          apply lookup_insert_ne. congruence. }
      rewrite Hstep.
      destruct (decide (tp ∈ tps)) as [Hin | Hnin].
      + rewrite (decide_True (P := tp ∈ tp' :: tps))
          by (apply list_elem_of_further, Hin).
        destruct (decide (tp = tp')); [| reflexivity].
        destruct (offs !! tp); reflexivity.
      + destruct (decide (tp = tp')) as [E | E].
        * subst tp'.
          rewrite (decide_True (P := tp ∈ tp :: tps))
            by apply list_elem_of_here.
          reflexivity.
        * rewrite (decide_False (P := tp ∈ tp' :: tps)); [reflexivity |].
          intros H. apply elem_of_cons in H as [H | H]; contradiction. }
  rewrite H. rewrite lookup_empty. case_decide; [| reflexivity].
  destruct (offs !! tp); reflexivity.
Qed.

Lemma sync_persisted_lookup_other (table : Table) (tps : list TP)
    (offs : gmap TP Z) (tp : TP) :
  tp ∉ tps ∨ persisted_offset table tp = None →
  _sync_persisted_offsets table tps offs !! tp = offs !! tp.
Proof.
  unfold _sync_persisted_offsets. revert offs.
  induction tps as [| tp' tps IH]; intros offs Hnot; simpl; [reflexivity |].
  rewrite IH.
  - unfold sync_persisted_step.
    destruct (persisted_offset table tp') eqn:E; [| reflexivity].
    apply lookup_insert_ne. intros ->.
    destruct Hnot as [Hnot | Hnot]; [| congruence].
    apply Hnot, list_elem_of_here.
  - destruct Hnot as [Hnot | Hnot]; [left | right; exact Hnot].
    intros Hin. apply Hnot, list_elem_of_further, Hin.
Qed.

Lemma sync_persisted_lookup_at (table : Table) (tps : list TP)
    (offs : gmap TP Z) (tp : TP) (po : Z) :
  NoDup tps → tp ∈ tps → persisted_offset table tp = Some po →
  _sync_persisted_offsets table tps offs !! tp
  = Some (Z.max (offset_get offs tp) po).
Proof.
  revert offs. induction tps as [| tp' tps IH]; intros offs Hnd Hin Hpo.
  - apply elem_of_nil in Hin. contradiction.
  - apply NoDup_cons in Hnd as [Hfresh Hnd].
    change (_sync_persisted_offsets table (tp' :: tps) offs)
      with (_sync_persisted_offsets table tps (sync_persisted_step table offs tp')).
    apply elem_of_cons in Hin as [-> | Hin].
    + rewrite sync_persisted_lookup_other by (left; exact Hfresh).
      unfold sync_persisted_step. rewrite Hpo. apply lookup_insert_eq.
    + assert (Hne : tp' ≠ tp) by (intros ->; contradiction).
      rewrite IH by assumption. do 2 f_equal.
      unfold sync_persisted_step.
      destruct (persisted_offset table tp'); [| reflexivity].
      rewrite offset_get_insert. case_decide; [congruence | reflexivity].
Qed.

(** X18: what a reviver is given to start from.  [_create_reviver]
    returns a reader over the partitions of [tps] that belong to the
    table's changelog topic, and nothing else; for such a partition the
    offset handed to the reader is [max(table offset, persisted offset)]
    when the store has a persisted offset, the table offset as it is
    when it has none, and no offset at all when neither is known.  It
    raises [KeyError] exactly when the table has no channel. *)
Theorem create_reviver_seed (table : Table) (tps : list TP) (s : Sys) :
  ((∃ s1, _create_reviver table tps s = (Raise KeyError, s1))
   ↔ _channels (mgr s) !! table_id table = None)
  ∧ (∀ r s1, _create_reviver table tps s = (Ok r, s1) →
       r_standby r = false
       ∧ r_table r = table
       ∧ (∀ tp, tp ∈ r_tps r
                ↔ tp ∈ tps ∧ fst tp = _changelog_topic_name table)
       ∧ (∀ tp, tp ∉ r_tps r → r_tp_offsets r !! tp = None)
       ∧ (∀ tp, tp ∈ r_tps r → persisted_offset table tp = None →
                r_tp_offsets r !! tp = _table_offsets (mgr s) !! tp)
       ∧ (∀ tp po, NoDup tps → tp ∈ r_tps r →
                   persisted_offset table tp = Some po →
                   r_tp_offsets r !! tp
                   = Some (Z.max (offset_get (_table_offsets (mgr s)) tp) po))
       ∧ _table_offsets (mgr s1) = _sync_persisted_offsets table (r_tps r)
                                     (_table_offsets (mgr s))).
Proof.
  unfold _create_reviver, bind, modify, get. simpl.
  set (table_tps := List.filter
                      (λ tp, String.eqb (fst tp) (_changelog_topic_name table))
                      tps).
  split.
  - destruct (_channels (mgr s) !! table_id table) as [ch |]; simpl.
    + split; [intros [s1 H]; discriminate H | discriminate].
    + split; [reflexivity | eauto].
  - intros r s1 H.
    destruct (_channels (mgr s) !! table_id table) as [ch |];
      simpl in H; [| discriminate H].
    injection H as <- <-. simpl.
    split; [reflexivity |]. split; [reflexivity |].
    assert (Hmem : ∀ tp, tp ∈ table_tps
                         ↔ tp ∈ tps ∧ fst tp = _changelog_topic_name table).
    { intros tp. unfold table_tps.
      rewrite list_elem_of_In, filter_In, <- list_elem_of_In, String.eqb_eq.
      reflexivity. }
    split; [exact Hmem |].
    split.
    { intros tp Hnot. rewrite tp_offsets_of_lookup.
      rewrite decide_False by exact Hnot. reflexivity. }
    split.
    { intros tp Hin Hnone. rewrite tp_offsets_of_lookup.
      rewrite decide_True by exact Hin.
      apply sync_persisted_lookup_other. right. exact Hnone. }
    split; [| reflexivity].
    intros tp po Hnd Hin Hpo. rewrite tp_offsets_of_lookup.
    rewrite decide_True by exact Hin.
    apply sync_persisted_lookup_at; [| exact Hin | exact Hpo].
    unfold table_tps. apply NoDup_ListNoDup, List.NoDup_filter.
    apply NoDup_ListNoDup, Hnd.
Qed.

Lemma create_reviver_seed_witness :
  NoDup assigned_S4
  ∧ persisted_offset orders100 tp_log0 = Some 100
  ∧ ∃ r s1, _create_reviver orders100 assigned_S4 sys_orders = (Ok r, s1)
            ∧ tp_log0 ∈ r_tps r
            ∧ r_tp_offsets r !! tp_log0 = Some 100
            ∧ r_tp_offsets r !! ("clicks"%string, 0) = None.
Proof.
  assert (Hnd : NoDup assigned_S4).
  { unfold assigned_S4. repeat (apply NoDup_cons; split;
      [rewrite ?elem_of_cons, ?elem_of_nil; intros H;
       repeat (destruct H as [H | H]; [discriminate H |]); exact H |]).
    apply NoDup_nil. constructor. }
  assert (Hpo : persisted_offset orders100 tp_log0 = Some 100) by reflexivity.
  split; [exact Hnd |]. split; [exact Hpo |].
  destruct (_create_reviver orders100 assigned_S4 sys_orders) as [[r | e] s1]
    eqn:E; [| vm_compute in E; discriminate E].
  exists r, s1. split; [reflexivity |].
  destruct (proj2 (create_reviver_seed orders100 assigned_S4 sys_orders) r s1 E)
    as (_ & _ & Hmem & Hout & _ & Hseed & _).
  assert (Hin : tp_log0 ∈ r_tps r).
  { apply Hmem. split; [apply list_elem_of_here | reflexivity]. }
  split; [exact Hin |]. split.
  - rewrite (Hseed tp_log0 100 Hnd Hin Hpo). reflexivity.
  - apply Hout. intros H. apply Hmem in H as [_ H]. discriminate H.
Defined.

(** ** Grouping standby partitions by table *)

Lemma grouped_nil (tp : TP) (id : nat) : grouped [] tp id ↔ False.
Proof.
  split; [| contradiction]. intros (t & l & H & _).
  apply elem_of_nil in H. exact H.
Qed.

Lemma grouped_cons (t0 : Table) (l0 : list TP) (g : list (Table * list TP))
    (tp : TP) (id : nat) :
  grouped ((t0, l0) :: g) tp id
  ↔ (table_id t0 = id ∧ tp ∈ l0) ∨ grouped g tp id.
Proof.
  unfold grouped. split.
  - intros (t & l & H & Hid & Hin). apply elem_of_cons in H as [H | H].
    + injection H as -> ->. left. auto.
    + right. eauto.
  - intros [[Hid Hin] | (t & l & H & Hid & Hin)].
    + exists t0, l0. split; [apply list_elem_of_here | auto].
    + exists t, l. split; [apply list_elem_of_further, H | auto].
Qed.

Lemma group_add_grouped (t : Table) (tp : TP) (g : list (Table * list TP))
    (tp' : TP) (id : nat) :
  grouped (group_add t tp g) tp' id
  ↔ grouped g tp' id ∨ (tp' = tp ∧ id = table_id t).
Proof.
  induction g as [| [t0 l0] g IH]; simpl.
  - rewrite grouped_cons, !grouped_nil, list_elem_of_singleton.
    intuition congruence.
  - destruct (Nat.eqb_spec (table_id t0) (table_id t)) as [E | E].
    + rewrite !grouped_cons.
      assert (Hl : tp' ∈ (if bool_decide (tp ∈ l0) then l0 else l0 ++ [tp])
                   ↔ tp' ∈ l0 ∨ tp' = tp).
      { destruct (bool_decide (tp ∈ l0)) eqn:B.
        - apply bool_decide_eq_true in B.
          split; [auto | intros [H | ->]; assumption].
        - rewrite elem_of_app, list_elem_of_singleton. reflexivity. }
      rewrite Hl. intuition congruence.
    + rewrite !grouped_cons, IH. tauto.
Qed.

Lemma group_add_ids (t : Table) (tp : TP) (g : list (Table * list TP)) :
  NoDup ((table_id ∘ fst) <$> g) →
  NoDup ((table_id ∘ fst) <$> group_add t tp g)
  ∧ ∀ id, id ∈ (table_id ∘ fst) <$> group_add t tp g
          ↔ id ∈ (table_id ∘ fst) <$> g ∨ id = table_id t.
Proof.
  induction g as [| [t0 l0] g IH]; simpl; intros Hnd.
  - split; [apply NoDup_singleton |].
    intros id. rewrite list_elem_of_singleton, elem_of_nil. tauto.
  - apply NoDup_cons in Hnd as [Hfresh Hnd].
    destruct (Nat.eqb_spec (table_id t0) (table_id t)) as [E | E]; simpl.
    + split; [apply NoDup_cons; auto |].
      intros id. rewrite elem_of_cons. intuition congruence.
    + destruct (IH Hnd) as [IH1 IH2]. split.
      * apply NoDup_cons. split; [| exact IH1].
        rewrite IH2. intros [H | H]; [contradiction | congruence].
      * intros id. rewrite !elem_of_cons, IH2. tauto.
Qed.

(** X19: how [_group_table_tps] sorts partitions.  A partition is put
    in the group of a table exactly when it is among those given and its
    topic is indexed as the changelog of that table; partitions of other
    topics are in no group, and no table has two groups. *)
Theorem group_table_tps_exact (m : TableManager) (tps : list TP) :
  (∀ tp id,
     grouped (_group_table_tps m tps) tp id
     ↔ tp ∈ tps ∧ ∃ t, _changelogs m !! fst tp = Some t ∧ table_id t = id)
  ∧ NoDup ((table_id ∘ fst) <$> _group_table_tps m tps)
  ∧ (∀ tp, _is_changelog_tp m tp = false →
           ∀ id, ¬ grouped (_group_table_tps m tps) tp id).
Proof.
  unfold _group_table_tps.
  set (step := λ (g : list (Table * list TP)) (tp : TP),
         match _changelogs m !! fst tp with
         | Some table => group_add table tp g
         | None => g
         end).
  assert (Hgen : ∀ g,
            NoDup ((table_id ∘ fst) <$> g) →
            NoDup ((table_id ∘ fst) <$> foldl step g tps)
            ∧ ∀ tp id,
                grouped (foldl step g tps) tp id
                ↔ grouped g tp id
                  ∨ (tp ∈ tps
                     ∧ ∃ t, _changelogs m !! fst tp = Some t ∧ table_id t = id)).
  { induction tps as [| tp0 tps IH]; intros g Hnd; simpl.
    - split; [exact Hnd |]. intros tp id. rewrite elem_of_nil. tauto.
    - assert (Hnd' : NoDup ((table_id ∘ fst) <$> step g tp0)).
      { unfold step. destruct (_changelogs m !! fst tp0); [| exact Hnd].
        apply group_add_ids, Hnd. }
      destruct (IH _ Hnd') as [IH1 IH2]. split; [exact IH1 |].
      intros tp id. rewrite IH2, elem_of_cons.
      assert (Hstep : grouped (step g tp0) tp id
                      ↔ grouped g tp id
                        ∨ (tp = tp0
                           ∧ ∃ t, _changelogs m !! fst tp = Some t
                                  ∧ table_id t = id)).
      { unfold step. destruct (_changelogs m !! fst tp0) as [t0 |] eqn:E.
        - rewrite group_add_grouped. split.
          + intros [H | [-> ->]]; [auto |]. right. split; [reflexivity |].
            exists t0. auto.
          + intros [H | [-> (t & Ht & Hid)]]; [auto |]. right.
            rewrite E in Ht. injection Ht as <-. auto.
        - split; [auto |]. intros [H | [-> (t & Ht & _)]]; [exact H |].
          rewrite E in Ht. discriminate Ht. }
      rewrite Hstep. tauto. }
  destruct (Hgen [] (NoDup_nil_2)) as [H1 H2].
  split; [| split; [exact H1 |]].
  - intros tp id. rewrite H2, grouped_nil. tauto.
  - intros tp Hnot id Hg. apply H2 in Hg.
    rewrite grouped_nil in Hg. destruct Hg as [[] | [_ (t & Ht & _)]].
    unfold _is_changelog_tp in Hnot. rewrite Ht in Hnot. discriminate Hnot.
Qed.

Lemma group_table_tps_exact_witness :
  _is_changelog_tp (mgr sys_orders) ("clicks"%string, 0) = false
  ∧ (∀ id, ¬ grouped (_group_table_tps (mgr sys_orders) assigned_S4)
               ("clicks"%string, 0) id)
  ∧ grouped (_group_table_tps (mgr sys_orders) assigned_S4) tp_log0 1.
Proof.
  assert (H : _is_changelog_tp (mgr sys_orders) ("clicks"%string, 0) = false)
    by reflexivity.
  pose proof (group_table_tps_exact (mgr sys_orders) assigned_S4)
    as (Hiff & _ & Hnot).
  split; [exact H |]. split; [exact (Hnot _ H) |].
  apply Hiff. split; [apply list_elem_of_here |].
  exists orders100. split; reflexivity.
Defined.

(** ** Acquiring the changelog channels *)

Lemma sys_eta (s : Sys) : {| mgr := mgr s; trace := trace s |} = s.
Proof. destruct s. reflexivity. Qed.

Lemma set_channels_same (m : TableManager) : set_channels (_channels m) m = m.
Proof. destruct m. reflexivity. Qed.

Lemma acquire_held (ch : gmap nat string) (t : Table) (c : string) :
  ch !! table_id t = Some c → acquire ch t = ch.
Proof. intros E. unfold acquire. rewrite E. reflexivity. Qed.

Lemma acquire_free (ch : gmap nat string) (t : Table) :
  ch !! table_id t = None →
  acquire ch t = <[table_id t := changelog_topic_name t]> ch.
Proof. intros E. unfold acquire. rewrite E. reflexivity. Qed.

Lemma acquire_loop (l : list Table) (s : Sys) :
  for_each l (λ table,
    bind get (λ m1,
      match _channels m1 !! table_id table with
      | Some _ => ret tt
      | None =>
          modify (set_channels
                    (<[table_id table := changelog_topic_name table]>
                       (_channels m1)))
      end)) s
  = (Ok tt,
     {| mgr := set_channels (foldl acquire (_channels (mgr s)) l) (mgr s);
        trace := trace s |}).
Proof.
  revert s. induction l as [| t l IH]; intros s.
  - simpl. unfold ret. rewrite set_channels_same, sys_eta. reflexivity.
  - cbn [for_each foldl]. unfold bind at 1. unfold bind at 1, get at 1.
    destruct (_channels (mgr s) !! table_id t) eqn:E.
    + unfold ret at 1. rewrite IH, (acquire_held _ _ _ E). reflexivity.
    + unfold modify at 1. rewrite IH, (acquire_free _ _ E). reflexivity.
Qed.

Lemma update_channels_eq (env : Env) (s : Sys) :
  let m' :=
    set_changelogs (foldl index (_changelogs (mgr s)) (values (mgr s)))
      (set_channels (foldl acquire (_channels (mgr s)) (values (mgr s)))
         (mgr s)) in
  _update_channels env s
  = (Ok tt,
     {| mgr := m';
        trace := trace s
                 ++ [EvPausePartitions
                       (List.filter (_is_changelog_tp m')
                          (consumer_assignment env))] |}).
Proof.
  intros m'. unfold _update_channels.
  unfold bind at 1, get at 1. unfold bind at 1.
  rewrite acquire_loop. reflexivity.
Qed.

Lemma acquire_keeps (l : list Table) (ch : gmap nat string) (id : nat)
    (c : string) :
  ch !! id = Some c → foldl acquire ch l !! id = Some c.
Proof.
  revert ch. induction l as [| t l IH]; intros ch H; [exact H |].
  cbn [foldl]. apply IH.
  destruct (ch !! table_id t) eqn:E.
  - rewrite (acquire_held _ _ _ E). exact H.
  - rewrite (acquire_free _ _ E).
    rewrite lookup_insert_ne; [exact H |]. intros Heq. congruence.
Qed.

Lemma acquire_ready (l : list Table) (ch : gmap nat string) (t : Table) :
  t ∈ l → is_Some (foldl acquire ch l !! table_id t).
Proof.
  revert ch. induction l as [| t0 l IH]; intros ch H.
  - apply elem_of_nil in H. contradiction.
  - cbn [foldl]. apply elem_of_cons in H as [-> | H]; [| apply IH, H].
    destruct (ch !! table_id t0) as [c |] eqn:E.
    + exists c. apply acquire_keeps. rewrite (acquire_held _ _ _ E). exact E.
    + eexists. apply acquire_keeps. rewrite (acquire_free _ _ E).
      apply lookup_insert_eq.
Qed.

Lemma acquire_new (l : list Table) (ch : gmap nat string) (id : nat) :
  is_Some (foldl acquire ch l !! id) →
  is_Some (ch !! id) ∨ ∃ t, t ∈ l ∧ table_id t = id
                            ∧ foldl acquire ch l !! id
                              = Some (changelog_topic_name t).
Proof.
  revert ch. induction l as [| t0 l IH]; intros ch H; [left; exact H |].
  cbn [foldl] in *.
  destruct (ch !! id) as [c |] eqn:Eid; [left; eauto |]. right.
  destruct (ch !! table_id t0) as [c0 |] eqn:E.
  - rewrite (acquire_held _ _ _ E) in *.
    destruct (IH _ H) as [[c Hc] | (t & Hin & Hid & Hl)]; [congruence |].
    exists t. split; [apply list_elem_of_further, Hin | auto].
  - rewrite (acquire_free _ _ E) in *.
    destruct (decide (table_id t0 = id)) as [Heq | Hne].
    + exists t0. split; [apply list_elem_of_here |]. split; [exact Heq |].
      apply acquire_keeps. rewrite <- Heq. apply lookup_insert_eq.
    + destruct (IH _ H) as [[c Hc] | (t & Hin & Hid & Hl)].
      * rewrite lookup_insert_ne in Hc by exact Hne. congruence.
      * exists t. split; [apply list_elem_of_further, Hin | auto].
Qed.

Lemma acquire_again (l : list Table) (ch : gmap nat string) :
  (∀ t, t ∈ l → is_Some (ch !! table_id t)) → foldl acquire ch l = ch.
Proof.
  induction l as [| t l IH]; intros H; [reflexivity |].
  cbn [foldl]. destruct (H t (list_elem_of_here _ _)) as [c Hc].
  rewrite (acquire_held _ _ _ Hc).
  apply IH. intros t' Hin. apply H, list_elem_of_further, Hin.
Qed.

(** The index after the loop, one key at a time: the last table of the
    list with that topic name, or what was there. *)
Lemma index_lookup (l : list Table) (acc : gmap string Table) (n : string) :
  foldl index acc l !! n
  = foldl (λ (o : option Table) (t : Table),
             if decide (changelog_topic_name t = n) then Some t else o)
      (acc !! n) l.
Proof.
  revert acc. induction l as [| t l IH]; intros acc; [reflexivity |].
  cbn [foldl]. rewrite IH. f_equal. unfold index.
  destruct (decide (changelog_topic_name t = n)) as [<- | Hne].
  - apply lookup_insert_eq.
  - apply lookup_insert_ne, Hne.
Qed.

Lemma last_named (l : list Table) (n : string) (o : option Table) :
  let pick := λ (o : option Table) (t : Table),
                if decide (changelog_topic_name t = n) then Some t else o in
  (foldl pick o l = o ∧ ∀ t, t ∈ l → changelog_topic_name t ≠ n)
  ∨ (∃ t, t ∈ l ∧ changelog_topic_name t = n
          ∧ ∀ o', foldl pick o' l = Some t).
Proof.
  intros pick. revert o. induction l as [| t l IH]; intros o.
  - left. split; [reflexivity |]. intros t H. apply elem_of_nil in H.
    contradiction.
  - cbn [foldl]. destruct (decide (changelog_topic_name t = n)) as [Ht | Ht].
    + assert (Hpt : ∀ o', pick o' t = Some t)
        by (intros o'; unfold pick; apply decide_True; exact Ht).
      right. destruct (IH (Some t)) as [[Heq Hno] | (t' & Hin & Hn & Hall)].
      * exists t. split; [apply list_elem_of_here |]. split; [exact Ht |].
        intros o'. rewrite Hpt. exact Heq.
      * exists t'. split; [apply list_elem_of_further, Hin |].
        split; [exact Hn |]. intros o'. apply Hall.
    + assert (Hpt : ∀ o', pick o' t = o')
        by (intros o'; unfold pick; apply decide_False; exact Ht).
      rewrite Hpt. destruct (IH o) as [[Heq Hno] | (t' & Hin & Hn & Hall)].
      * left. split; [exact Heq |].
        intros t' H. apply elem_of_cons in H as [-> | H]; auto.
      * right. exists t'. split; [apply list_elem_of_further, Hin |].
        split; [exact Hn |]. intros o'. rewrite Hpt. apply Hall.
Qed.

Lemma index_again (l : list Table) (acc : gmap string Table) :
  foldl index (foldl index acc l) l = foldl index acc l.
Proof.
  apply map_eq. intros n. rewrite (index_lookup l (foldl index acc l)).
  rewrite !index_lookup.
  destruct (last_named l n (acc !! n)) as [[Heq _] | (t & _ & _ & Hall)].
  - cbv zeta in Heq. rewrite !Heq. reflexivity.
  - cbv zeta in Hall. rewrite !Hall. reflexivity.
Qed.

(** X20: what [_update_channels] leaves behind when it returns.  It
    has written only the channels and the changelog index: every
    registered table then has a channel, a channel held before is kept,
    a table that had none has the channel of its changelog topic, the
    index maps the changelog topic name of every registered table to a
    registered table of that name and keeps its other entries, the one
    call made on the consumer pauses the assigned partitions whose topic
    is in the new index, and a second run that returns leaves the
    manager as the first did. *)
Theorem update_channels_result (env : Env) (s s' : Sys) :
  _update_channels env s = (Ok tt, s') →
  mgr s' = set_changelogs (_changelogs (mgr s'))
             (set_channels (_channels (mgr s')) (mgr s))
  ∧ channels_ready (mgr s')
  ∧ (∀ id c, _channels (mgr s) !! id = Some c →
             _channels (mgr s') !! id = Some c)
  ∧ (∀ id, _channels (mgr s) !! id = None →
           is_Some (_channels (mgr s') !! id) →
           ∃ t, t ∈ values (mgr s) ∧ table_id t = id
                ∧ _channels (mgr s') !! id = Some (changelog_topic_name t))
  ∧ (∀ t, t ∈ values (mgr s) →
          ∃ t', _changelogs (mgr s') !! changelog_topic_name t = Some t'
                ∧ t' ∈ values (mgr s)
                ∧ changelog_topic_name t' = changelog_topic_name t)
  ∧ (∀ n, (∀ t, t ∈ values (mgr s) → changelog_topic_name t ≠ n) →
          _changelogs (mgr s') !! n = _changelogs (mgr s) !! n)
  ∧ trace s' = trace s
               ++ [EvPausePartitions
                     (List.filter (_is_changelog_tp (mgr s'))
                        (consumer_assignment env))]
  ∧ (∀ s'', _update_channels env s' = (Ok tt, s'') → mgr s'' = mgr s').
Proof.
  intros Hrun. rewrite update_channels_eq in Hrun. cbv zeta in Hrun.
  injection Hrun as <-. cbn [mgr trace].
  set (ch' := foldl acquire (_channels (mgr s)) (values (mgr s))).
  set (cl' := foldl index (_changelogs (mgr s)) (values (mgr s))).
  assert (Hch : _channels (set_changelogs cl' (set_channels ch' (mgr s))) = ch')
    by reflexivity.
  assert (Hcl : _changelogs (set_changelogs cl' (set_channels ch' (mgr s))) = cl')
    by reflexivity.
  assert (Hv : values (set_changelogs cl' (set_channels ch' (mgr s)))
               = values (mgr s)) by reflexivity.
  split; [reflexivity |]. split; [| split; [| split; [| split; [| split; [| split]]]]].
  - intros t Ht. rewrite Hv in Ht. rewrite Hch. apply acquire_ready, Ht.
  - intros id c H. rewrite Hch. apply acquire_keeps, H.
  - intros id Hnone Hsome. rewrite Hch in *.
    destruct (acquire_new _ _ _ Hsome) as [[c Hc] | H]; [congruence | exact H].
  - intros t Ht. rewrite Hcl. unfold cl'.
    destruct (last_named (values (mgr s)) (changelog_topic_name t)
                (_changelogs (mgr s) !! changelog_topic_name t))
      as [[_ Hno] | (t' & Hin & Hn & Hall)].
    + exfalso. exact (Hno t Ht eq_refl).
    + exists t'. rewrite index_lookup. cbv zeta in Hall. rewrite Hall. auto.
  - intros n Hno. rewrite Hcl. unfold cl'. rewrite index_lookup.
    destruct (last_named (values (mgr s)) n (_changelogs (mgr s) !! n))
      as [[Heq _] | (t' & Hin & Hn & _)]; [exact Heq |].
    exfalso. exact (Hno t' Hin Hn).
  - reflexivity.
  - intros s'' Hrun. rewrite update_channels_eq in Hrun. cbv zeta in Hrun.
    injection Hrun as <-. cbn [mgr].
    rewrite Hv. unfold cl'. rewrite index_again.
    rewrite (acquire_again (values (mgr s)) ch').
    + reflexivity.
    + intros t Ht. apply acquire_ready, Ht.
Qed.

Lemma update_channels_result_witness :
  _channels (mgr sys_added) !! 1%nat = None
  ∧ ∃ s', _update_channels env_S4 sys_added = (Ok tt, s')
          ∧ _channels (mgr s') !! 1%nat = Some "orders-changelog"%string
          ∧ is_Some (_changelogs (mgr s') !! "orders-changelog"%string).
Proof.
  assert (Hnone : _channels (mgr sys_added) !! 1%nat = None) by reflexivity.
  assert (Hin : orders100 ∈ values (mgr sys_added)) by apply list_elem_of_here.
  split; [exact Hnone |].
  destruct (_update_channels env_S4 sys_added) as [[[] | e] s'] eqn:Hrun;
    [| vm_compute in Hrun; discriminate Hrun].
  destruct (update_channels_result env_S4 sys_added s' Hrun)
    as (Hm & Hready & _ & Hnew & Hidx & _).
  assert (Hin' : orders100 ∈ values (mgr s')).
  { unfold values. rewrite Hm. exact Hin. }
  exists s'. split; [reflexivity |]. split.
  - destruct (Hnew 1%nat Hnone (Hready orders100 Hin')) as (t & Ht & _ & Hc).
    apply list_elem_of_singleton in Ht. subst t. exact Hc.
  - destruct (Hidx orders100 Hin) as (t' & Ht' & _). exists t'. exact Ht'.
Defined.

(** ** Reading the changelogs *)










(** ** A whole recovery *)

Lemma kept_refl (I : TableManager → Prop) (s : Sys) : kept I s s.
Proof. intros H. exact H. Qed.

Lemma kept_trans (I : TableManager → Prop) (a b c : Sys) :
  kept I a b → kept I b c → kept I a c.
Proof. unfold kept. auto. Qed.

Lemma update_channels_indexed (env : Env) :
  preserves (kept indexed_ready) (_update_channels env).
Proof.
  intros s HI. rewrite update_channels_eq. cbv zeta. cbn [snd mgr].
  intros n t Hl. cbn [_changelogs _channels set_changelogs set_channels] in *.
  rewrite index_lookup in Hl.
  destruct (last_named (values (mgr s)) n (_changelogs (mgr s) !! n))
    as [[Heq _] | (t' & Hin & _ & Hall)]; cbv zeta in *.
  - rewrite Heq in Hl. destruct (HI n t Hl) as [c Hc].
    exists c. apply acquire_keeps, Hc.
  - rewrite Hall in Hl. injection Hl as <-. apply acquire_ready, Hin.
Qed.

Ltac index_leaf :=
  try solve [auto 2];
  try solve [intros ? ?; assumption].

Ltac index_kept method :=
  pose proof (kept_refl indexed_ready);
  pose proof (kept_trans indexed_ready);
  unfold method; method_steps; index_leaf.

Lemma create_reviver_indexed table tps :
  preserves (kept indexed_ready) (_create_reviver table tps).
Proof. index_kept _create_reviver. Qed.

Lemma sync_reader_indexed env r :
  preserves (kept indexed_ready) (sync_reader env r).
Proof. index_kept sync_reader. Qed.

Lemma recover_changelogs_indexed env tps :
  preserves (kept indexed_ready) (_recover_changelogs env tps).
Proof.
  pose proof create_reviver_indexed. pose proof sync_reader_indexed.
  index_kept _recover_changelogs.
Qed.

Lemma start_standby_indexed table tps :
  preserves (kept indexed_ready) (start_standby table tps).
Proof. index_kept start_standby. Qed.

Lemma start_standbys_indexed tps :
  preserves (kept indexed_ready) (_start_standbys tps).
Proof. pose proof start_standby_indexed. index_kept _start_standbys. Qed.

Lemma stop_standbys_indexed env :
  preserves (kept indexed_ready) (_stop_standbys env).
Proof. pose proof sync_reader_indexed. index_kept _stop_standbys. Qed.

Lemma on_recovery_started_indexed env :
  preserves (kept indexed_ready) (_on_recovery_started env).
Proof. pose proof update_channels_indexed. index_kept _on_recovery_started. Qed.

Lemma on_recovery_completed_indexed :
  preserves (kept indexed_ready) _on_recovery_completed.
Proof. index_kept _on_recovery_completed. Qed.

Lemma recover_until_check_indexed env assigned :
  preserves (kept indexed_ready) (recover_until_check env assigned).
Proof.
  pose proof on_recovery_started_indexed. pose proof recover_changelogs_indexed.
  index_kept recover_until_check.
Qed.

Lemma recover_indexed env assigned :
  preserves (kept indexed_ready) (_recover env assigned).
Proof.
  pose proof recover_until_check_indexed. pose proof start_standbys_indexed.
  pose proof on_recovery_completed_indexed.
  index_kept _recover.
Qed.

Lemma maybe_abort_indexed :
  preserves (kept indexed_ready) _maybe_abort_ongoing_recovery.
Proof. index_kept _maybe_abort_ongoing_recovery. Qed.

Lemma on_partitions_revoked_indexed env revoked :
  preserves (kept indexed_ready) (on_partitions_revoked env revoked).
Proof.
  pose proof maybe_abort_indexed. pose proof stop_standbys_indexed.
  index_kept on_partitions_revoked.
Qed.

Lemma on_stop_indexed env : preserves (kept indexed_ready) (on_stop env).
Proof.
  pose proof maybe_abort_indexed. pose proof stop_standbys_indexed.
  index_kept on_stop.
Qed.

Lemma add_indexed table : preserves (kept indexed_ready) (add table).
Proof. index_kept add. Qed.

Lemma on_partitions_assigned_indexed env assigned :
  preserves (kept indexed_ready) (on_partitions_assigned env assigned).
Proof.
  assert (preserves (kept indexed_ready) (run_future (_recover env assigned)))
    by (apply preserves_run_future, recover_indexed).
  index_kept on_partitions_assigned.
Qed.




Lemma group_add_tables (t : Table) (tp : TP) (g : list (Table * list TP))
    (item : Table * list TP) :
  item ∈ group_add t tp g →
  table_id (fst item) = table_id t ∨ ∃ l', (fst item, l') ∈ g.
Proof.
  induction g as [| [t0 l0] g IH]; simpl; intros Hin.
  - apply list_elem_of_singleton in Hin. subst item. left. reflexivity.
  - destruct (Nat.eqb_spec (table_id t0) (table_id t)) as [E | E].
    + apply elem_of_cons in Hin as [-> | Hin].
      * left. exact E.
      * right. exists (snd item). destruct item.
        apply list_elem_of_further, Hin.
    + apply elem_of_cons in Hin as [-> | Hin].
      * right. exists l0. apply list_elem_of_here.
      * destruct (IH Hin) as [H | [l' H]]; [left; exact H |].
        right. exists l'. apply list_elem_of_further, H.
Qed.

Lemma group_tables_indexed (m : TableManager) (tps : list TP)
    (item : Table * list TP) :
  item ∈ _group_table_tps m tps →
  ∃ n t', _changelogs m !! n = Some t' ∧ table_id t' = table_id (fst item).
Proof.
  unfold _group_table_tps.
  set (step := λ (g : list (Table * list TP)) (tp : TP),
         match _changelogs m !! fst tp with
         | Some table => group_add table tp g
         | None => g
         end).
  assert (Hgen : ∀ g,
            (∀ t l, (t, l) ∈ g →
               ∃ n t', _changelogs m !! n = Some t' ∧ table_id t' = table_id t) →
            ∀ t l, (t, l) ∈ foldl step g tps →
               ∃ n t', _changelogs m !! n = Some t' ∧ table_id t' = table_id t).
  { induction tps as [| tp tps IH]; intros g Hg; [exact Hg |].
    cbn [foldl]. apply IH. intros t l Hin. unfold step in Hin.
    destruct (_changelogs m !! fst tp) as [t0 |] eqn:E; [| eapply Hg, Hin].
    apply group_add_tables in Hin as [Hid | [l' Hin]].
    - exists (fst tp), t0. split; [exact E | symmetry; exact Hid].
    - eapply Hg, Hin. }
  intros Hin. destruct item as [t l]. apply (Hgen [] ) with (l := l).
  - intros t0 l0 H. apply elem_of_nil in H. contradiction.
  - exact Hin.
Qed.







(** ** The changelog index and the channels *)

Lemma run_call_indexed (s : Sys) (c : call) :
  indexed_ready (mgr s) → indexed_ready (mgr (run_call s c)).
Proof.
  intros H. destruct c; simpl.
  - apply add_indexed, H.
  - apply update_channels_indexed, H.
  - apply on_partitions_assigned_indexed, H.
  - apply on_partitions_revoked_indexed, H.
  - apply on_stop_indexed, H.
Qed.

Lemma run_calls_indexed (cs : list call) (s : Sys) :
  indexed_ready (mgr s) → indexed_ready (mgr (run_calls s cs)).
Proof.
  revert s. induction cs as [| c cs IH]; intros s H; [exact H |].
  apply IH, run_call_indexed, H.
Qed.

(** X23: the changelog index never names a table without a channel.
    If every table in the index has its channel, this is still so at
    the end of [add], of [_update_channels], of a run of [_recover], of
    [on_partitions_revoked] and of [on_stop], and so after any calls;
    it holds on a fresh manager.  Every table that [_group_table_tps]
    makes a group for, which is the table [_start_standbys] then looks
    up in [_channels], has its channel. *)
Theorem indexed_tables_have_channels (s : Sys) :
  indexed_ready (mgr s) →
  (∀ tps item,
     item ∈ _group_table_tps (mgr s) tps →
     is_Some (_channels (mgr s) !! table_id (fst item)))
  ∧ (∀ table, indexed_ready (mgr (snd (add table s))))
  ∧ (∀ env, indexed_ready (mgr (snd (_update_channels env s))))
  ∧ (∀ env assigned, indexed_ready (mgr (snd (_recover env assigned s))))
  ∧ (∀ env revoked,
       indexed_ready (mgr (snd (on_partitions_revoked env revoked s))))
  ∧ (∀ env, indexed_ready (mgr (snd (on_stop env s))))
  ∧ (∀ cs, indexed_ready (mgr (run_calls s cs))).
Proof.
  intros H. split.
  - intros tps item Hin.
    destruct (group_tables_indexed _ _ _ Hin) as (n & t & Hl & Hid).
    rewrite <- Hid. exact (H n t Hl).
  - split; [intros table; apply add_indexed, H |].
    split; [intros env; apply update_channels_indexed, H |].
    split; [intros env assigned; apply recover_indexed, H |].
    split; [intros env revoked; apply on_partitions_revoked_indexed, H |].
    split; [intros env; apply on_stop_indexed, H |].
    intros cs. apply run_calls_indexed, H.
Qed.

Lemma indexed_tables_have_channels_witness :
  indexed_ready (mgr fresh)
  ∧ (∀ cs, indexed_ready (mgr (run_calls fresh cs)))
  ∧ indexed_ready (mgr (snd (_update_channels env_S4 sys_added)))
  ∧ (∀ item,
       item ∈ _group_table_tps (mgr (snd (_update_channels env_S4 sys_added)))
                (assigned_standbys env_S4) →
       is_Some (_channels (mgr (snd (_update_channels env_S4 sys_added)))
                  !! table_id (fst item))).
Proof.
  assert (Hfresh : indexed_ready (mgr fresh)).
  { intros n t H. unfold fresh, init in H. cbn [mgr _changelogs] in H.
    rewrite lookup_empty in H. discriminate H. }
  assert (Hadded : indexed_ready (mgr sys_added)).
  { exact (proj1 (proj2 (indexed_tables_have_channels fresh Hfresh)) orders100). }
  assert (Hup : indexed_ready (mgr (snd (_update_channels env_S4 sys_added)))).
  { exact (proj1 (proj2 (proj2 (indexed_tables_have_channels sys_added Hadded)))
             env_S4). }
  split; [exact Hfresh |].
  split; [exact (proj2 (proj2 (proj2 (proj2 (proj2 (proj2
                   (indexed_tables_have_channels fresh Hfresh))))))) |].
  split; [exact Hup |].
  intros item.
  exact (proj1 (indexed_tables_have_channels _ Hup)
           (assigned_standbys env_S4) item).
Defined.

End ManagerMore.
